(** * imd-utils: a shallow embedding of the ImageDisk tools

    The C sources modelled here are the command-line front ends
    [imdchk.c], [imda.c], [imdcmp.c] and [imdu.c].  C integers are
    modelled as [Z] with the wrap-around of the narrow types written
    out, fixed-size C arrays as lists read with [!!] and updated with
    [<[ i := x ]>], enumerations as inductive types, C strings as the
    lists of their character codes, and the loops of the tools as
    fuelled state-passing functions returning [option]. *)

From Stdlib Require Import ZArith Lia Bool List.
From stdpp Require Import base tactics option list numbers sorting strings.
Import ListNotations.

Local Open Scope Z_scope.

(* ================================================================== *)
(** ** libimd: declarations shared by the tools                        *)
(* ================================================================== *)

Module libimd.

(** Modelled from the spec: the sector status byte enumeration of
    [libimd.h] (the header is not among the sources).  The nine legal
    codes are 0 unavailable, 1 normal, 2 compressed, 3 normal+DAM,
    4 compressed+DAM, 5 normal+error, 6 compressed+error,
    7 normal+DAM+error and 8 compressed+DAM+error. *)
Definition IMD_SDR_UNAVAILABLE : Z := 0.
Definition IMD_SDR_NORMAL : Z := 1.
Definition IMD_SDR_COMPRESSED : Z := 2.
Definition IMD_SDR_NORMAL_DAM : Z := 3.
Definition IMD_SDR_COMPRESSED_DAM : Z := 4.
Definition IMD_SDR_NORMAL_ERR : Z := 5.
Definition IMD_SDR_COMPRESSED_ERR : Z := 6.
Definition IMD_SDR_DELETED_ERR : Z := 7.
Definition IMD_SDR_COMPRESSED_DEL_ERR : Z := 8.

(** Modelled from the spec: the four predicates on a sector status
    byte ([IMD_SDR_HAS_DATA] and friends are macros of [libimd.h]);
    each one is the set of codes the enumeration above gives it. *)
Definition IMD_SDR_HAS_DATA (f : Z) : bool := negb (f =? IMD_SDR_UNAVAILABLE).
Definition IMD_SDR_IS_COMPRESSED (f : Z) : bool :=
  (f =? 2) || (f =? 4) || (f =? 6) || (f =? 8).
Definition IMD_SDR_HAS_DAM (f : Z) : bool :=
  (f =? 3) || (f =? 4) || (f =? 7) || (f =? 8).
Definition IMD_SDR_HAS_ERR (f : Z) : bool :=
  (f =? 5) || (f =? 6) || (f =? 7) || (f =? 8).

(** Modelled from the spec: bits 7 and 6 of the head byte announce
    the optional cylinder and head maps. *)
Definition IMD_HFLAG_CMAP_PRES : Z := 0x80.
Definition IMD_HFLAG_HMAP_PRES : Z := 0x40.

(** Modelled from the spec: the mode byte ranges over six codes. *)
Definition LIBIMD_NUM_MODES : nat := 6.

(** Modelled from the spec: the three compression policies of the
    writer ([IMD_COMPRESSION_*] are integer constants of [libimd.h]
    whose values the tools never inspect). *)
Inductive compression_mode : Set :=
| IMD_COMPRESSION_AS_READ
| IMD_COMPRESSION_FORCE_COMPRESS
| IMD_COMPRESSION_FORCE_DECOMPRESS.

(** [ImdTrackInfo], with the fields the tools read and write.  The
    arrays [smap], [cmap], [hmap] and [sflag] have
    [LIBIMD_MAX_SECTORS_PER_TRACK] cells in C; [data] is a heap
    pointer, [None] standing for [NULL]. *)
Record ImdTrackInfo : Type := mkTrack {
  mode : Z;
  cyl : Z;
  head : Z;
  hflag : Z;
  num_sectors : Z;
  sector_size_code : Z;
  sector_size : Z;
  smap : list Z;
  cmap : list Z;
  hmap : list Z;
  sflag : list Z;
  data : option (list Z);
  data_size : Z;
  loaded : bool
}.

(** [memset(&track, 0, sizeof(ImdTrackInfo))], the arrays having
    [max_spt] = [LIBIMD_MAX_SECTORS_PER_TRACK] cells (the constant is
    defined in [libimd.h] and is a parameter here). *)
Definition zero_track (max_spt : Z) : ImdTrackInfo :=
  {| mode := 0; cyl := 0; head := 0; hflag := 0; num_sectors := 0;
     sector_size_code := 0; sector_size := 0;
     smap := replicate (Z.to_nat max_spt) 0;
     cmap := replicate (Z.to_nat max_spt) 0;
     hmap := replicate (Z.to_nat max_spt) 0;
     sflag := replicate (Z.to_nat max_spt) 0;
     data := None; data_size := 0; loaded := false |}.

(** [ImdWriteOpts], as filled in by [imdu]. *)
Record ImdWriteOpts : Type := mkWriteOpts {
  wo_compression_mode : compression_mode;
  force_non_bad : bool;
  force_non_deleted : bool;
  wo_tmode : list Z;
  interleave_factor : Z
}.

(** Modelled from the spec: [imd_is_uniform(buf, size, &fill)] of the
    library, which tells whether every byte of a sector is the same
    and reports that byte.  [Some v] stands for a return of 1 with
    [fill = v], [None] for a return of 0. *)
Definition imd_is_uniform (sector_data : list Z) : option Z :=
  match sector_data with
  | [] => None
  | v :: rest => if forallb (Z.eqb v) rest then Some v else None
  end.

(** Modelled from the spec: the Sector Codec of section 4.1, whose
    code ([imd_write_track_imd], [imd_load_track]) is in the library.
    A policy is force-compress-when-uniform, force-full, or
    preserve-as-read, the last one carrying whether the sector was
    flagged compressed when read. *)
Inductive compression_policy : Set :=
| ForceCompressWhenUniform
| ForceFull
| PreserveAsRead (originally_compressed : bool).

Inductive flag_suffix : Set := FormNormal | FormCompressed.

Definition policy_allows (p : compression_policy) : bool :=
  match p with
  | ForceCompressWhenUniform => true
  | ForceFull => false
  | PreserveAsRead c => c
  end.

(** Modelled from the spec: [encode_sector(data, sector_size, policy)]
    emits the 1-byte compressed form when the policy allows it and
    every byte is identical, the full-size normal form otherwise. *)
Definition encode_sector (sector_data : list Z) (size : nat)
    (p : compression_policy) : flag_suffix * list Z :=
  let bytes := take size sector_data in
  match (if policy_allows p then imd_is_uniform bytes else None) with
  | Some v => (FormCompressed, [v])
  | None => (FormNormal, bytes)
  end.

(** Modelled from the spec: [decode_sector(flag, payload, sector_size,
    fill_byte)]; [None] is the [FormatError] of an inconsistent
    payload length. *)
Definition decode_sector (flag : Z) (payload : list Z) (size : nat)
    (fill_byte : Z) : option (list Z) :=
  if IMD_SDR_IS_COMPRESSED flag then
    match payload with
    | [v] => Some (replicate size v)
    | _ => None
    end
  else if negb (IMD_SDR_HAS_DATA flag) then Some (replicate size fill_byte)
  else if (length payload =? size)%nat then Some payload
  else None.

(** Modelled from the spec: the Interleave Analyzer of section 4.3
    ([imd_calculate_best_interleave] and the map generator are
    library code).  The physical slots are filled one ID at a time;
    [skip_filled] moves past slots already filled, wrapping modulo
    the number of slots. *)
Fixpoint skip_filled (fuel : nat) (slots : list (option Z)) (pos : nat) : nat :=
  match fuel with
  | O => pos
  | S fuel' =>
      match slots !! pos with
      | Some (Some _) => skip_filled fuel' slots (S pos mod length slots)
      | _ => pos
      end
  end.

(** Place [n] consecutive IDs from [id] on, the next one [factor]
    slots after the last (mod the slot count). *)
Fixpoint place_ids (n factor : nat) (id : Z) (pos : nat) (slots : list (option Z))
    : list (option Z) :=
  match n with
  | O => slots
  | S n' =>
      let p := skip_filled (length slots) slots pos in
      place_ids n' factor (id + 1) ((p + factor) mod length slots)
                (<[p := Some id]> slots)
  end.

(** Modelled from the spec: [generate_interleaved_map(sector_count,
    factor, base_id)], starting at the first physical slot. *)
Definition generate_interleaved_map (sector_count factor : nat) (base_id : Z) : list Z :=
  default 0 <$> place_ids sector_count factor base_id 0 (replicate sector_count None).

(** Modelled from the spec: [calculate_best_interleave(sector_map)]
    tries the factors in increasing order, from 1 to [sector_count - 1]
    (section 4.3), factor 1 being tried in any case: section 8 lists
    the map of a single sector among those whose factor is found, as 1.
    It returns the first factor whose generated sequence of IDs
    1..[sector_count] is the given map, [None] when there is none. *)
Definition calculate_best_interleave (sector_map : list Z) : option nat :=
  find (fun factor =>
          bool_decide (generate_interleaved_map (length sector_map) factor 1 = sector_map))
       (seq 1 (Nat.max 1 (length sector_map - 1))).

(** The library entry point, applied to the sector map of a track. *)
Definition imd_calculate_best_interleave (t : ImdTrackInfo) : option nat :=
  calculate_best_interleave (take (Z.to_nat (num_sectors t)) (smap t)).

(** The number of slots not yet filled. *)
Fixpoint free_slots (slots : list (option Z)) : nat :=
  match slots with
  | [] => 0
  | None :: rest => S (free_slots rest)
  | Some _ :: rest => free_slots rest
  end.

(** Modelled from the spec: an open input stream positioned at a track
boundary, as the sequence of results the successive calls of
[imd_load_track] will give: a decoded track (return 1) or a read
failure (return < 0); at the end of the sequence every call returns 0
(clean end-of-stream). *)
Inductive load_result : Type :=
| LoadTrack (t : ImdTrackInfo)
| LoadError.

Definition track_stream := list load_result.

(** A successful load leaves the track with [loaded] set, which is what
the tools test afterwards. *)
Definition mark_loaded (t : ImdTrackInfo) : ImdTrackInfo :=
{| mode := mode t; cyl := cyl t; head := head t; hflag := hflag t;
   num_sectors := num_sectors t;
   sector_size_code := sector_size_code t; sector_size := sector_size t;
   smap := smap t; cmap := cmap t; hmap := hmap t; sflag := sflag t;
   data := data t; data_size := data_size t; loaded := true |}.

(** Modelled from the spec: [imd_load_track(f, &track, fill)]: the
status, the track left in [track], and the rest of the stream. *)
Definition imd_load_track (f : track_stream) (track : ImdTrackInfo)
  : Z * ImdTrackInfo * track_stream :=
match f with
| [] => (0, track, [])
| LoadTrack t :: rest => (1, mark_loaded t, rest)
| LoadError :: rest => (-1, track, rest)
end.

End libimd.

(* ================================================================== *)
(** ** imdchk.c                                                        *)
(* ================================================================== *)

Module imdchk.

(** Check bits, as listed by [print_usage]. *)
Definition CHECK_BIT_SEQ_CYL_DEC : Z := 0x0080.

(** The default error mask: every bit of the usage table that is not
    starred as a warning. *)
Definition usage_default_error_mask : Z := 0x067F.

(** The part of [main] that follows [imdchk_check_file]: the value
    returned by the program from the library status, the accumulated
    failure mask and the error mask in force.  The test on the masks
    is commented out in the source, so the assignment
    [final_exit_code = 1] is unconditional. *)
Definition main_exit (check_status check_failures_mask error_mask : Z) : Z :=
  if negb (check_status =? 0) then -1
  else
    let final_exit_code := 0 in
    let final_exit_code := 1 in
    final_exit_code.

(** The result line printed at the end of [main]. *)
Inductive result_line : Set := ResultFail | ResultOkMasked | ResultOkPassed.

Definition main_result_line (final_exit_code check_failures_mask : Z) : result_line :=
  if negb (final_exit_code =? 0) then ResultFail
  else if negb (check_failures_mask =? 0) then ResultOkMasked
  else ResultOkPassed.

End imdchk.

(* ================================================================== *)
(** ** imda.c                                                          *)
(* ================================================================== *)

Module imda.

(** The [switch (track_info.mode % 3)] of the track loop: the bit
    added to [modes_used] (bit 0 = 500k, bit 1 = 300k, bit 2 = 250k). *)
Definition mode_class_bit (mode : Z) : Z :=
  match mode mod 3 with
  | 0 => 1
  | 1 => 2
  | 2 => 4
  | _ => 0
  end.

Definition track_modes_used (modes_used mode : Z) : Z :=
  Z.lor modes_used (mode_class_bit mode).

(** The "Data Rate(s) Used" line of the summary, as the list of the
    rates printed, in kbps. *)
Definition data_rates_used (modes_used : Z) : list Z :=
  (if negb (Z.land modes_used 4 =? 0) then [250] else []) ++
  (if negb (Z.land modes_used 2 =? 0) then [300] else []) ++
  (if negb (Z.land modes_used 1 =? 0) then [500] else []).

End imda.

(* ================================================================== *)
(** ** imdcmp.c                                                        *)
(* ================================================================== *)

Module imdcmp.
Import libimd.

(** Exit codes. *)
Definition EXIT_MATCH : Z := 0.
Definition EXIT_DIFF : Z := 1.
Definition EXIT_DIFF_COMPRESS : Z := 2.
Definition EXIT_DIFF_INTERLEAVE : Z := 3.
Definition EXIT_USAGE_ERROR : Z := 4.
Definition EXIT_FILE_ERROR : Z := 5.

(** Difference flags. *)
Definition C_DIFF_NONE : Z := 0x000.
Definition C_DIFF_HEADER : Z := 0x001.
Definition C_DIFF_COMMENT : Z := 0x002.
Definition C_DIFF_TRACK_HDR : Z := 0x004.
Definition C_DIFF_TRACK_MAP : Z := 0x008.
Definition C_DIFF_TRACK_DATA : Z := 0x010.
Definition C_DIFF_TRACK_FLAG : Z := 0x020.
Definition C_DIFF_COMPRESS : Z := 0x040.
Definition C_DIFF_INTERLEAVE : Z := 0x080.
Definition C_DIFF_FILE_STRUCT : Z := 0x100.

Definition C_MASK_HARD_DIFF : Z :=
  Z.lor C_DIFF_COMMENT (Z.lor C_DIFF_TRACK_HDR (Z.lor C_DIFF_TRACK_MAP
    (Z.lor C_DIFF_TRACK_DATA (Z.lor C_DIFF_TRACK_FLAG C_DIFF_FILE_STRUCT)))).

Record Options : Type := mkOptions {
  ignore_compression : bool;
  strict_compression : bool;
  quiet : bool;
  warn_error : bool;
  detail : bool
}.

(** [memcmp(a, b, n) != 0] on two arrays. *)
Definition memcmp_differs (a b : list Z) (n : nat) : bool :=
  negb (bool_decide (take n a = take n b)).

(** The [data + i * sector_size] window of [size] bytes that [memcmp]
reads.  There is none when [data] is [NULL] or the window does not lie
within the buffer: the C code reads it all the same, with undefined
behaviour. *)
Definition sector_window (t : ImdTrackInfo) (i : nat) (size : nat) : option (list Z) :=
  match data t with
  | Some d =>
      if (i * Z.to_nat (sector_size t) + size <=? length d)%nat
      then Some (take size (drop (i * Z.to_nat (sector_size t)) d))
      else None
  | None => None
  end.

(** One turn of the sector loop: the bits added for sector [i]. *)
Definition compare_sector (opts : Options) (t1 t2 : ImdTrackInfo) (i : nat) : option Z :=
  let flag1 := default 0 (sflag t1 !! i) in
  let flag2 := default 0 (sflag t2 !! i) in
  let data_size := Z.to_nat (sector_size t1) in
  match sector_window t1 i data_size, sector_window t2 i data_size with
  | Some data1, Some data2 =>
      let data_bits :=
        if negb (bool_decide (data1 = data2)) then C_DIFF_TRACK_DATA else C_DIFF_NONE in
      let flag_bits :=
        if negb (flag1 =? flag2) then
          let compress_diff_only :=
            negb (eqb (IMD_SDR_IS_COMPRESSED flag1) (IMD_SDR_IS_COMPRESSED flag2)) &&
            eqb (IMD_SDR_HAS_DATA flag1) (IMD_SDR_HAS_DATA flag2) &&
            eqb (IMD_SDR_HAS_ERR flag1) (IMD_SDR_HAS_ERR flag2) &&
            eqb (IMD_SDR_HAS_DAM flag1) (IMD_SDR_HAS_DAM flag2) in
          if compress_diff_only && negb (ignore_compression opts) then C_DIFF_COMPRESS
          else if negb compress_diff_only then C_DIFF_TRACK_FLAG
          else C_DIFF_NONE
        else C_DIFF_NONE in
      Some (Z.lor data_bits flag_bits)
  | _, _ => None
  end.

(** The comparison of two loaded tracks: [current_track_diffs], when
every sector compared lies within the two buffers. *)
Definition compare_tracks (opts : Options) (t1 t2 : ImdTrackInfo) : option Z :=
  if negb (mode t1 =? mode t2) || negb (cyl t1 =? cyl t2) || negb (head t1 =? head t2)
     || negb (num_sectors t1 =? num_sectors t2)
     || negb (sector_size_code t1 =? sector_size_code t2)
     || negb (hflag t1 =? hflag t2)
  then Some C_DIFF_TRACK_HDR
  else
    let n := Z.to_nat (num_sectors t1) in
    let d := C_DIFF_NONE in
    let d := if negb (Z.land (hflag t1) IMD_HFLAG_CMAP_PRES =? 0)
                && memcmp_differs (cmap t1) (cmap t2) n
             then Z.lor d C_DIFF_TRACK_MAP else d in
    let d := if negb (Z.land (hflag t1) IMD_HFLAG_HMAP_PRES =? 0)
                && memcmp_differs (hmap t1) (hmap t2) n
             then Z.lor d C_DIFF_TRACK_MAP else d in
    let d := if memcmp_differs (smap t1) (smap t2) n
             then Z.lor d C_DIFF_TRACK_MAP else d in
    let d := if negb (bool_decide (imd_calculate_best_interleave t1
                                   = imd_calculate_best_interleave t2))
             then Z.lor d C_DIFF_INTERLEAVE else d in
    foldl (fun d i =>
             match d, compare_sector opts t1 t2 i with
             | Some d, Some bits => Some (Z.lor d bits)
             | _, _ => None
             end)
          (Some d) (seq 0 n).

(** Reports of the track loop that concern the streams themselves. *)
Inductive report : Set :=
| ErrorLoadingTrack (file : nat)
| WarningStructureMismatch (ended : nat).

(** The variables of [main] that the track loop reads and writes. *)
Record state : Type := mkState {
  fimd1 : track_stream;
  fimd2 : track_stream;
  track1 : ImdTrackInfo;
  track2 : ImdTrackInfo;
  eof1 : bool;
  eof2 : bool;
  diff_flags : Z;
  final_return_code : Z;
  track_count : Z;
  reports : list report
}.

Inductive flow : Type :=
| Continue (s : state)
| Break (s : state).

(** [if (!eof1) { load1_status = imd_load_track(fimd1, &track1, ...); ... }];
the boolean tells whether the [break] was taken. *)
Definition load1 (s : state) : state * bool :=
  if eof1 s then (s, false)
  else
    let '(status, t, rest) := imd_load_track (fimd1 s) (track1 s) in
    if status =? 0 then
      (mkState rest (fimd2 s) t (track2 s) true (eof2 s) (diff_flags s)
               (final_return_code s) (track_count s) (reports s), false)
    else if status <? 0 then
      (mkState rest (fimd2 s) t (track2 s) (eof1 s) (eof2 s) (diff_flags s)
               EXIT_FILE_ERROR (track_count s) (reports s ++ [ErrorLoadingTrack 1]), true)
    else
      (mkState rest (fimd2 s) t (track2 s) (eof1 s) (eof2 s) (diff_flags s)
               (final_return_code s) (track_count s) (reports s), false).

Definition load2 (s : state) : state * bool :=
  if eof2 s then (s, false)
  else
    let '(status, t, rest) := imd_load_track (fimd2 s) (track2 s) in
    if status =? 0 then
      (mkState (fimd1 s) rest (track1 s) t (eof1 s) true (diff_flags s)
               (final_return_code s) (track_count s) (reports s), false)
    else if status <? 0 then
      (mkState (fimd1 s) rest (track1 s) t (eof1 s) (eof2 s) (diff_flags s)
               EXIT_FILE_ERROR (track_count s) (reports s ++ [ErrorLoadingTrack 2]), true)
    else
      (mkState (fimd1 s) rest (track1 s) t (eof1 s) (eof2 s) (diff_flags s)
               (final_return_code s) (track_count s) (reports s), false).

(** The body of [while (!eof1 || !eof2)]; no result when the
comparison of the two tracks has none. *)
Definition loop_body (max_spt : Z) (opts : Options) (s : state) : option flow :=
  let '(s, stop) := load1 s in
  if stop then Some (Break s) else
  let '(s, stop) := load2 s in
  if stop then Some (Break s) else
  if negb (eqb (eof1 s) (eof2 s)) then
    Some (Break (mkState (fimd1 s) (fimd2 s) (track1 s) (track2 s) (eof1 s) (eof2 s)
                   (Z.lor (diff_flags s) C_DIFF_FILE_STRUCT) (final_return_code s)
                   (track_count s)
                   (reports s ++ [WarningStructureMismatch (if eof1 s then 1 else 2)%nat])))
  else if eof1 s && eof2 s then Some (Break s)
  else
    match compare_tracks opts (track1 s) (track2 s) with
    | None => None
    | Some current_track_diffs =>
        let s := mkState (fimd1 s) (fimd2 s) (zero_track max_spt) (zero_track max_spt)
                   (eof1 s) (eof2 s) (Z.lor (diff_flags s) current_track_diffs)
                   (final_return_code s) (track_count s + 1) (reports s) in
        if negb (Z.land (diff_flags s) C_MASK_HARD_DIFF =? 0)
        then Some (Break s) else Some (Continue s)
    end.

(** The loop itself; [None] when the fuel runs out first or a turn has
no result. *)
Fixpoint track_loop (fuel : nat) (max_spt : Z) (opts : Options) (s : state)
  : option state :=
  match fuel with
  | O => None
  | S fuel' =>
      if negb (eof1 s) || negb (eof2 s) then
        match loop_body max_spt opts s with
        | None => None
        | Some (Break s') => Some s'
        | Some (Continue s') => track_loop fuel' max_spt opts s'
        end
      else Some s
  end.

(** "Determine Final Exit Code". *)
Definition exit_code (opts : Options) (s : state) : Z :=
  if final_return_code s =? EXIT_FILE_ERROR then final_return_code s
  else if negb (Z.land (diff_flags s) C_MASK_HARD_DIFF =? 0) then EXIT_DIFF
  else
    let has_compress_diff := negb (Z.land (diff_flags s) C_DIFF_COMPRESS =? 0) in
    let has_interleave_diff := negb (Z.land (diff_flags s) C_DIFF_INTERLEAVE =? 0) in
    if has_compress_diff && strict_compression opts then EXIT_DIFF_COMPRESS
    else if (has_compress_diff || has_interleave_diff) && warn_error opts then
      if has_compress_diff && has_interleave_diff then EXIT_DIFF
      else if has_compress_diff then EXIT_DIFF_COMPRESS
      else EXIT_DIFF_INTERLEAVE
    else EXIT_MATCH.

(** The state in which [main] enters the track loop, both headers and
both comment blocks having been read. *)
Definition initial_state (max_spt : Z) (comment1 comment2 : list Z)
    (f1 f2 : track_stream) : state :=
  mkState f1 f2 (zero_track max_spt) (zero_track max_spt) false false
    (if negb (bool_decide (comment1 = comment2)) then Z.lor C_DIFF_NONE C_DIFF_COMMENT
     else C_DIFF_NONE)
    EXIT_MATCH 0 [].

(** [main] from the track loop on: the exit code, when the loop ends
within [fuel] turns and every comparison has a result. *)
Definition main_from_tracks (fuel : nat) (max_spt : Z) (opts : Options)
    (comment1 comment2 : list Z) (f1 f2 : track_stream) : option Z :=
  exit_code opts <$> track_loop fuel max_spt opts
                       (initial_state max_spt comment1 comment2 f1 f2).

(** Modelled from the spec: the sector size of a size code, by the
fixed lookup of the track record (0 for a code that has none). *)
Definition sector_size_of_code (code : Z) : Z :=
  if code <? 0 then 0
  else default 0 ([128; 256; 512; 1024; 2048; 4096; 8192] !! Z.to_nat code).

(** Modelled from the spec: a track as [imd_load_track] leaves it has
the sector size of its size code and, when it has sectors, a buffer of
[num_sectors * sector_size] bytes at least. *)
Definition holds_sectors (t : ImdTrackInfo) : Prop :=
  sector_size t = sector_size_of_code (sector_size_code t) /\
  (num_sectors t <= 0 \/
   exists d, data t = Some d /\
             num_sectors t * sector_size t <= Z.of_nat (length d)).

Definition stream_holds_sectors (r : load_result) : Prop :=
  match r with
  | LoadTrack t => holds_sectors t
  | LoadError => True
  end.

End imdcmp.

(* ================================================================== *)
(** ** imdu.c                                                          *)
(* ================================================================== *)

Module imdu.
Import libimd.

(** Mode translation lookup (index = IMD mode, value = rate code). *)
Definition MODE_TO_RATE_CODE : list Z := [5; 3; 2; 5; 3; 2].
(** Data rates corresponding to IMD modes. *)
Definition MODE_RATES : list Z := [500; 300; 250; 500; 300; 250].

(** The encoding name printed with a track: [mode > 2 ? "MFM" : "FM"]. *)
Inductive encoding : Set := FM | MFM.
Definition mode_encoding (mode : Z) : encoding := if 2 <? mode then MFM else FM.

(** *** The final sector flags (statistics block of [main])

    The block recomputes, for every sector of the track just handed
    to the writer, the status byte the write options lead to. *)

(** The bytes of sector [i] when the guard of the block holds:
    [data != NULL], [sector_size > 0] and
    [data_size >= (i + 1) * sector_size]. *)
Definition sector_bytes (t : ImdTrackInfo) (i : nat) : option (list Z) :=
  match data t with
  | Some d =>
      if (0 <? sector_size t) && ((Z.of_nat i + 1) * sector_size t <=? data_size t)
      then Some (take (Z.to_nat (sector_size t))
                      (drop (i * Z.to_nat (sector_size t)) d))
      else None
  | None => None
  end.

Definition is_uniform_sector (t : ImdTrackInfo) (i : nat) : bool :=
  match sector_bytes t i with
  | Some bytes => bool_decide (is_Some (imd_is_uniform bytes))
  | None => false
  end.

Definition target_base_type (wo : ImdWriteOpts) (original_flag : Z)
    (is_uniform : bool) : Z :=
  match wo_compression_mode wo with
  | IMD_COMPRESSION_FORCE_COMPRESS =>
      if is_uniform then IMD_SDR_COMPRESSED else IMD_SDR_NORMAL
  | IMD_COMPRESSION_FORCE_DECOMPRESS => IMD_SDR_NORMAL
  | IMD_COMPRESSION_AS_READ =>
      if IMD_SDR_IS_COMPRESSED original_flag
      then (if is_uniform then IMD_SDR_COMPRESSED else IMD_SDR_NORMAL)
      else IMD_SDR_NORMAL
  end.

Definition final_flag (wo : ImdWriteOpts) (original_flag : Z)
    (is_uniform : bool) : Z :=
  if negb (IMD_SDR_HAS_DATA original_flag) then IMD_SDR_UNAVAILABLE
  else
    let base := target_base_type wo original_flag is_uniform in
    let target_has_dam := IMD_SDR_HAS_DAM original_flag && negb (force_non_deleted wo) in
    let target_has_err := IMD_SDR_HAS_ERR original_flag && negb (force_non_bad wo) in
    if base =? IMD_SDR_NORMAL then
      if target_has_dam && target_has_err then IMD_SDR_DELETED_ERR
      else if target_has_err then IMD_SDR_NORMAL_ERR
      else if target_has_dam then IMD_SDR_NORMAL_DAM
      else IMD_SDR_NORMAL
    else
      if target_has_dam && target_has_err then IMD_SDR_COMPRESSED_DEL_ERR
      else if target_has_err then IMD_SDR_COMPRESSED_ERR
      else if target_has_dam then IMD_SDR_COMPRESSED_DAM
      else IMD_SDR_COMPRESSED.

(** [final_sflag[i]] for [i < num_sectors]. *)
Definition final_sflag (t : ImdTrackInfo) (wo : ImdWriteOpts) : list Z :=
  imap (fun i original_flag => final_flag wo original_flag (is_uniform_sector t i))
       (take (Z.to_nat (num_sectors t)) (sflag t)).

(** *** The [-T<rate>=<rate>] option of [parse_args] *)

(** The test shared by the two loops: does a rate code stand for the
    rate (in kbps) given on the command line? *)
Definition rate_code_is (rate_code rate : Z) : bool :=
  (rate_code =? 2) && (rate =? 250) ||
  (rate_code =? 3) && (rate =? 300) ||
  (rate_code =? 5) && (rate =? 500).

(** [(i < 3 && j < 3) || (i >= 3 && j >= 3)] *)
Definition same_encoding (i j : nat) : bool :=
  ((i <? 3) && (j <? 3) || (3 <=? i) && (3 <=? j))%nat.

(** The state the option leaves behind: the translation table, the
    two local mode indices (-1 when not found) and whether an entry
    was written. *)
Record translation : Type := mkTranslation {
  tr_tmode : list Z;
  mode_from : Z;
  mode_to : Z;
  applied : bool
}.

(** Inner loop over [j]: the first target mode of the requested rate
    on the same side as [i]. *)
Fixpoint find_mode_to (i : nat) (rate_to : Z) (js : list nat) : option nat :=
  match js with
  | [] => None
  | j :: js' =>
      if rate_code_is (nth j MODE_TO_RATE_CODE 0) rate_to && same_encoding i j
      then Some j
      else find_mode_to i rate_to js'
  end.

(** Outer loop over [i]: it stops at the first mode of the source
    rate, whether or not a target was found for it. *)
Fixpoint translate_from (tmode : list Z) (rate_from rate_to : Z) (ms : list nat)
    : translation :=
  match ms with
  | [] => mkTranslation tmode (-1) (-1) false
  | i :: ms' =>
      if rate_code_is (nth i MODE_TO_RATE_CODE 0) rate_from then
        match find_mode_to i rate_to (seq 0 LIBIMD_NUM_MODES) with
        | Some j => mkTranslation (<[i := Z.of_nat j mod 256]> tmode)
                                  (Z.of_nat i) (Z.of_nat j) true
        | None => mkTranslation tmode (Z.of_nat i) (-1) false
        end
      else translate_from tmode rate_from rate_to ms'
  end.

Definition parse_rate_translation (tmode : list Z) (rate_from rate_to : Z)
    : translation :=
  translate_from tmode rate_from rate_to (seq 0 LIBIMD_NUM_MODES).

(** The table [parse_args] starts from: [tmode[i] = i]. *)
Definition identity_tmode : list Z := Z.of_nat <$> seq 0 LIBIMD_NUM_MODES.

(** *** Options *)

Definition IMDU_FILL_BYTE_DEFAULT : Z := 0.

(** Operation modes. *)
Inductive OperationMode : Set :=
| OP_MODE_INFO
| OP_MODE_WRITE_IMD
| OP_MODE_WRITE_BIN
| OP_MODE_EXTRACT_COMMENT.

(** The fields of [Options] that the track loop reads, together with
the two file handles of [main] that depend on them only: [fmerge_open]
says that a merge file was given and opened, [fout_open] that the
output file was opened. *)
Record Options : Type := mkOptions {
  fmerge_open : bool;
  fout_open : bool;
  op_mode : OperationMode;
  compression_mode_opt : compression_mode;
  opt_force_non_bad : bool;
  opt_force_non_deleted : bool;
  fill_specified : bool;
  fill_byte : Z;
  interleave : Z;
  tmode : list Z;
  skip_track : list Z;
  add_missing_sectors_target : Z;
  add_missing_sectors_active : bool
}.

(** [opts.fill_specified ? opts.fill_byte : IMDU_FILL_BYTE_DEFAULT] *)
Definition fill_of (opts : Options) : Z :=
  if fill_specified opts then fill_byte opts else IMDU_FILL_BYTE_DEFAULT.

(** *** Adding missing sectors ([--add-missing]) *)

(** [if (id < 256) used_ids[id] = 1] *)
Definition mark_used (used_ids : list bool) (id : Z) : list bool :=
  if id <? 256 then <[Z.to_nat id := true]> used_ids else used_ids.

(** [while (cand < 256 && used_ids[cand]) cand++], [cand] being a
    [uint8_t].  After 256 increments the candidate is back where it
    started, so a search that has not stopped within 257 tests never
    stops: [None] stands for that endless loop. *)
Fixpoint find_unused (fuel : nat) (used_ids : list bool) (cand : Z) : option Z :=
  match fuel with
  | O => None
  | S fuel' =>
      if (cand <? 256) && default false (used_ids !! Z.to_nat cand)
      then find_unused fuel' used_ids ((cand + 1) mod 256)
      else Some cand
  end.

Definition set_added_sector (t : ImdTrackInfo) (idx id : Z) : ImdTrackInfo :=
  let i := Z.to_nat idx in
  {| mode := mode t; cyl := cyl t; head := head t; hflag := hflag t;
     num_sectors := num_sectors t;
     sector_size_code := sector_size_code t; sector_size := sector_size t;
     smap := <[i := id]> (smap t);
     cmap := if negb (Z.land (hflag t) IMD_HFLAG_CMAP_PRES =? 0)
             then <[i := cyl t]> (cmap t) else cmap t;
     hmap := if negb (Z.land (hflag t) IMD_HFLAG_HMAP_PRES =? 0)
             then <[i := head t]> (hmap t) else hmap t;
     sflag := <[i := IMD_SDR_UNAVAILABLE]> (sflag t);
     data := data t; data_size := data_size t; loaded := loaded t |}.

(** The [for (k = 0; k < num_to_add; ++k)] loop; the result is the
    track and the final [current_physical_idx_for_add]. *)
Fixpoint append_missing (max_spt : Z) (n : nat) (t : ImdTrackInfo)
    (used_ids : list bool) (cand idx : Z) : option (ImdTrackInfo * Z) :=
  match n with
  | O => Some (t, idx)
  | S n' =>
      if max_spt <=? idx then Some (t, idx)
      else
        match find_unused 257 used_ids cand with
        | None => None
        | Some c =>
            if 256 <=? c then Some (t, idx)
            else append_missing max_spt n' (set_added_sector t idx c)
                   (mark_used used_ids c) c ((idx + 1) mod 256)
        end
  end.

Definition set_data (t : ImdTrackInfo) (d : option (list Z)) (size : Z) : ImdTrackInfo :=
  {| mode := mode t; cyl := cyl t; head := head t; hflag := hflag t;
     num_sectors := num_sectors t;
     sector_size_code := sector_size_code t; sector_size := sector_size t;
     smap := smap t; cmap := cmap t; hmap := hmap t; sflag := sflag t;
     data := d; data_size := size; loaded := loaded t |}.

Definition set_num_sectors (t : ImdTrackInfo) (n : Z) : ImdTrackInfo :=
  {| mode := mode t; cyl := cyl t; head := head t; hflag := hflag t;
     num_sectors := n;
     sector_size_code := sector_size_code t; sector_size := sector_size t;
     smap := smap t; cmap := cmap t; hmap := hmap t; sflag := sflag t;
     data := data t; data_size := data_size t; loaded := loaded t |}.

(** The whole block.  [realloc_ok] tells whether [realloc] succeeds;
    [max_spt] is [LIBIMD_MAX_SECTORS_PER_TRACK]. *)
Definition add_missing_sectors (max_spt : Z) (opts : Options) (realloc_ok : bool)
    (t : ImdTrackInfo) : option ImdTrackInfo :=
  let target := add_missing_sectors_target opts mod 256 in
  if add_missing_sectors_active opts && (0 <? sector_size t)
     && (num_sectors t <? target) then
    let target_total_spt := if max_spt <? target then max_spt mod 256 else target in
    let num_to_add :=
      if num_sectors t <? target_total_spt
      then (target_total_spt - num_sectors t) mod 256 else 0 in
    if 0 <? num_to_add then
      let old_data_size := data_size t in
      let new_required_data_size := target_total_spt * sector_size t in
      let grow := (old_data_size <? new_required_data_size)
                  || (bool_decide (data t = None) && (0 <? new_required_data_size)) in
      let '(new_data, num_to_add) :=
        if grow then
          if realloc_ok
          then (Some (resize (Z.to_nat new_required_data_size) (fill_of opts)
                             (default [] (data t))), num_to_add)
          else (data t, 0)
        else (data t, num_to_add) in
      let t1 := set_data t new_data new_required_data_size in
      if (0 <? num_to_add) && bool_decide (new_data <> None) then
        let used_ids :=
          foldl mark_used (replicate 256 false)
                (take (Z.to_nat (num_sectors t)) (smap t)) in
        match append_missing max_spt (Z.to_nat num_to_add) t1 used_ids 0 (num_sectors t) with
        | Some (t2, idx) => Some (set_num_sectors t2 idx)
        | None => None
        end
      else Some t1
    else Some t
  else Some t.

(** [arr'] is [arr] with the cells [lo .. hi-1] rewritten to values
    satisfying [P]; the cells below [lo] are untouched and the array
    keeps its size. *)
Definition filled_from (lo hi : nat) (P : Z -> Prop) (arr arr' : list Z) : Prop :=
  length arr' = length arr /\
  take lo arr' = take lo arr /\
  forall i, (lo <= i < hi)%nat -> exists x, arr' !! i = Some x /\ P x.

(** A track as [imd_load_track] leaves it: arrays of
    [LIBIMD_MAX_SECTORS_PER_TRACK] cells, a sector count that fits
    them and a byte, and byte-sized sector IDs. *)
Definition track_ok (max_spt : Z) (t : ImdTrackInfo) : bool :=
  (length (smap t) =? Z.to_nat max_spt)%nat &&
  (length (cmap t) =? Z.to_nat max_spt)%nat &&
  (length (hmap t) =? Z.to_nat max_spt)%nat &&
  (length (sflag t) =? Z.to_nat max_spt)%nat &&
  (0 <=? num_sectors t) && (num_sectors t <=? max_spt) && (num_sectors t <=? 255) &&
  forallb (fun id => (0 <=? id) && (id <? 256)) (smap t).

(** The two tracks differ at most in their arrays and sector count. *)
Definition same_geometry (t t' : ImdTrackInfo) : Prop :=
  mode t' = mode t /\ cyl t' = cyl t /\ head t' = head t /\ hflag t' = hflag t /\
  sector_size_code t' = sector_size_code t /\ sector_size t' = sector_size t /\
  loaded t' = loaded t.

(** *** The track loop of [main] (with the two-stream merge) *)

(** [write_opts], as [main] fills it from the options. *)
Definition write_opts_of_options (opts : Options) : ImdWriteOpts :=
  {| wo_compression_mode := compression_mode_opt opts;
     force_non_bad := opt_force_non_bad opts;
     force_non_deleted := opt_force_non_deleted opts;
     wo_tmode := tmode opts;
     interleave_factor := interleave opts |}.

(** The global [stats] array. *)
Record Stats : Type := mkStats {
  st_total : Z;
  st_comp : Z;
  st_dam : Z;
  st_bad : Z;
  st_unavail : Z
}.

(** "Calculate stats based on final_sflag", one sector. *)
Definition count_sector (st : Stats) (flag : Z) : Stats :=
  if IMD_SDR_HAS_DATA flag then
    mkStats (st_total st + 1)
            (if IMD_SDR_IS_COMPRESSED flag then st_comp st + 1 else st_comp st)
            (if IMD_SDR_HAS_DAM flag then st_dam st + 1 else st_dam st)
            (if IMD_SDR_HAS_ERR flag then st_bad st + 1 else st_bad st)
            (st_unavail st)
  else
    mkStats (st_total st + 1) (st_comp st) (st_dam st) (st_bad st) (st_unavail st + 1).

Definition update_stats (st : Stats) (t : ImdTrackInfo) (wo : ImdWriteOpts) : Stats :=
  foldl count_sector st (final_sflag t wo).

Inductive source : Set := Primary | Merge.

(** What the loop does with the tracks, in order: a merge track
dropped because the primary file has the same cylinder and head, a
track excluded by [-X], a track counted (after [--add-missing]), a
track handed to and accepted by the writer. *)
Inductive event : Type :=
| Discarded (t : ImdTrackInfo)
| Skipped (src : source) (t : ImdTrackInfo)
| Processed (src : source) (t : ImdTrackInfo)
| Written (t : ImdTrackInfo).

(** The variables of [main] that the track loop reads and writes. *)
Record state : Type := mkState {
  fimd : track_stream;
  fmerge : track_stream;
  primary_track : ImdTrackInfo;
  merge_track : ImdTrackInfo;
  primary_eof : bool;
  merge_eof : bool;
  track_count : Z;
  stats : Stats;
  trace : list event
}.

(** How a turn of the loop ends: at the closing brace (or [continue]),
at [break], or at [goto cleanup]. *)
Inductive flow : Type :=
| Continue (s : state)
| Break (s : state)
| Cleanup (s : state).

Definition set_loaded (t : ImdTrackInfo) (b : bool) : ImdTrackInfo :=
  {| mode := mode t; cyl := cyl t; head := head t; hflag := hflag t;
     num_sectors := num_sectors t;
     sector_size_code := sector_size_code t; sector_size := sector_size t;
     smap := smap t; cmap := cmap t; hmap := hmap t; sflag := sflag t;
     data := data t; data_size := data_size t; loaded := b |}.

(** The order the merge compares the two loaded tracks with:
[a.cyl < b.cyl || (a.cyl == b.cyl && a.head < b.head)]. *)
Definition track_before (a b : ImdTrackInfo) : bool :=
  (cyl a <? cyl b) || ((cyl a =? cyl b) && (head a <? head b)).

Section TrackLoop.

(** [LIBIMD_MAX_SECTORS_PER_TRACK], [IMD_SIDE_0_MASK] and
[IMD_SIDE_1_MASK] are constants of [libimd.h]; [realloc_ok] and
[write_ok] tell, for a track, whether [realloc] and the library's
track writer succeed on it. *)
Variable max_spt : Z.
Variables IMD_SIDE_0_MASK IMD_SIDE_1_MASK : Z.
Variable realloc_ok : ImdTrackInfo -> bool.
Variable write_ok : ImdTrackInfo -> bool.
Variable opts : Options.

(** [if (!primary_eof && !primary_track.loaded) { ... }]; [inr] is the
jump to [cleanup]. *)
Definition load_primary (s : state) : state + state :=
  if negb (primary_eof s) && negb (loaded (primary_track s)) then
    let '(load_status, t, rest) := imd_load_track (fimd s) (primary_track s) in
    if load_status =? 0 then
      inl (mkState rest (fmerge s) (set_loaded t false) (merge_track s) true
                   (merge_eof s) (track_count s) (stats s) (trace s))
    else if load_status <? 0 then
      inr (mkState rest (fmerge s) t (merge_track s) (primary_eof s)
                   (merge_eof s) (track_count s) (stats s) (trace s))
    else
      inl (mkState rest (fmerge s) t (merge_track s) (primary_eof s)
                   (merge_eof s) (track_count s) (stats s) (trace s))
  else inl s.

(** [if (fmerge && !merge_eof && !merge_track.loaded) { ... }] *)
Definition load_merge (s : state) : state + state :=
  if fmerge_open opts && negb (merge_eof s) && negb (loaded (merge_track s)) then
    let '(load_status, t, rest) := imd_load_track (fmerge s) (merge_track s) in
    if load_status =? 0 then
      inl (mkState (fimd s) rest (primary_track s) (set_loaded t false) (primary_eof s)
                   true (track_count s) (stats s) (trace s))
    else if load_status <? 0 then
      inr (mkState (fimd s) rest (primary_track s) t (primary_eof s)
                   (merge_eof s) (track_count s) (stats s) (trace s))
    else
      inl (mkState (fimd s) rest (primary_track s) t (primary_eof s)
                   (merge_eof s) (track_count s) (stats s) (trace s))
  else inl s.

(** The choice of [track_to_process]; [None] is the [break] taken when
neither track is loaded. *)
Definition select_track (s : state) : option (source * state) :=
  let p := primary_track s in
  let m := merge_track s in
  if loaded p && loaded m then
    if track_before p m then Some (Primary, s)
    else if track_before m p then Some (Merge, s)
    else
      Some (Primary,
            mkState (fimd s) (fmerge s) p (zero_track max_spt) (primary_eof s)
                    (merge_eof s) (track_count s) (stats s) (trace s ++ [Discarded m]))
  else if loaded p then Some (Primary, s)
  else if loaded m then Some (Merge, s)
  else None.

Definition track_of (src : source) (s : state) : ImdTrackInfo :=
  match src with
  | Primary => primary_track s
  | Merge => merge_track s
  end.

(** [imd_free_track_data(track_to_process)] and the [memset] that
follows, with the other variables as given. *)
Definition release (src : source) (s : state) (n : Z) (st : Stats)
    (tr : list event) : state :=
  match src with
  | Primary =>
      mkState (fimd s) (fmerge s) (zero_track max_spt) (merge_track s)
              (primary_eof s) (merge_eof s) n st tr
  | Merge =>
      mkState (fimd s) (fmerge s) (primary_track s) (zero_track max_spt)
              (primary_eof s) (merge_eof s) n st tr
  end.

(** The [if (track_to_process) { ... }] block, [track_count] being a
[uint32_t].  [None] stands for an endless search in the
[--add-missing] block. *)
Definition process_track (src : source) (s : state) : option flow :=
  let t := track_of src s in
  let skip_mask := default 0 (skip_track opts !! Z.to_nat (cyl t)) in
  let side_bit := if head t =? 0 then IMD_SIDE_0_MASK else IMD_SIDE_1_MASK in
  if negb (Z.land skip_mask side_bit =? 0) then
    Some (Continue (release src s (track_count s) (stats s) (trace s ++ [Skipped src t])))
  else
    match add_missing_sectors max_spt opts (realloc_ok t) t with
    | None => None
    | Some t' =>
        let n := (track_count s + 1) mod 2 ^ 32 in
        let tr := trace s ++ [Processed src t'] in
        let writes :=
          fout_open opts &&
          match op_mode opts with
          | OP_MODE_WRITE_BIN | OP_MODE_WRITE_IMD => true
          | _ => false
          end in
        if writes && negb (write_ok t') then
          Some (Cleanup (mkState (fimd s) (fmerge s)
                           (match src with Primary => t' | Merge => primary_track s end)
                           (match src with Primary => merge_track s | Merge => t' end)
                           (primary_eof s) (merge_eof s) n (stats s) tr))
        else
          let tr := if writes then tr ++ [Written t'] else tr in
          Some (Continue (release src s n
                            (update_stats (stats s) t' (write_opts_of_options opts)) tr))
    end.

(** The body of [while (!primary_eof || !merge_eof)]. *)
Definition loop_body (s : state) : option flow :=
  match load_primary s with
  | inr s => Some (Cleanup s)
  | inl s =>
      match load_merge s with
      | inr s => Some (Cleanup s)
      | inl s =>
          match select_track s with
          | None => Some (Break s)
          | Some (src, s) => process_track src s
          end
      end
  end.

(** The loop; the boolean is [result == EXIT_SUCCESS].  [None]: the
fuel ran out, or a turn never ends. *)
Fixpoint track_loop (fuel : nat) (s : state) : option (state * bool) :=
  match fuel with
  | O => None
  | S fuel' =>
      if negb (primary_eof s) || negb (merge_eof s) then
        match loop_body s with
        | None => None
        | Some (Continue s') => track_loop fuel' s'
        | Some (Break s') => Some (s', true)
        | Some (Cleanup s') => Some (s', false)
        end
      else Some (s, true)
  end.

(** The state in which [main] enters the loop. *)
Definition initial_state (primary merge : track_stream) : state :=
  mkState primary merge (zero_track max_spt) (zero_track max_spt) false false 0
          (mkStats 0 0 0 0 0) [].

End TrackLoop.

(** The (cylinder, head) pairs of the tracks the loop took up, with the
file each came from, in order. *)
Definition consumed (tr : list event) : list (source * (Z * Z)) :=
  omap (fun e => match e with
                 | Skipped src t | Processed src t => Some (src, (cyl t, head t))
                 | _ => None
                 end) tr.

(** The tracks handed to the writer, in order. *)
Definition written (tr : list event) : list ImdTrackInfo :=
  omap (fun e => match e with Written t => Some t | _ => None end) tr.

(** The two-way merge on lists: of the two tracks at the front, the one
with the lower (cylinder, head) goes first; on a tie the primary track
goes and the merge track is dropped. *)
Fixpoint merge_plan (ps : list ImdTrackInfo) : list ImdTrackInfo -> list (source * ImdTrackInfo) :=
  fix merge_plan_inner (ms : list ImdTrackInfo) : list (source * ImdTrackInfo) :=
    match ps, ms with
    | [], _ => (fun m => (Merge, m)) <$> ms
    | _, [] => (fun p => (Primary, p)) <$> ps
    | p :: ps', m :: ms' =>
        if track_before p m then (Primary, p) :: merge_plan ps' ms
        else if track_before m p then (Merge, m) :: merge_plan_inner ms'
        else (Primary, p) :: merge_plan ps' ms'
    end.

Definition key_of (st : source * ImdTrackInfo) : source * (Z * Z) :=
  (st.1, (cyl st.2, head st.2)).

(** Strictly ascending (cylinder, head) pairs. *)
Definition key_lt (a b : Z * Z) : Prop :=
  a.1 < b.1 \/ (a.1 = b.1 /\ a.2 < b.2).

(** What the block guarantees about the track [t'] it leaves, given the
track [t] it found and the target sector count (as a byte). *)
Definition add_missing_post (max_spt target : Z) (t t' : ImdTrackInfo) : Prop :=
  num_sectors t <= num_sectors t' <= max_spt /\
  num_sectors t' <= Z.max (num_sectors t) target /\
  same_geometry t t' /\
  (NoDup (take (Z.to_nat (num_sectors t)) (smap t)) ->
   NoDup (take (Z.to_nat (num_sectors t')) (smap t'))) /\
  filled_from (Z.to_nat (num_sectors t)) (Z.to_nat (num_sectors t'))
    (fun id => 0 <= id < 256 /\ id ∉ take (Z.to_nat (num_sectors t)) (smap t))
    (smap t) (smap t') /\
  filled_from (Z.to_nat (num_sectors t)) (Z.to_nat (num_sectors t'))
    (fun f => f = IMD_SDR_UNAVAILABLE) (sflag t) (sflag t') /\
  filled_from (Z.to_nat (num_sectors t)) (Z.to_nat (num_sectors t'))
    (fun x => Z.land (hflag t) IMD_HFLAG_CMAP_PRES <> 0 -> x = cyl t)
    (cmap t) (cmap t') /\
  filled_from (Z.to_nat (num_sectors t)) (Z.to_nat (num_sectors t'))
    (fun x => Z.land (hflag t) IMD_HFLAG_HMAP_PRES <> 0 -> x = head t)
    (hmap t) (hmap t').

(** The tracks one input still has to give: the one loaded, if any,
then those left in the stream. *)
Definition pending (t : ImdTrackInfo) (rest : list ImdTrackInfo) : list ImdTrackInfo :=
  if loaded t then t :: (mark_loaded <$> rest) else mark_loaded <$> rest.

Definition track_key (t : ImdTrackInfo) : Z * Z := (cyl t, head t).

End imdu.

(* ================================================================== *)
(** ** Sample tracks and options                                       *)
(* ================================================================== *)

Module samples.
Import libimd imdu.

(** A one-sector track of 128 identical bytes, read with flag [flag]. *)
Definition uniform_track (flag : Z) : ImdTrackInfo :=
  {| mode := 3; cyl := 0; head := 0; hflag := 0; num_sectors := 1;
     sector_size_code := 0; sector_size := 128;
     smap := [1]; cmap := [0]; hmap := [0]; sflag := [flag];
     data := Some (replicate 128 0xE5); data_size := 128; loaded := true |}.

Definition write_opts_of (cm : compression_mode) : ImdWriteOpts :=
  mkWriteOpts cm false false [0; 1; 2; 3; 4; 5] 0.

(** Three sectors (IDs 1, 0, 3) of two bytes in arrays of eight
    cells, with a cylinder map. *)
Definition short_track : ImdTrackInfo :=
  {| mode := 3; cyl := 5; head := 1; hflag := 0x80; num_sectors := 3;
     sector_size_code := 0; sector_size := 2;
     smap := [1; 0; 3; 0; 0; 0; 0; 0]; cmap := [5; 5; 5; 0; 0; 0; 0; 0];
     hmap := [0; 0; 0; 0; 0; 0; 0; 0]; sflag := [1; 1; 1; 0; 0; 0; 0; 0];
     data := Some [1; 2; 3; 4; 5; 6]; data_size := 6; loaded := true |}.

(** [--add-missing=<target>] with [-F=E5], no other option. *)
Definition add_missing_opts (target : Z) : Options :=
  {| fmerge_open := false; fout_open := true; op_mode := OP_MODE_WRITE_IMD;
     compression_mode_opt := IMD_COMPRESSION_AS_READ;
     opt_force_non_bad := false; opt_force_non_deleted := false;
     fill_specified := true; fill_byte := 0xE5; interleave := 0;
     tmode := identity_tmode; skip_track := replicate 256 0;
     add_missing_sectors_target := target; add_missing_sectors_active := true |}.

(** A one-sector track at cylinder [c], head [h], in arrays of two
cells, its sector numbered [id]. *)
Definition track_at (c h id : Z) : ImdTrackInfo :=
  {| mode := 3; cyl := c; head := h; hflag := 0; num_sectors := 1;
     sector_size_code := 0; sector_size := 2;
     smap := [id; 0]; cmap := [0; 0]; hmap := [0; 0]; sflag := [1; 0];
     data := Some [1; 2]; data_size := 2; loaded := false |}.

(** A merge of two files into an IMD file, no other option. *)
Definition merge_opts : Options :=
  {| fmerge_open := true; fout_open := true; op_mode := OP_MODE_WRITE_IMD;
     compression_mode_opt := IMD_COMPRESSION_AS_READ;
     opt_force_non_bad := false; opt_force_non_deleted := false;
     fill_specified := false; fill_byte := 0; interleave := 0;
     tmode := identity_tmode; skip_track := replicate 256 0;
     add_missing_sectors_target := 0; add_missing_sectors_active := false |}.

(** The primary file numbers its sectors 1, the merge file 9. *)
Definition primary_tracks : list ImdTrackInfo :=
  [track_at 0 0 1; track_at 0 1 1; track_at 2 0 1].
Definition merge_tracks : list ImdTrackInfo :=
  [track_at 0 0 9; track_at 1 0 9; track_at 3 0 9].

Definition always (_ : ImdTrackInfo) : bool := true.

(** A primary file whose second track goes back to cylinder 0, and a
merge file with one track. *)
Definition unordered_primary : list ImdTrackInfo := [track_at 1 0 1; track_at 0 0 1].
Definition single_merge : list ImdTrackInfo := [track_at 2 0 9].

(** Plain comparison, no option given. *)
Definition compare_opts : imdcmp.Options :=
  imdcmp.mkOptions false false false false false.

End samples.

(* ================================================================== *)
(** ** The C library, as far as the tools use it                       *)
(* ================================================================== *)

Module libc.

(** A C string is modelled by the list of the codes of its characters,
the terminating NUL left out; [cstr] turns a literal into one. *)
Fixpoint cstr (s : string) : list Z :=
  match s with
  | EmptyString => []
  | String c s' => Z.of_N (Ascii.N_of_ascii c) :: cstr s'
  end.

(** The code of a character constant, written as a one-letter literal. *)
Definition chr (s : string) : Z := default 0 (head (cstr s)).

Arguments cstr s%_string.
Arguments chr s%_string.

(** [s[i]]: the character at [i], the NUL at the end of the string. *)
Definition char_at (s : list Z) (i : nat) : Z := default 0 (s !! i).

(** The character classes of [<ctype.h>] in the C locale. *)
Definition isupper (c : Z) : bool := (65 <=? c) && (c <=? 90).
Definition islower (c : Z) : bool := (97 <=? c) && (c <=? 122).
Definition isalpha (c : Z) : bool := isupper c || islower c.
Definition isdigit (c : Z) : bool := (48 <=? c) && (c <=? 57).
Definition isxdigit (c : Z) : bool :=
  isdigit c || ((65 <=? c) && (c <=? 70)) || ((97 <=? c) && (c <=? 102)).
Definition isspace (c : Z) : bool := (c =? 32) || ((9 <=? c) && (c <=? 13)).
Definition isprint (c : Z) : bool := (32 <=? c) && (c <=? 126).
Definition toupper (c : Z) : Z := if islower c then c - 32 else c.

End libc.

(* ================================================================== *)
(** ** imdu.c: notions used to state properties of whole runs          *)
(* ================================================================== *)

Module imdu_runs.
Import libimd imdu.

(** The number of sectors of a list of flags that carry no data. *)
Definition unavailable_count (flags : list Z) : Z :=
  Z.of_nat (length (filter (fun f => IMD_SDR_HAS_DATA f = false) flags)).

(** The [-X] test of the track loop, [skip_mask & side_bit], on the
track chosen for processing. *)
Definition excluded (IMD_SIDE_0_MASK IMD_SIDE_1_MASK : Z) (opts : Options)
    (t : ImdTrackInfo) : bool :=
  let skip_mask := default 0 (skip_track opts !! Z.to_nat (cyl t)) in
  let side_bit := if head t =? 0 then IMD_SIDE_0_MASK else IMD_SIDE_1_MASK in
  negb (Z.land skip_mask side_bit =? 0).

(** [main] has an output file open and is in one of the two modes in
which the loop hands tracks to a writer. *)
Definition writing (opts : Options) : bool :=
  fout_open opts &&
  match op_mode opts with
  | OP_MODE_WRITE_BIN | OP_MODE_WRITE_IMD => true
  | _ => false
  end.

(** The tracks counted by [track_count++], in order. *)
Definition processed (tr : list event) : list ImdTrackInfo :=
  omap (fun e => match e with Processed _ t => Some t | _ => None end) tr.

(** A result of [imd_load_track] that leaves a well-formed track, or a
read failure. *)
Definition stream_ok (max_spt : Z) (r : load_result) : Prop :=
  match r with
  | LoadTrack t => track_ok max_spt t = true
  | LoadError => True
  end.

(** The tracks a stream gives before its first read failure. *)
Fixpoint tracks_before_error (f : track_stream) : list ImdTrackInfo :=
  match f with
  | LoadTrack t :: rest => t :: tracks_before_error rest
  | _ => []
  end.

(** The stream has no read failure. *)
Definition clean (f : track_stream) : bool :=
  forallb (fun r => match r with LoadTrack _ => true | LoadError => false end) f.

Section Plan.

Variable max_spt : Z.
Variables IMD_SIDE_0_MASK IMD_SIDE_1_MASK : Z.
Variable realloc_ok : ImdTrackInfo -> bool.
Variable write_ok : ImdTrackInfo -> bool.
Variable opts : Options.

(** What becomes of a track the loop takes up: nothing when [-X]
excludes it, else the track the [--add-missing] block leaves, which is
counted. *)
Definition counted_track (t : ImdTrackInfo) : option ImdTrackInfo :=
  if excluded IMD_SIDE_0_MASK IMD_SIDE_1_MASK opts t then None
  else add_missing_sectors max_spt opts (realloc_ok t) t.

(** The counted track, when the loop is writing and the writer accepts
it. *)
Definition written_track (t : ImdTrackInfo) : option ImdTrackInfo :=
  match counted_track t with
  | Some t' => if writing opts && write_ok t' then Some t' else None
  | None => None
  end.

(** The loop is writing and the writer refuses the counted track. *)
Definition write_fails (t : ImdTrackInfo) : bool :=
  match counted_track t with
  | Some t' => writing opts && negb (write_ok t')
  | None => false
  end.

(** The tracks each input still has to give at the top of a turn, up
to its first read failure; the merge file gives none when it is not
open. *)
Definition pending_primary (s : state) : list ImdTrackInfo :=
  pending (primary_track s) (tracks_before_error (fimd s)).

Definition pending_merge (s : state) : list ImdTrackInfo :=
  if fmerge_open opts then pending (merge_track s) (tracks_before_error (fmerge s))
  else [].

(** The shape of the loop state at the top of a turn. *)
Record loop_inv (s : state) : Prop := mkInv {
  inv_fimd : Forall (stream_ok max_spt) (fimd s);
  inv_fmerge : Forall (stream_ok max_spt) (fmerge s);
  inv_primary_ok : loaded (primary_track s) = true ->
                   track_ok max_spt (primary_track s) = true;
  inv_merge_ok : loaded (merge_track s) = true ->
                 track_ok max_spt (merge_track s) = true;
  inv_primary_eof : primary_eof s = true ->
                    fimd s = [] /\ loaded (primary_track s) = false;
  inv_merge_eof : merge_eof s = true ->
                  fmerge s = [] /\ loaded (merge_track s) = false;
  inv_no_merge : fmerge_open opts = false -> loaded (merge_track s) = false;
  inv_count : 0 <= track_count s < 2 ^ 32
}.

End Plan.

End imdu_runs.

(* ================================================================== *)
(** ** imdu.c: the exclusion lists of [-X]                             *)
(* ================================================================== *)

Module imdu_args.
Import libc libimd imdu.

Definition MAX_TRACKS : Z := 256.

(** The number of white space characters at the start of a string. *)
Fixpoint leading_spaces (s : list Z) : nat :=
  match s with
  | c :: s' => if isspace c then S (leading_spaces s') else 0%nat
  | [] => 0%nat
  end.

Section StrToUL.

(** The largest [unsigned long] of the platform. *)
Variable ULONG_MAX : Z.

(** The value of a run of decimal digits after [acc], and the number
of characters of the run. *)
Fixpoint digits (acc : Z) (s : list Z) : Z * nat :=
  match s with
  | c :: s' =>
      if isdigit c then
        let '(v, n) := digits (acc * 10 + (c - 48)) s' in (v, S n)
      else (acc, 0%nat)
  | [] => (acc, 0%nat)
  end.

(** Modelled from the spec: [strtoul(nptr, &endptr, 10)] of the C
library skips white space, takes an optional sign and the longest run
of decimal digits.  It returns the value of the run, its negation as an
[unsigned long] after a minus sign, or [ULONG_MAX] when the value does
not fit; [endptr] is left at [nptr] when there is no digit.  The model
returns the value and the distance from [nptr] to [endptr]. *)
Definition strtoul (nptr : list Z) : Z * nat :=
  let spaces := leading_spaces nptr in
  let s := drop spaces nptr in
  let '(negative, signs) :=
    if char_at s 0 =? chr "-" then (true, 1%nat)
    else if char_at s 0 =? chr "+" then (false, 1%nat)
    else (false, 0%nat) in
  let '(v, n) := digits 0 (drop signs s) in
  if (n =? 0)%nat then (0, 0%nat)
  else
    (if ULONG_MAX <? v then ULONG_MAX
     else if negative then (- v) mod (ULONG_MAX + 1) else v,
     (spaces + signs + n)%nat).

End StrToUL.

Inductive exclusion_warning : Set :=
| InvalidStart
| InvalidEnd
| EndBeforeStart
| ExceedsMaximum
| UnexpectedCharacter.

(** [opts] with another exclusion map. *)
Definition set_skip_track (opts : Options) (skip : list Z) : Options :=
  {| fmerge_open := fmerge_open opts; fout_open := fout_open opts;
     op_mode := op_mode opts; compression_mode_opt := compression_mode_opt opts;
     opt_force_non_bad := opt_force_non_bad opts;
     opt_force_non_deleted := opt_force_non_deleted opts;
     fill_specified := fill_specified opts; fill_byte := fill_byte opts;
     interleave := interleave opts; tmode := tmode opts; skip_track := skip;
     add_missing_sectors_target := add_missing_sectors_target opts;
     add_missing_sectors_active := add_missing_sectors_active opts |}.

(** [for (t = start_track; t <= end_track; ++t) skip_track[t] |= side_mask],
with [n] tracks left to mark from [t] on; no result when a track lies
outside the map. *)
Fixpoint mark_tracks (n : nat) (t side_mask : Z) (skip : list Z) : option (list Z) :=
  match n with
  | O => Some skip
  | S n' =>
      match skip !! Z.to_nat t with
      | Some old =>
          mark_tracks n' (t + 1) side_mask (<[Z.to_nat t := Z.lor old side_mask]> skip)
      | None => None
      end
  end.

Section ParseExclusion.

(** [strtoul] in base 10: the value and the number of characters
taken. *)
Variable strtoul : list Z -> Z * nat.

(** [parse_num(&ptr, &val, 10)]: the value and the advanced pointer
when it returns 1, nothing when it returns 0. *)
Definition parse_num (ptr : list Z) : option (Z * list Z) :=
  if char_at ptr 0 =? 0 then None
  else
    let '(val, taken) := strtoul ptr in
    if (taken =? 0)%nat then None else Some (val, drop taken ptr).

(** [parse_exclusion(value, side_mask, opts)], with [ptr] the rest of
[value]: the options at the return and the warning given, if any.  No
result when the fuel runs out or a track outside the map would be
marked. *)
Fixpoint parse_exclusion (fuel : nat) (ptr : list Z) (side_mask : Z) (opts : Options)
    : option (Options * option exclusion_warning) :=
  match fuel with
  | O => None
  | S fuel' =>
      if char_at ptr 0 =? 0 then Some (opts, None)
      else
        match parse_num ptr with
        | None => Some (opts, Some InvalidStart)
        | Some (start_track, ptr) =>
            let range :=
              if char_at ptr 0 =? chr "-" then
                match parse_num (drop 1 ptr) with
                | None => inl InvalidEnd
                | Some (end_track, ptr) =>
                    if end_track <? start_track then inl EndBeforeStart
                    else inr (end_track, ptr)
                end
              else inr (start_track, ptr) in
            match range with
            | inl w => Some (opts, Some w)
            | inr (end_track, ptr) =>
                if (MAX_TRACKS <=? start_track) || (MAX_TRACKS <=? end_track)
                then Some (opts, Some ExceedsMaximum)
                else
                  match mark_tracks (Z.to_nat (end_track - start_track + 1)) start_track
                          side_mask (skip_track opts) with
                  | None => None
                  | Some skip =>
                      let opts := set_skip_track opts skip in
                      if char_at ptr 0 =? chr "," then
                        parse_exclusion fuel' (drop 1 ptr) side_mask opts
                      else if negb (char_at ptr 0 =? 0) then
                        Some (opts, Some UnexpectedCharacter)
                      else parse_exclusion fuel' ptr side_mask opts
                  end
            end
        end
  end.

End ParseExclusion.

(** The value of a string of decimal digits. *)
Definition decimal (ds : list Z) : Z := foldl (fun acc c => acc * 10 + (c - 48)) 0 ds.

(** The exclusion map with [side_mask] added to the tracks [lo] to
[hi]. *)
Definition marked (lo hi side_mask : Z) (skip : list Z) : list Z :=
  imap (fun i old =>
          if (lo <=? Z.of_nat i) && (Z.of_nat i <=? hi) then Z.lor old side_mask else old)
       skip.

(** An item of an exclusion list: a track number, or a range of two
numbers, in decimal digits. *)
Definition item : Type := list Z * option (list Z).

Definition item_lo (it : item) : Z := decimal it.1.
Definition item_hi (it : item) : Z := decimal (default it.1 it.2).

Definition item_text (it : item) : list Z :=
  match it.2 with
  | None => it.1
  | Some b => it.1 ++ chr "-" :: b
  end.

(** The items separated by commas. *)
Fixpoint list_text (its : list item) : list Z :=
  match its with
  | [] => []
  | [it] => item_text it
  | it :: its' => item_text it ++ chr "," :: list_text its'
  end.

Definition number_text (ds : list Z) : Prop :=
  ds <> [] /\ Forall (fun c => isdigit c = true) ds.

(** An item the map has room for. *)
Definition valid_item (it : item) : Prop :=
  number_text it.1 /\ number_text (default it.1 it.2) /\
  item_lo it <= item_hi it < MAX_TRACKS.

(** Whether track [i] is named by one of the items. *)
Definition listed (its : list item) (i : nat) : bool :=
  existsb (fun it => (item_lo it <=? Z.of_nat i) && (Z.of_nat i <=? item_hi it)) its.

End imdu_args.

(* ================================================================== *)
(** ** imdcmp.c: [parse_args]                                          *)
(* ================================================================== *)

Module imdcmp_args.
Import libc imdcmp.

(** The variables [parse_args] works on: the options, the two file
names and [file_count]. *)
Record parse_state : Type := mkParseState {
  ps_opts : Options;
  filename1 : option (list Z);
  filename2 : option (list Z);
  file_count : Z
}.

(** How the handling of one argument ends: the loop goes on, the
function returns -1, or the program exits with status [EXIT_MATCH]
after the usage text ([--help], [-h]). *)
Inductive step : Type :=
| Next (st : parse_state)
| ReturnError
| ExitHelp.

Definition set_ignore_compression (o : Options) (b : bool) : Options :=
  mkOptions b (strict_compression o) (quiet o) (warn_error o) (detail o).
Definition set_strict_compression (o : Options) (b : bool) : Options :=
  mkOptions (ignore_compression o) b (quiet o) (warn_error o) (detail o).
Definition set_quiet (o : Options) (b : bool) : Options :=
  mkOptions (ignore_compression o) (strict_compression o) b (warn_error o) (detail o).
Definition set_warn_error (o : Options) (b : bool) : Options :=
  mkOptions (ignore_compression o) (strict_compression o) (quiet o) b (detail o).
Definition set_detail (o : Options) (b : bool) : Options :=
  mkOptions (ignore_compression o) (strict_compression o) (quiet o) (warn_error o) b.

Definition with_opts (st : parse_state) (o : Options) : parse_state :=
  mkParseState o (filename1 st) (filename2 st) (file_count st).

(** The body of [for (int i = 1; i < argc; ++i)] for [argv[i] = arg]. *)
Definition parse_arg (st : parse_state) (arg : list Z) : step :=
  let o := ps_opts st in
  if char_at arg 0 =? chr "-" then
    if bool_decide (arg = cstr "-Werror") then Next (with_opts st (set_warn_error o true))
    else if bool_decide (arg = cstr "--help") then ExitHelp
    else if (length arg =? 2)%nat then
      let opt_char := toupper (char_at arg 1) in
      if opt_char =? chr "C" then
        if strict_compression o then Next st
        else Next (with_opts st (set_ignore_compression o true))
      else if opt_char =? chr "S" then
        let o := set_strict_compression o true in
        if ignore_compression o then Next (with_opts st (set_ignore_compression o false))
        else Next (with_opts st o)
      else if opt_char =? chr "Q" then Next (with_opts st (set_quiet o true))
      else if opt_char =? chr "D" then Next (with_opts st (set_detail o true))
      else if opt_char =? chr "W" then
        if char_at arg 1 =? chr "W" then Next (with_opts st (set_warn_error o true))
        else ReturnError
      else if opt_char =? chr "H" then ExitHelp
      else ReturnError
    else ReturnError
  else
    if file_count st =? 0 then
      Next (mkParseState o (Some arg) (filename2 st) (file_count st + 1))
    else if file_count st =? 1 then
      Next (mkParseState o (filename1 st) (Some arg) (file_count st + 1))
    else ReturnError.

Fixpoint parse_loop (st : parse_state) (args : list (list Z)) : step :=
  match args with
  | [] => Next st
  | arg :: rest =>
      match parse_arg st arg with
      | Next st' => parse_loop st' rest
      | r => r
      end
  end.

(** [parse_args(argc, argv, &opts)], [args] being [argv[1]] ...
[argv[argc-1]]: [Next st] stands for the return of 0 with the options
and file names of [st]. *)
Definition parse_args (args : list (list Z)) : step :=
  match parse_loop (mkParseState (mkOptions false false false false false) None None 0)
                   args with
  | Next st => if negb (file_count st =? 2) then ReturnError else Next st
  | r => r
  end.

(** [arg] is the two-character option whose letter, in upper case, has
code [c]. *)
Definition is_flag (c : Z) (arg : list Z) : bool :=
  bool_decide (arg = [chr "-"; c]) || bool_decide (arg = [chr "-"; c + 32]).

Definition starts_with_dash (arg : list Z) : bool := char_at arg 0 =? chr "-".

(** The options [parse_args] accepts without leaving the program. *)
Definition accepted_option (arg : list Z) : bool :=
  bool_decide (arg = cstr "-Werror") || bool_decide (arg = cstr "-W")
  || is_flag (chr "C") arg || is_flag (chr "S") arg
  || is_flag (chr "Q") arg || is_flag (chr "D") arg.

(** A command line [parse_args] accepts: known options, and exactly two
other arguments. *)
Definition accepted_command_line (args : list (list Z)) : bool :=
  forallb (fun arg => negb (starts_with_dash arg) || accepted_option arg) args &&
  (length (filter (fun arg => starts_with_dash arg = false) args) =? 2)%nat.

(** The two spellings of [-Werror]. *)
Definition is_werror (arg : list Z) : bool :=
  bool_decide (arg = cstr "-Werror") || bool_decide (arg = cstr "-W").

(** The options a command line asks for, read off its flags: [-S]
cancels [-C] wherever the two stand. *)
Definition options_of_flags (args : list (list Z)) : Options :=
  {| ignore_compression :=
       existsb (is_flag (chr "C")) args && negb (existsb (is_flag (chr "S")) args);
     strict_compression := existsb (is_flag (chr "S")) args;
     quiet := existsb (is_flag (chr "Q")) args;
     warn_error := existsb is_werror args;
     detail := existsb (is_flag (chr "D")) args |}.

(** What one accepted option does to the options. *)
Definition option_effect (o : Options) (arg : list Z) : Options :=
  {| ignore_compression :=
       (ignore_compression o || is_flag (chr "C") arg)
       && negb (strict_compression o || is_flag (chr "S") arg);
     strict_compression := strict_compression o || is_flag (chr "S") arg;
     quiet := quiet o || is_flag (chr "Q") arg;
     warn_error := warn_error o || is_werror arg;
     detail := detail o || is_flag (chr "D") arg |}.

End imdcmp_args.

(* ================================================================== *)
(** ** imdchk.c: [report_results]                                      *)
(* ================================================================== *)

Module imdchk_report.

(** What the "Consistency Check Results" part prints: one line per
listed check, with its [ERROR]/[Warn ] tag and its bit, and the two
counts of the last lines. *)
Record summary : Type := mkSummary {
  lines : list (bool * Z);
  error_count : Z;
  warning_count : Z
}.

(** [for (uint32_t bit = 1; bit != 0; bit <<= 1) { ... }].  The test on
[check_failures_mask & bit] is commented out in the source, so the
body runs for every bit. *)
Fixpoint list_checks (fuel : nat) (error_mask bit : Z) (acc : summary) : option summary :=
  match fuel with
  | O => None
  | S fuel' =>
      if bit =? 0 then Some acc
      else
        let is_error := negb (Z.land error_mask bit =? 0) in
        list_checks fuel' error_mask (Z.shiftl bit 1 mod 2 ^ 32)
          {| lines := lines acc ++ [(is_error, bit)];
             error_count := if is_error then error_count acc + 1 else error_count acc;
             warning_count :=
               if is_error then warning_count acc else warning_count acc + 1 |}
  end.

(** The part of [report_results] that follows the sector statistics. *)
Definition check_results (fuel : nat) (error_mask check_failures_mask : Z)
    : option summary :=
  if negb (check_failures_mask =? 0)
  then list_checks fuel error_mask 1 (mkSummary [] 0 0)
  else Some (mkSummary [] 0 0).

(** [report_results]: [if (g_quiet_mode) return;] comes first, and
then nothing is printed ([Some None]); otherwise the summary is
printed, ending with the part above.  [None]: the fuel ran out. *)
Definition report_results (g_quiet_mode : bool) (fuel : nat)
    (error_mask check_failures_mask : Z) : option (option summary) :=
  if g_quiet_mode then Some None
  else
    match check_results fuel error_mask check_failures_mask with
    | Some s => Some (Some s)
    | None => None
    end.

(** The number of bits set among the 32 bits of a mask. *)
Definition bits_set (mask : Z) : Z :=
  Z.of_nat (length (filter (fun k => Z.testbit mask k = true) (seqZ 0 32))).

End imdchk_report.

(* ================================================================== *)
(** ** imda.c: the analysis and the recommendations of [main]          *)
(* ================================================================== *)

Module imda_main.
Import libimd imda.

Definition BYTES_PER_SEC_500K : Z := 62500.
Definition SECTOR_OVERHEAD_GUESS : Z := 85.
Definition CYLINDER_OVERHEAD_GUESS : Z := 85.

(** Drive type flags (lower bits). *)
Definition DRIVE_TYPE_D35_DD : Z := 0x00.
Definition DRIVE_TYPE_D35_HD : Z := 0x01.
Definition DRIVE_TYPE_D525_DD_40 : Z := 0x02.
Definition DRIVE_TYPE_D525_DD_80 : Z := 0x03.
Definition DRIVE_TYPE_D525_HD : Z := 0x04.
Definition DRIVE_TYPE_D8 : Z := 0x05.
Definition DRIVE_TYPE_MASK : Z := 0x07.

(** Option flags (middle bits). *)
Definition OPTION_DSTEP : Z := 0x10.
Definition OPTION_T32 : Z := 0x20.
Definition OPTION_T23 : Z := 0x40.

(** Note flags (upper bits). *)
Definition NOTE_40TRACK : Z := 0x0100.
Definition NOTE_77TRACK : Z := 0x0200.
Definition NOTE_360RPM : Z := 0x0400.

(** Modelled from the spec: [imd_read_track_header(f, &track)] of the
library reads the header and maps of the next track without its data:
1 with the track filled in, 0 at a clean end of the stream, a negative
value on a read failure. *)
Definition imd_read_track_header (f : track_stream) (track : ImdTrackInfo)
  : Z * ImdTrackInfo * track_stream :=
  match f with
  | [] => (0, track, [])
  | LoadTrack t :: rest => (1, t, rest)
  | LoadError :: rest => (-1, track, rest)
  end.

(** The variables of the "Analyze Tracks" loop. *)
Record analysis : Type := mkAnalysis {
  max_cyl : Z;
  max_head : Z;
  modes_used : Z;
  max_track_bytes_estimate : Z;
  track_count : Z
}.

(** The body of the loop after a successful read: [track_count] and
the estimate are [uint32_t], the other three [uint8_t]. *)
Definition analyze_track (a : analysis) (track_info : ImdTrackInfo) : analysis :=
  {| track_count := (track_count a + 1) mod 2 ^ 32;
     max_cyl := if max_cyl a <? cyl track_info then cyl track_info else max_cyl a;
     max_head := if max_head a <? head track_info then head track_info else max_head a;
     modes_used := track_modes_used (modes_used a) (mode track_info);
     max_track_bytes_estimate :=
       if 0 <? num_sectors track_info then
         let track_bytes :=
           ((sector_size track_info + SECTOR_OVERHEAD_GUESS) * num_sectors track_info
            + CYLINDER_OVERHEAD_GUESS) mod 2 ^ 32 in
         if max_track_bytes_estimate a <? track_bytes then track_bytes
         else max_track_bytes_estimate a
       else max_track_bytes_estimate a |}.

(** [while (1) { ... }]: the analysis at the [break], with [true], or
at the [goto cleanup] of a read failure, with [false]. *)
Fixpoint track_loop (fuel : nat) (fimd : track_stream) (track_info : ImdTrackInfo)
    (a : analysis) : option (analysis * bool) :=
  match fuel with
  | O => None
  | S fuel' =>
      let '(load_status, track_info, fimd) := imd_read_track_header fimd track_info in
      if load_status =? 0 then Some (a, true)
      else if load_status <? 0 then Some (a, false)
      else track_loop fuel' fimd track_info (analyze_track a track_info)
  end.

(** The state of the notes: [notes_printed] (40 tracks, 77 tracks,
360 RPM) and [note_idx]. *)
Record notes : Type := mkNotes {
  notes_printed : list Z;
  note_idx : Z
}.

Inductive imd_option : Set := DS_1 | T300_250 | T250_300.

(** What [print_drive_recommendation] prints: the drive type, the
numbers of the notes referred to, the IMD options. *)
Record recommendation : Type := mkRecommendation {
  rec_drive : Z;
  rec_notes : list Z;
  rec_options : list imd_option
}.

(** One of the three note tests: when the flag is set, the note gets
the next number (the incremented [note_idx], as a byte) unless it has
one already, and its number is printed. *)
Definition note_ref (flags note : Z) (k : nat) (st : notes) : list Z * notes :=
  if negb (Z.land flags note =? 0) then
    let st :=
      if default 0 (notes_printed st !! k) =? 0
      then mkNotes (<[k := (note_idx st + 1) mod 256]> (notes_printed st)) (note_idx st + 1)
      else st in
    ([default 0 (notes_printed st !! k)], st)
  else ([], st).

Definition print_drive_recommendation (flags : Z) (st : notes) : recommendation * notes :=
  let '(refs, st) :=
    if negb (Z.land flags (Z.lor NOTE_40TRACK (Z.lor NOTE_77TRACK NOTE_360RPM)) =? 0) then
      let '(r0, st) := note_ref flags NOTE_40TRACK 0 st in
      let '(r1, st) := note_ref flags NOTE_77TRACK 1 st in
      let '(r2, st) := note_ref flags NOTE_360RPM 2 st in
      (r0 ++ r1 ++ r2, st)
    else ([], st) in
  (mkRecommendation (Z.land flags DRIVE_TYPE_MASK) refs
     ((if negb (Z.land flags OPTION_DSTEP =? 0) then [DS_1] else []) ++
      (if negb (Z.land flags OPTION_T32 =? 0) then [T300_250] else []) ++
      (if negb (Z.land flags OPTION_T23 =? 0) then [T250_300] else [])),
   st).

(** "Determine base options". *)
Definition base_drive_flags (max_cyl : Z) : Z :=
  let drive_flags := 0 in
  let drive_flags :=
    if max_cyl <? 40 then Z.lor drive_flags OPTION_DSTEP
    else if max_cyl =? 39 then Z.lor drive_flags NOTE_40TRACK
    else drive_flags in
  if max_cyl =? 76 then Z.lor drive_flags NOTE_77TRACK else drive_flags.

(** The flag words handed to [print_drive_recommendation] by the
[switch (modes_used)], in order. *)
Definition recommended_flags (a : analysis) : list Z :=
  let drive_flags := base_drive_flags (max_cyl a) in
  match modes_used a with
  | 1 =>
      let drive_flags :=
        if max_track_bytes_estimate a <? BYTES_PER_SEC_500K `quot` 6
        then Z.lor drive_flags NOTE_360RPM else drive_flags in
      [Z.lor DRIVE_TYPE_D35_HD drive_flags; Z.lor DRIVE_TYPE_D525_HD drive_flags] ++
      (if max_cyl a <=? 76 then [Z.lor DRIVE_TYPE_D8 drive_flags] else [])
  | 2 =>
      [Z.lor (Z.lor DRIVE_TYPE_D525_HD OPTION_T32) drive_flags;
       Z.lor DRIVE_TYPE_D35_DD drive_flags;
       Z.lor DRIVE_TYPE_D35_HD drive_flags;
       Z.lor (Z.lor DRIVE_TYPE_D525_DD_80 OPTION_T32) drive_flags] ++
      (if negb (Z.land drive_flags NOTE_40TRACK =? 0)
       then [Z.lor (Z.lor DRIVE_TYPE_D525_DD_40 OPTION_T32) drive_flags] else [])
  | 4 =>
      (if negb (Z.land drive_flags NOTE_40TRACK =? 0)
       then [Z.lor DRIVE_TYPE_D525_DD_40 drive_flags] else []) ++
      [Z.lor DRIVE_TYPE_D525_DD_80 drive_flags;
       Z.lor (Z.lor DRIVE_TYPE_D525_HD OPTION_T23) drive_flags;
       Z.lor DRIVE_TYPE_D35_DD drive_flags;
       Z.lor DRIVE_TYPE_D35_HD drive_flags]
  | _ => []
  end.

(** The successive calls of [print_drive_recommendation]. *)
Fixpoint print_all (flags : list Z) (st : notes) : list recommendation * notes :=
  match flags with
  | [] => ([], st)
  | f :: rest =>
      let '(r, st) := print_drive_recommendation f st in
      let '(rs, st) := print_all rest st in
      (r :: rs, st)
  end.

Inductive exit_reason : Set := MixedRates | NoRate.

(** How [main] ends once the file is open and its header and comment
are read: a read failure (status 1), [imd_report_error_exit], the
"no tracks" message (status 0), or the recommendations (status 0). *)
Inductive outcome : Type :=
| ReadFailure
| ErrorExit (reason : exit_reason)
| NoTracks
| Recommended (recs : list recommendation) (st : notes).

(** [main] from "Determine Recommendations" on. *)
Definition conclude (a : analysis) : outcome :=
  let num_modes :=
    Z.land (modes_used a) 1 + Z.land (Z.shiftr (modes_used a) 1) 1
    + Z.land (Z.shiftr (modes_used a) 2) 1 in
  if 1 <? num_modes then ErrorExit MixedRates
  else if (modes_used a =? 0) && (0 <? track_count a) then ErrorExit NoRate
  else if track_count a =? 0 then NoTracks
  else
    let '(recs, st) := print_all (recommended_flags a) (mkNotes [0; 0; 0] 0) in
    Recommended recs st.

(** [main] from the track loop on. *)
Definition main_from_tracks (fuel : nat) (fimd : track_stream) (track_info : ImdTrackInfo)
    : option outcome :=
  match track_loop fuel fimd track_info (mkAnalysis 0 0 0 0 0) with
  | None => None
  | Some (a, true) => Some (conclude a)
  | Some (a, false) => Some ReadFailure
  end.

(** The rate class of a track: 0 for 500, 1 for 300, 2 for 250 kbps. *)
Definition rate_class (t : ImdTrackInfo) : Z := mode t mod 3.

(** The value of [modes_used] when the rate classes 0, 1 and 2 are
present or absent as the three booleans tell. *)
Definition modes_of_classes (c0 c1 c2 : bool) : Z :=
  (if c0 then 1 else 0) + (if c1 then 2 else 0) + (if c2 then 4 else 0).

Definition has_class (k : Z) (ts : list ImdTrackInfo) : bool :=
  existsb (fun t => rate_class t =? k) ts.

End imda_main.

(* ================================================================== *)
(** ** More sample inputs                                              *)
(* ================================================================== *)

Module samples_more.
Import libimd imdu.

(** [-X0=0]: cylinder 0 of side 0 is excluded (the side masks being 1
and 2), output to an IMD file, no merge file. *)
Definition exclude_opts : Options :=
  {| fmerge_open := false; fout_open := true; op_mode := OP_MODE_WRITE_IMD;
     compression_mode_opt := IMD_COMPRESSION_AS_READ;
     opt_force_non_bad := false; opt_force_non_deleted := false;
     fill_specified := false; fill_byte := 0; interleave := 0;
     tmode := identity_tmode; skip_track := <[0%nat := 1]> (replicate 256 0);
     add_missing_sectors_target := 0; add_missing_sectors_active := false |}.

(** A one-sector track of 128 bytes whose buffer is missing. *)
Definition no_buffer_track : ImdTrackInfo :=
  {| mode := 3; cyl := 0; head := 0; hflag := 0; num_sectors := 1;
     sector_size_code := 0; sector_size := 128;
     smap := [1]; cmap := [0]; hmap := [0]; sflag := [1];
     data := None; data_size := 0; loaded := true |}.

End samples_more.

(* ================================================================== *)
(** * Properties                                                       *)
(* ================================================================== *)

(** ** C1: the exit code of imdchk *)

(** C1 (evaluation of the code): on a completed scan whose only failure
    is the cylinder-sequence bit, with the default error mask (which
    leaves that bit out), [main] still returns 1 and prints the FAIL
    line; the masked-failure branch is never taken. *)
Theorem imdchk_exit_ignores_error_mask :
  Z.land imdchk.CHECK_BIT_SEQ_CYL_DEC imdchk.usage_default_error_mask = 0 /\
  imdchk.main_exit 0 imdchk.CHECK_BIT_SEQ_CYL_DEC imdchk.usage_default_error_mask = 1 /\
  imdchk.main_result_line
    (imdchk.main_exit 0 imdchk.CHECK_BIT_SEQ_CYL_DEC imdchk.usage_default_error_mask)
    imdchk.CHECK_BIT_SEQ_CYL_DEC = imdchk.ResultFail.
Proof. repeat split; reflexivity. Qed.

(** Whatever the masks, a completed scan exits with 1. *)
Lemma imdchk_exit_always_one (failures error_mask : Z) :
  imdchk.main_exit 0 failures error_mask = 1.
Proof. reflexivity. Qed.

(** ** C7: the bit-rate class of a mode *)

(** C7: for a mode byte [m] in 0..5 the class bit recorded by imda is
    the one of [m mod 3], the rate reported for that class is
    [MODE_RATES[m]] (class 0: 500, class 1: 300, class 2: 250 kbps),
    and imdu names modes 0-2 FM and modes 3-5 MFM. *)
Theorem mode_class_matches_tables (m : Z) :
  0 <= m < 6 ->
  imda.mode_class_bit m = 2 ^ (m mod 3) /\
  imda.data_rates_used (imda.track_modes_used 0 m) =
    [nth (Z.to_nat (m mod 3)) [500; 300; 250] 0] /\
  imdu.MODE_RATES !! Z.to_nat m = Some (nth (Z.to_nat (m mod 3)) [500; 300; 250] 0) /\
  (imdu.mode_encoding m = imdu.FM <-> m < 3) /\
  (imdu.mode_encoding m = imdu.MFM <-> 3 <= m).
Proof.
  intros Hm.
  assert (Hcases : m = 0 \/ m = 1 \/ m = 2 \/ m = 3 \/ m = 4 \/ m = 5) by lia.
  destruct Hcases as [->|[->|[->|[->|[->| ->]]]]];
    (repeat split; try reflexivity; try lia; try discriminate).
Qed.

Lemma mode_class_matches_tables_witness :
  imda.mode_class_bit 4 = 2 ^ (4 mod 3) /\
  imda.data_rates_used (imda.track_modes_used 0 4) =
    [nth (Z.to_nat (4 mod 3)) [500; 300; 250] 0] /\
  imdu.MODE_RATES !! Z.to_nat 4 = Some (nth (Z.to_nat (4 mod 3)) [500; 300; 250] 0) /\
  (imdu.mode_encoding 4 = imdu.FM <-> 4 < 3) /\
  (imdu.mode_encoding 4 = imdu.MFM <-> 3 <= 4).
Proof. apply (mode_class_matches_tables 4). lia. Defined.

(** ** The final sector flags of imdu *)

Section FinalFlags.
Import libimd imdu.

(** Case analysis on the four predicates of the original flag. *)
Local Ltac flag_cases orig :=
  unfold final_flag, target_base_type;
  generalize (IMD_SDR_HAS_DATA orig) (IMD_SDR_IS_COMPRESSED orig)
             (IMD_SDR_HAS_DAM orig) (IMD_SDR_HAS_ERR orig);
  intros [] [] [] [].

Lemma final_sflag_lookup (t : ImdTrackInfo) (wo : ImdWriteOpts) (i : nat) (f : Z) :
  final_sflag t wo !! i = Some f <->
  exists orig, sflag t !! i = Some orig /\ (Z.of_nat i < num_sectors t) /\
               f = final_flag wo orig (is_uniform_sector t i).
Proof.
  unfold final_sflag. rewrite list_lookup_imap. split.
  - intros H. destruct (take _ _ !! i) as [orig|] eqn:E; simplify_eq/=.
    apply lookup_take_Some in E as [E Hi]. exists orig. split; [done|]. split; [lia|done].
  - intros (orig & E & Hi & ->).
    rewrite lookup_take_lt by lia. by rewrite E.
Qed.

Lemma final_flag_as_read_compressed (wo : ImdWriteOpts) (orig : Z) (u : bool) :
  wo_compression_mode wo = IMD_COMPRESSION_AS_READ ->
  IMD_SDR_IS_COMPRESSED (final_flag wo orig u) =
    IMD_SDR_HAS_DATA orig && IMD_SDR_IS_COMPRESSED orig && u.
Proof.
  intros Hm. flag_cases orig; rewrite Hm;
    destruct u, (force_non_deleted wo), (force_non_bad wo); reflexivity.
Qed.

Lemma final_flag_force_compressed (wo : ImdWriteOpts) (orig : Z) (u : bool) :
  wo_compression_mode wo = IMD_COMPRESSION_FORCE_COMPRESS ->
  IMD_SDR_IS_COMPRESSED (final_flag wo orig u) = IMD_SDR_HAS_DATA orig && u.
Proof.
  intros Hm. flag_cases orig; rewrite Hm;
    destruct u, (force_non_deleted wo), (force_non_bad wo); reflexivity.
Qed.

Lemma final_flag_markers (cm : compression_mode) (nb nd : bool) (tm : list Z)
    (il orig : Z) (u : bool) :
  IMD_SDR_HAS_DAM (final_flag (mkWriteOpts cm nb true tm il) orig u) = false /\
  IMD_SDR_HAS_ERR (final_flag (mkWriteOpts cm true nd tm il) orig u) = false /\
  IMD_SDR_HAS_DATA (final_flag (mkWriteOpts cm nb nd tm il) orig u) =
    IMD_SDR_HAS_DATA (final_flag (mkWriteOpts cm false false tm il) orig u) /\
  IMD_SDR_IS_COMPRESSED (final_flag (mkWriteOpts cm nb nd tm il) orig u) =
    IMD_SDR_IS_COMPRESSED (final_flag (mkWriteOpts cm false false tm il) orig u).
Proof.
  flag_cases orig; destruct cm, nb, nd, u; repeat split; reflexivity.
Qed.

End FinalFlags.

Section SectorCodec.
Import libimd imdu.

Lemma forallb_eqb_replicate (v : Z) (l : list Z) :
  forallb (Z.eqb v) l = true <-> l = replicate (length l) v.
Proof.
  induction l as [|c l IH]; cbn [forallb length replicate]; [done|].
  rewrite andb_true_iff, Z.eqb_eq, IH. split.
  - intros [-> <-]. done.
  - intros [= -> H]. done.
Qed.

Lemma imd_is_uniform_Some (bytes : list Z) (v : Z) :
  imd_is_uniform bytes = Some v <-> bytes <> [] /\ bytes = replicate (length bytes) v.
Proof.
  destruct bytes as [|b rest]; unfold imd_is_uniform.
  - split; [discriminate | intros [? _]; congruence].
  - cbn [length replicate].
    destruct (forallb (Z.eqb b) rest) eqn:E.
    + apply forallb_eqb_replicate in E. split.
      * intros [= <-]. split; [done|]. by rewrite <- E.
      * intros [_ [= -> _]]. done.
    + split; [discriminate|]. intros [_ [= -> Hrest]]. exfalso.
      apply forallb_eqb_replicate in Hrest. congruence.
Qed.

Lemma imd_is_uniform_None (bytes : list Z) :
  bytes <> [] ->
  imd_is_uniform bytes = None <-> forall v, bytes <> replicate (length bytes) v.
Proof.
  intros Hne. split.
  - intros HN v Hv. assert (imd_is_uniform bytes = Some v); [|congruence].
    by apply imd_is_uniform_Some.
  - intros Hall. destruct (imd_is_uniform bytes) as [v|] eqn:E; [|done].
    apply imd_is_uniform_Some in E as [_ E]. by destruct (Hall v).
Qed.

End SectorCodec.

Section WriteFlags.
Import libimd imdu samples.

Example as_read_keeps_uniform_normal_sector :
  final_sflag (uniform_track IMD_SDR_NORMAL) (write_opts_of IMD_COMPRESSION_AS_READ)
  = [IMD_SDR_NORMAL].
Proof. vm_compute. reflexivity. Qed.

Example as_read_keeps_compressed_sector :
  final_sflag (uniform_track IMD_SDR_COMPRESSED_DAM) (write_opts_of IMD_COMPRESSION_AS_READ)
  = [IMD_SDR_COMPRESSED_DAM].
Proof. vm_compute. reflexivity. Qed.

Example force_compress_uniform_normal_sector :
  final_sflag (uniform_track IMD_SDR_NORMAL_ERR)
              (write_opts_of IMD_COMPRESSION_FORCE_COMPRESS)
  = [IMD_SDR_COMPRESSED_ERR].
Proof. vm_compute. reflexivity. Qed.

Example force_non_bad_clears_error :
  final_sflag (uniform_track IMD_SDR_COMPRESSED_DEL_ERR)
              (mkWriteOpts IMD_COMPRESSION_AS_READ true false [0; 1; 2; 3; 4; 5] 0)
  = [IMD_SDR_COMPRESSED_DAM].
Proof. vm_compute. reflexivity. Qed.

(** C3: under the preserve-as-read policy the flag computed for a
    sector is a compressed one only if the flag read for it was
    compressed and its bytes are uniform; a sector read with a
    non-compressed flag is never given a compressed one, uniform or
    not. *)
Theorem as_read_never_compresses_normal
    (t : ImdTrackInfo) (wo : ImdWriteOpts) (i : nat) (f : Z) :
  wo_compression_mode wo = IMD_COMPRESSION_AS_READ ->
  final_sflag t wo !! i = Some f ->
  exists orig, sflag t !! i = Some orig /\
    (IMD_SDR_IS_COMPRESSED f = true ->
       IMD_SDR_IS_COMPRESSED orig = true /\ is_uniform_sector t i = true) /\
    (IMD_SDR_IS_COMPRESSED orig = false -> IMD_SDR_IS_COMPRESSED f = false).
Proof.
  intros Hm Hf. apply final_sflag_lookup in Hf as (orig & Ho & _ & ->).
  exists orig. split; [done|].
  rewrite final_flag_as_read_compressed by done. split.
  - intros H. apply andb_true_iff in H as [H Hu].
    apply andb_true_iff in H as [_ Hc]. done.
  - intros ->. by rewrite andb_false_r.
Qed.

Lemma as_read_never_compresses_normal_witness :
  exists orig, sflag (uniform_track 1) !! 0%nat = Some orig /\
    (IMD_SDR_IS_COMPRESSED 1 = true ->
       IMD_SDR_IS_COMPRESSED orig = true /\ is_uniform_sector (uniform_track 1) 0 = true) /\
    (IMD_SDR_IS_COMPRESSED orig = false -> IMD_SDR_IS_COMPRESSED 1 = false).
Proof.
  apply (as_read_never_compresses_normal (uniform_track 1)
           (write_opts_of IMD_COMPRESSION_AS_READ) 0 1); reflexivity.
Defined.

(** C4: under the force-compress policy a data-bearing sector whose
    bytes all equal [v] gets a compressed flag, its encoding is the
    single byte [v], and decoding that byte under the flag gives the
    sector back; a sector whose bytes are not all identical keeps a
    normal flag and is encoded in full. *)
Theorem force_compress_uniform_sector
    (t : ImdTrackInfo) (wo : ImdWriteOpts) (i : nat) (orig fill : Z) (bytes : list Z) :
  wo_compression_mode wo = IMD_COMPRESSION_FORCE_COMPRESS ->
  Z.of_nat i < num_sectors t ->
  sflag t !! i = Some orig ->
  IMD_SDR_HAS_DATA orig = true ->
  sector_bytes t i = Some bytes ->
  length bytes = Z.to_nat (sector_size t) ->
  exists f, final_sflag t wo !! i = Some f /\
    IMD_SDR_HAS_DATA f = true /\
    (forall v, bytes = replicate (Z.to_nat (sector_size t)) v ->
       IMD_SDR_IS_COMPRESSED f = true /\
       encode_sector bytes (Z.to_nat (sector_size t)) ForceCompressWhenUniform
         = (FormCompressed, [v]) /\
       decode_sector f [v] (Z.to_nat (sector_size t)) fill
         = Some (replicate (Z.to_nat (sector_size t)) v)) /\
    ((forall v, bytes <> replicate (Z.to_nat (sector_size t)) v) ->
       IMD_SDR_IS_COMPRESSED f = false /\
       encode_sector bytes (Z.to_nat (sector_size t)) ForceCompressWhenUniform
         = (FormNormal, bytes) /\
       decode_sector f bytes (Z.to_nat (sector_size t)) fill = Some bytes).
Proof.
  intros Hm Hi Ho Hd Hb Hlen.
  assert (Hne : bytes <> []).
  { unfold sector_bytes in Hb. destruct (data t); [|done].
    destruct (0 <? sector_size t) eqn:Hs; [|done]. apply Z.ltb_lt in Hs.
    intros ->. simpl in Hlen. lia. }
  exists (final_flag wo orig (is_uniform_sector t i)).
  split; [apply final_sflag_lookup; eauto|].
  assert (Htake : take (Z.to_nat (sector_size t)) bytes = bytes)
    by (apply take_ge; lia).
  unfold is_uniform_sector. rewrite Hb. split; [|split].
  - unfold final_flag, target_base_type. rewrite Hd, Hm. cbn [negb].
    generalize (IMD_SDR_HAS_DAM orig) (IMD_SDR_HAS_ERR orig).
    intros [] []; destruct (bool_decide _), (force_non_deleted wo), (force_non_bad wo);
      reflexivity.
  - intros v Hv.
    assert (Hu : imd_is_uniform bytes = Some v).
    { apply imd_is_uniform_Some. split; [done|]. by rewrite Hlen. }
    assert (Hc : IMD_SDR_IS_COMPRESSED
                   (final_flag wo orig (bool_decide (is_Some (imd_is_uniform bytes)))) = true).
    { rewrite final_flag_force_compressed, Hd, Hu by done. reflexivity. }
    split; [done|]. split.
    + unfold encode_sector. rewrite Htake. cbn [policy_allows]. by rewrite Hu.
    + unfold decode_sector. by rewrite Hc.
  - intros Hall.
    assert (Hu : imd_is_uniform bytes = None).
    { apply imd_is_uniform_None; [done|]. by rewrite Hlen. }
    assert (Hc : IMD_SDR_IS_COMPRESSED
                   (final_flag wo orig (bool_decide (is_Some (imd_is_uniform bytes)))) = false).
    { rewrite final_flag_force_compressed, Hd, Hu by done. reflexivity. }
    split; [done|]. split.
    + unfold encode_sector. rewrite Htake. cbn [policy_allows]. by rewrite Hu.
    + unfold decode_sector. rewrite Hc.
      assert (Hdata : IMD_SDR_HAS_DATA
                   (final_flag wo orig (bool_decide (is_Some (imd_is_uniform bytes)))) = true).
      { unfold final_flag, target_base_type. rewrite Hd, Hm, Hu. cbn [negb].
        generalize (IMD_SDR_HAS_DAM orig) (IMD_SDR_HAS_ERR orig).
        intros [] []; destruct (force_non_deleted wo), (force_non_bad wo); reflexivity. }
      rewrite Hdata. cbn [negb]. rewrite Hlen, Nat.eqb_refl. done.
Qed.

Lemma force_compress_uniform_sector_witness :
  exists f, final_sflag (uniform_track 1) (write_opts_of IMD_COMPRESSION_FORCE_COMPRESS) !! 0%nat
              = Some f /\
    IMD_SDR_HAS_DATA f = true /\
    (forall v, replicate 128 0xE5 = replicate (Z.to_nat 128) v ->
       IMD_SDR_IS_COMPRESSED f = true /\
       encode_sector (replicate 128 0xE5) (Z.to_nat 128) ForceCompressWhenUniform
         = (FormCompressed, [v]) /\
       decode_sector f [v] (Z.to_nat 128) 0 = Some (replicate (Z.to_nat 128) v)) /\
    ((forall v, replicate 128 0xE5 <> replicate (Z.to_nat 128) v) ->
       IMD_SDR_IS_COMPRESSED f = false /\
       encode_sector (replicate 128 0xE5) (Z.to_nat 128) ForceCompressWhenUniform
         = (FormNormal, replicate 128 0xE5) /\
       decode_sector f (replicate 128 0xE5) (Z.to_nat 128) 0 = Some (replicate 128 0xE5)).
Proof.
  apply (force_compress_uniform_sector (uniform_track 1)
           (write_opts_of IMD_COMPRESSION_FORCE_COMPRESS) 0 1 0 (replicate 128 0xE5));
    try reflexivity.
Defined.

(** C5: with [force_non_deleted] no computed flag carries the
    deleted-address-mark marker, with [force_non_bad] none carries the
    error marker, and neither option changes which sectors have data
    or which are compressed. *)
Theorem force_options_clear_markers
    (t : ImdTrackInfo) (cm : compression_mode) (nb nd : bool) (tm : list Z) (il : Z) :
  Forall (fun f => IMD_SDR_HAS_DAM f = false)
         (final_sflag t (mkWriteOpts cm nb true tm il)) /\
  Forall (fun f => IMD_SDR_HAS_ERR f = false)
         (final_sflag t (mkWriteOpts cm true nd tm il)) /\
  IMD_SDR_HAS_DATA <$> final_sflag t (mkWriteOpts cm nb nd tm il)
    = IMD_SDR_HAS_DATA <$> final_sflag t (mkWriteOpts cm false false tm il) /\
  IMD_SDR_IS_COMPRESSED <$> final_sflag t (mkWriteOpts cm nb nd tm il)
    = IMD_SDR_IS_COMPRESSED <$> final_sflag t (mkWriteOpts cm false false tm il).
Proof.
  repeat split.
  - apply Forall_lookup. intros i f Hf.
    apply final_sflag_lookup in Hf as (orig & _ & _ & ->).
    apply (final_flag_markers cm nb nd tm il orig).
  - apply Forall_lookup. intros i f Hf.
    apply final_sflag_lookup in Hf as (orig & _ & _ & ->).
    apply (final_flag_markers cm nb nd tm il orig).
  - apply list_eq. intros i. unfold final_sflag.
    rewrite !list_lookup_fmap, !list_lookup_imap.
    destruct (take _ _ !! i) as [orig|]; [|done]. cbn [fmap option_fmap option_map].
    f_equal. apply (final_flag_markers cm nb nd tm il orig).
  - apply list_eq. intros i. unfold final_sflag.
    rewrite !list_lookup_fmap, !list_lookup_imap.
    destruct (take _ _ !! i) as [orig|]; [|done]. cbn [fmap option_fmap option_map].
    f_equal. apply (final_flag_markers cm nb nd tm il orig).
Qed.

End WriteFlags.

(** ** The rate translation option of imdu *)

Section RateTranslation.
Import libimd imdu.

Lemma find_mode_to_same_encoding (i : nat) (rate_to : Z) (js : list nat) (j : nat) :
  find_mode_to i rate_to js = Some j ->
  j ∈ js /\ same_encoding i j = true /\
  rate_code_is (nth j MODE_TO_RATE_CODE 0) rate_to = true.
Proof.
  induction js as [|k js IH]; cbn [find_mode_to]; [discriminate|].
  destruct (rate_code_is _ rate_to && same_encoding i k) eqn:E.
  - intros [= <-]. apply andb_true_iff in E as [? ?]. split; [left|]; done.
  - intros H. destruct (IH H) as (? & ? & ?). split; [by right|done].
Qed.

Lemma same_encoding_sides (i j : nat) :
  same_encoding i j = true -> (i < 3 /\ j < 3)%nat \/ (3 <= i /\ 3 <= j)%nat.
Proof.
  unfold same_encoding. intros H. apply orb_true_iff in H as [H|H];
    apply andb_true_iff in H as [H1 H2]; [left|right].
  - split; by apply Nat.ltb_lt.
  - split; by apply Nat.leb_le.
Qed.

Lemma translate_from_cases (tmode : list Z) (rf rt : Z) (ms : list nat) :
  let r := translate_from tmode rf rt ms in
  (applied r = false /\ mode_to r = -1 /\ tr_tmode r = tmode) \/
  (exists i j : nat, applied r = true /\ i ∈ ms /\ (j < LIBIMD_NUM_MODES)%nat /\
      mode_from r = Z.of_nat i /\ mode_to r = Z.of_nat j /\
      tr_tmode r = <[i := Z.of_nat j]> tmode /\
      same_encoding i j = true /\
      rate_code_is (nth i MODE_TO_RATE_CODE 0) rf = true /\
      rate_code_is (nth j MODE_TO_RATE_CODE 0) rt = true).
Proof.
  induction ms as [|i ms IH]; cbn [translate_from]; [left; done|].
  destruct (rate_code_is (nth i MODE_TO_RATE_CODE 0) rf) eqn:Ei.
  - destruct (find_mode_to i rt _) as [j|] eqn:Ej; [|left; done].
    apply find_mode_to_same_encoding in Ej as (Hj & Hs & Hr).
    apply elem_of_seq in Hj. right. exists i, j. cbn.
    repeat split; try done; try lia; [left|].
    rewrite Z.mod_small; [done|]. unfold LIBIMD_NUM_MODES in Hj. lia.
  - destruct IH as [IH|(i' & j & ? & ? & IH)]; [left; done|].
    right. exists i', j. split; [done|]. split; [by right|done].
Qed.

(** C6: a [-T] request writes [tmode[old_mode] = new_mode] only for
    two modes on the same side of the FM/MFM boundary; when no target
    mode of the requested rate lies on the side of the source mode the
    request is refused and the table is left as it was. *)
Theorem rate_translation_keeps_encoding (tmode : list Z) (rate_from rate_to : Z) :
  let r := parse_rate_translation tmode rate_from rate_to in
  (applied r = false /\ mode_to r = -1 /\ tr_tmode r = tmode) \/
  (applied r = true /\
   exists old_mode new_mode : nat,
     mode_from r = Z.of_nat old_mode /\ mode_to r = Z.of_nat new_mode /\
     tr_tmode r = <[old_mode := Z.of_nat new_mode]> tmode /\
     ((old_mode < 3 /\ new_mode < 3) \/
      (3 <= old_mode < 6 /\ 3 <= new_mode < 6))%nat /\
     nth old_mode MODE_RATES 0 = rate_from /\
     nth new_mode MODE_RATES 0 = rate_to).
Proof.
  intros r. subst r. unfold parse_rate_translation.
  destruct (translate_from_cases tmode rate_from rate_to (seq 0 LIBIMD_NUM_MODES))
    as [H|(i & j & Ha & Hi & Hj & Hf & Ht & Htm & Hs & Hri & Hrj)]; [left; done|].
  right. split; [done|]. exists i, j.
  apply elem_of_seq in Hi. unfold LIBIMD_NUM_MODES in *.
  apply same_encoding_sides in Hs.
  repeat split; try done; [lia|..].
  - destruct i as [|[|[|[|[|[|?]]]]]]; try lia; cbn in Hri |- *;
      unfold rate_code_is in Hri; cbn in Hri; lia.
  - destruct j as [|[|[|[|[|[|?]]]]]]; try lia; cbn in Hrj |- *;
      unfold rate_code_is in Hrj; cbn in Hrj; lia.
Qed.

(** [-T300=250] on the table of [parse_args]: the loop over the source
    modes stops at the first mode of 300 kbps, the FM mode 1. *)
Example translate_300_to_250 :
  tr_tmode (parse_rate_translation identity_tmode 300 250) = [0; 2; 2; 3; 4; 5].
Proof. reflexivity. Qed.

(** A rate that no mode has is refused and the table is untouched. *)
Example translate_300_to_125 :
  parse_rate_translation identity_tmode 300 125
  = mkTranslation identity_tmode 1 (-1) false.
Proof. reflexivity. Qed.

(** On the table of [parse_args], every entry stays on its own side
    whatever request is made. *)
Corollary rate_translation_entries (rate_from rate_to : Z) (m : nat) (v : Z) :
  tr_tmode (parse_rate_translation identity_tmode rate_from rate_to) !! m = Some v ->
  (Z.of_nat m < 3 /\ 0 <= v < 3) \/ (3 <= Z.of_nat m < 6 /\ 3 <= v < 6).
Proof.
  destruct (translate_from_cases identity_tmode rate_from rate_to (seq 0 LIBIMD_NUM_MODES))
    as [(_ & _ & H)|(i & j & _ & Hi & Hj & _ & _ & H & Hs & _)];
    unfold parse_rate_translation; rewrite H; clear H.
  - intros H. unfold identity_tmode in H. rewrite list_lookup_fmap in H.
    destruct (seq _ _ !! m) as [k|] eqn:E; [|done]. apply lookup_seq in E as [-> E].
    unfold LIBIMD_NUM_MODES in E. simplify_eq/=. lia.
  - apply elem_of_seq in Hi. unfold LIBIMD_NUM_MODES in *.
    apply same_encoding_sides in Hs.
    destruct (decide (i = m)) as [->|Hne].
    + rewrite list_lookup_insert_eq by (cbn; lia).
      intros [= <-]. lia.
    + rewrite list_lookup_insert_ne by done.
      intros H. unfold identity_tmode in H. rewrite list_lookup_fmap in H.
      destruct (seq _ _ !! m) as [k|] eqn:E; [|done]. apply lookup_seq in E as [-> E].
      unfold LIBIMD_NUM_MODES in E. simplify_eq/=. lia.
Qed.

End RateTranslation.

(** ** The interleave analyzer *)

Section Interleave.
Import libimd.

Example generate_10_2 :
  generate_interleaved_map 10 2 1 = [1; 6; 2; 7; 3; 8; 4; 9; 5; 10].
Proof. reflexivity. Qed.

Example generate_10_3 :
  generate_interleaved_map 10 3 1 = [1; 8; 5; 2; 9; 6; 3; 10; 7; 4].
Proof. reflexivity. Qed.

Example generate_10_1 :
  generate_interleaved_map 10 1 1 = [1; 2; 3; 4; 5; 6; 7; 8; 9; 10].
Proof. reflexivity. Qed.

Example calculate_10_7 :
  calculate_best_interleave (generate_interleaved_map 10 7 1) = Some 7%nat.
Proof. vm_compute. reflexivity. Qed.

Example calculate_one_sector :
  calculate_best_interleave (generate_interleaved_map 1 7 1) = Some 1%nat.
Proof. reflexivity. Qed.

(** *** The generator never overwrites a slot *)

Lemma free_slots_replicate (n : nat) : free_slots (replicate n None) = n.
Proof. induction n; cbn; congruence. Qed.

Lemma free_slots_exists (slots : list (option Z)) :
  (0 < free_slots slots)%nat -> exists e, slots !! e = Some None.
Proof.
  induction slots as [|[v|] rest IH]; cbn [free_slots]; intros H.
  - lia.
  - destruct (IH H) as [e He]. by exists (S e).
  - by exists 0%nat.
Qed.

Lemma free_slots_insert (slots : list (option Z)) (p : nat) (id : Z) :
  slots !! p = Some None ->
  S (free_slots (<[p := Some id]> slots)) = free_slots slots.
Proof.
  revert p. induction slots as [|[v|] rest IH]; intros [|p] H; simplify_eq/=.
  - by rewrite IH.
  - done.
  - by rewrite IH.
Qed.

Lemma skip_filled_free (fuel : nat) (slots : list (option Z)) (pos : nat) :
  (pos < length slots)%nat ->
  (exists d, (d < fuel)%nat /\ slots !! ((pos + d) mod length slots)%nat = Some None) ->
  slots !! skip_filled fuel slots pos = Some None.
Proof.
  revert pos. induction fuel as [|fuel IH]; intros pos Hpos (d & Hd & He); [lia|].
  cbn [skip_filled].
  destruct (slots !! pos) as [[v|]|] eqn:E.
  - apply IH.
    + apply Nat.mod_upper_bound. lia.
    + destruct d as [|d].
      * rewrite Nat.add_0_r, Nat.mod_small in He by done. congruence.
      * exists d. split; [lia|].
        rewrite Nat.Div0.add_mod_idemp_l.
        by replace (S pos + d)%nat with (pos + S d)%nat by lia.
  - done.
  - apply lookup_ge_None in E. lia.
Qed.

Lemma skip_filled_ok (slots : list (option Z)) (pos : nat) :
  (0 < free_slots slots)%nat -> (pos < length slots)%nat ->
  slots !! skip_filled (length slots) slots pos = Some None.
Proof.
  intros Hfree Hpos. apply skip_filled_free; [done|].
  destruct (free_slots_exists _ Hfree) as [e He].
  pose proof (lookup_lt_Some _ _ _ He) as Hlt.
  exists ((e + length slots - pos) mod length slots)%nat. split.
  - apply Nat.mod_upper_bound. lia.
  - rewrite Nat.Div0.add_mod_idemp_r.
    replace (pos + (e + length slots - pos))%nat with (e + 1 * length slots)%nat by lia.
    rewrite Nat.Div0.mod_add, Nat.mod_small by done. done.
Qed.

Lemma length_place_ids (n factor : nat) (id : Z) (pos : nat) (slots : list (option Z)) :
  length (place_ids n factor id pos slots) = length slots.
Proof.
  revert id pos slots. induction n as [|n IH]; intros id pos slots; cbn [place_ids]; [done|].
  by rewrite IH, length_insert.
Qed.

(** A filled slot is left alone as long as free slots remain for the
    IDs still to be placed. *)
Lemma place_ids_keeps (n factor : nat) (id : Z) (pos : nat) (slots : list (option Z))
    (i : nat) (v : Z) :
  (n <= free_slots slots)%nat -> (pos < length slots)%nat ->
  slots !! i = Some (Some v) ->
  place_ids n factor id pos slots !! i = Some (Some v).
Proof.
  revert id pos slots. induction n as [|n IH]; intros id pos slots Hn Hpos Hi;
    cbn [place_ids]; [done|].
  pose proof (skip_filled_ok slots pos ltac:(lia) Hpos) as Hp.
  apply IH.
  - pose proof (free_slots_insert slots _ id Hp). lia.
  - rewrite length_insert. apply Nat.mod_upper_bound. lia.
  - rewrite list_lookup_insert_ne; [done|]. intros Heq. congruence.
Qed.

(** Whatever is written by a run starting at [id] is at least [id]. *)
Lemma place_ids_ge (n factor : nat) (id : Z) (pos : nat) (slots : list (option Z))
    (i : nat) (v : Z) :
  place_ids n factor id pos slots !! i = Some (Some v) ->
  slots !! i = Some (Some v) \/ id <= v.
Proof.
  revert id pos slots. induction n as [|n IH]; intros id pos slots; cbn [place_ids];
    [by left|].
  intros H. apply IH in H as [H|H]; [|right; lia].
  destruct (decide (skip_filled (length slots) slots pos = i)) as [Heq|Hne].
  - rewrite Heq in H. destruct (decide (i < length slots)%nat).
    + rewrite list_lookup_insert_eq in H by done. right. simplify_eq. lia.
    + rewrite list_insert_ge in H by lia. by left.
  - rewrite list_lookup_insert_ne in H by done. by left.
Qed.

Lemma length_generate (sector_count factor : nat) (base_id : Z) :
  length (generate_interleaved_map sector_count factor base_id) = sector_count.
Proof.
  unfold generate_interleaved_map.
  by rewrite length_fmap, length_place_ids, length_replicate.
Qed.

(** The slots after the first two placements. *)
Lemma place_ids_two (n factor : nat) (base_id : Z) :
  (1 <= factor < S (S n))%nat ->
  place_ids (S (S n)) factor base_id 0 (replicate (S (S n)) None) =
  place_ids n factor (base_id + 1 + 1) ((factor + factor) mod S (S n))
    (<[factor := Some (base_id + 1)]> (<[0%nat := Some base_id]> (replicate (S (S n)) None))).
Proof.
  intros Hf.
  assert (H0 : skip_filled (length (replicate (S (S n)) (@None Z)))
                  (replicate (S (S n)) None) 0 = 0%nat) by reflexivity.
  cbn [place_ids]. rewrite H0.
  rewrite !length_insert, !length_replicate.
  rewrite Nat.add_0_l, (Nat.mod_small factor) by lia.
  assert (H1 : skip_filled (S (S n)) (<[0%nat := Some base_id]> (replicate (S (S n)) None))
                 factor = factor).
  { cbn [skip_filled].
    rewrite list_lookup_insert_ne by lia.
    rewrite lookup_replicate_2 by lia. done. }
  rewrite H1. done.
Qed.

(** The second ID sits [factor] slots after the first. *)
Lemma generate_second_id (sector_count factor : nat) (base_id : Z) :
  (1 <= factor < sector_count)%nat ->
  generate_interleaved_map sector_count factor base_id !! factor = Some (base_id + 1).
Proof.
  intros Hf. destruct sector_count as [|[|n]]; [lia|lia|].
  unfold generate_interleaved_map. rewrite place_ids_two by done.
  rewrite list_lookup_fmap.
  erewrite place_ids_keeps; [done| | |].
  - pose proof (free_slots_insert (replicate (S (S n)) None) 0%nat base_id eq_refl) as F0.
    assert (F1 : <[0%nat := Some base_id]> (replicate (S (S n)) None) !! factor = Some None).
    { rewrite list_lookup_insert_ne by lia. apply lookup_replicate_2. lia. }
    apply (free_slots_insert _ _ (base_id + 1)) in F1.
    rewrite free_slots_replicate in F0. lia.
  - rewrite !length_insert, length_replicate. apply Nat.mod_upper_bound. lia.
  - apply list_lookup_insert_eq. rewrite length_insert, length_replicate. lia.
Qed.

Lemma generate_second_id_unique (sector_count factor g : nat) (base_id : Z) :
  (1 <= factor < sector_count)%nat -> (1 <= g)%nat -> g <> factor -> base_id + 1 <> 0 ->
  generate_interleaved_map sector_count factor base_id !! g <> Some (base_id + 1).
Proof.
  intros Hf Hg Hne Hb. destruct sector_count as [|[|n]]; [lia|lia|].
  unfold generate_interleaved_map. rewrite place_ids_two by done.
  rewrite list_lookup_fmap.
  destruct (place_ids _ _ _ _ _ !! g) as [[v|]|] eqn:E; cbn; [|intros [= H]; lia|done].
  - apply place_ids_ge in E as [E|E]; [|intros [= ->]; lia].
    rewrite !list_lookup_insert_ne in E by lia.
    apply lookup_replicate in E as [? _]. done.
Qed.

(** *** Factors that give the same map *)

(** Only the factor modulo the number of slots matters. *)
Lemma place_ids_mod (n factor : nat) (id : Z) (pos : nat) (slots : list (option Z)) :
  place_ids n factor id pos slots = place_ids n (factor mod length slots) id pos slots.
Proof.
  revert id pos slots. induction n as [|n IH]; intros id pos slots; cbn [place_ids]; [done|].
  rewrite IH, !length_insert. by rewrite Nat.Div0.add_mod_idemp_r.
Qed.

Lemma generate_mod (sector_count factor : nat) (base_id : Z) :
  generate_interleaved_map sector_count factor base_id
  = generate_interleaved_map sector_count (factor mod sector_count) base_id.
Proof.
  unfold generate_interleaved_map. rewrite place_ids_mod.
  by rewrite length_replicate.
Qed.

(** The slots when the first [j] of them hold the IDs from [base_id]
    on, in order. *)
Lemma insert_next_slot (j n : nat) (base_id : Z) :
  (j < n)%nat ->
  <[j := Some (base_id + Z.of_nat j)]>
    ((Some <$> ((fun i => base_id + Z.of_nat i) <$> seq 0 j)) ++ replicate (n - j) None)
  = (Some <$> ((fun i => base_id + Z.of_nat i) <$> seq 0 (S j))) ++ replicate (n - S j) None.
Proof.
  intros Hj. rewrite seq_S, !fmap_app, <- app_assoc. cbn [fmap list_fmap app Nat.add].
  replace (n - j)%nat with (S (n - S j)) by lia. cbn [replicate].
  rewrite insert_app_r_alt by (rewrite !length_fmap, length_seq; lia).
  rewrite !length_fmap, length_seq, Nat.sub_diag. done.
Qed.

Lemma skip_filled_next_slot (j n pos : nat) (base_id : Z) :
  (j < n)%nat -> pos = j \/ S pos = j ->
  skip_filled n
    ((Some <$> ((fun i => base_id + Z.of_nat i) <$> seq 0 j)) ++ replicate (n - j) None) pos
  = j.
Proof.
  intros Hj Hpos.
  set (slots := (Some <$> ((fun i => base_id + Z.of_nat i) <$> seq 0 j))
                ++ replicate (n - j) None).
  assert (Hlen : length slots = n).
  { unfold slots. rewrite length_app, !length_fmap, length_seq, length_replicate. lia. }
  assert (Hfree : slots !! j = Some (@None Z)).
  { unfold slots. rewrite lookup_app_r by (rewrite !length_fmap, length_seq; lia).
    rewrite !length_fmap, length_seq, Nat.sub_diag. apply lookup_replicate_2. lia. }
  destruct n as [|n]; [lia|]. cbn [skip_filled].
  destruct Hpos as [->| <-]; [by rewrite Hfree|].
  assert (Hfilled : slots !! pos = Some (Some (base_id + Z.of_nat pos))).
  { unfold slots. rewrite lookup_app_l by (rewrite !length_fmap, length_seq; lia).
    rewrite !list_lookup_fmap, lookup_seq_lt by lia. done. }
  rewrite Hfilled, Hlen, Nat.mod_small by lia.
  destruct n as [|n]; [done|]. cbn [skip_filled]. by rewrite Hfree.
Qed.

(** With a step of 0 or 1 the IDs are placed in sequence. *)
Lemma place_ids_sequential (factor m j n pos : nat) (base_id : Z) :
  (factor <= 1)%nat -> (j + m = n)%nat ->
  (j = 0%nat -> pos = 0%nat) ->
  (0 < j < n -> pos = j \/ S pos = j)%nat ->
  place_ids m factor (base_id + Z.of_nat j) pos
    ((Some <$> ((fun i => base_id + Z.of_nat i) <$> seq 0 j)) ++ replicate (n - j) None)
  = Some <$> ((fun i => base_id + Z.of_nat i) <$> seq 0 n).
Proof.
  intros Hf. revert j pos. induction m as [|m IH]; intros j pos Hn H0 Hpos; cbn [place_ids].
  { replace j with n by lia. by rewrite Nat.sub_diag, app_nil_r. }
  assert (Hlen : length ((Some <$> ((fun i => base_id + Z.of_nat i) <$> seq 0 j))
                         ++ replicate (n - j) (@None Z)) = n).
  { rewrite length_app, !length_fmap, length_seq, length_replicate. lia. }
  rewrite Hlen, skip_filled_next_slot; [|lia|].
  2: { destruct j as [|j]; [left; by apply H0|apply Hpos; lia]. }
  rewrite insert_next_slot by lia.
  replace (base_id + Z.of_nat j + 1) with (base_id + Z.of_nat (S j)) by lia.
  apply IH; [lia|lia|]. intros Hj. rewrite Nat.mod_small by lia. lia.
Qed.

Lemma generate_sequential (sector_count factor : nat) (base_id : Z) :
  (factor <= 1)%nat ->
  generate_interleaved_map sector_count factor base_id
  = (fun i => base_id + Z.of_nat i) <$> seq 0 sector_count.
Proof.
  intros Hf. unfold generate_interleaved_map.
  pose proof (place_ids_sequential factor sector_count 0 sector_count 0 base_id Hf) as H.
  cbn [seq fmap list_fmap app] in H. rewrite Nat.sub_0_r, Z.add_0_r in H.
  rewrite H by (try done; lia).
  generalize ((fun i => base_id + Z.of_nat i) <$> seq 0 sector_count). intros l.
  induction l as [|x l IH]; cbn; [done|]. by rewrite IH.
Qed.

(** *** The analyzer inverts the generator *)

Lemma find_seq_least (f : nat -> bool) (start len x : nat) :
  (start <= x < start + len)%nat -> f x = true ->
  (forall y, (start <= y < x)%nat -> f y = false) ->
  find f (seq start len) = Some x.
Proof.
  revert start. induction len as [|len IH]; intros start Hx Hfx Hlt; [lia|].
  cbn [seq find]. destruct (decide (start = x)) as [->|Hne].
  - by rewrite Hfx.
  - rewrite Hlt by lia. apply IH; [lia|done|]. intros y Hy. apply Hlt. lia.
Qed.

(** Every factor below the sector count is recovered from its own
    map, and so is factor 1 for a single sector. *)
Lemma calculate_generate (sector_count factor : nat) :
  (1 <= factor < Nat.max 2 sector_count)%nat -> (1 <= sector_count)%nat ->
  calculate_best_interleave (generate_interleaved_map sector_count factor 1)
    = Some factor.
Proof.
  intros Hf Hn. unfold calculate_best_interleave. rewrite length_generate.
  apply find_seq_least; [lia|by apply bool_decide_eq_true|].
  intros g Hg. apply bool_decide_eq_false. intros Heq.
  pose proof (generate_second_id sector_count g 1 ltac:(lia)) as H2.
  rewrite Heq in H2. revert H2. apply generate_second_id_unique; [lia|lia|lia|done].
Qed.

(** The factor found for a generated map, whatever factor it was
    generated with. *)
Lemma calculate_generate_any (sector_count factor : nat) :
  (1 <= sector_count)%nat ->
  calculate_best_interleave (generate_interleaved_map sector_count factor 1)
  = Some (if (factor mod sector_count =? 0)%nat then 1%nat
          else (factor mod sector_count)%nat).
Proof.
  intros Hn. rewrite generate_mod.
  pose proof (Nat.mod_upper_bound factor sector_count ltac:(lia)) as Hlt.
  destruct (Nat.eqb_spec (factor mod sector_count) 0) as [->|Hne].
  - rewrite (generate_sequential _ 0) by lia.
    rewrite <- (generate_sequential sector_count 1) by lia.
    apply calculate_generate; lia.
  - apply calculate_generate; lia.
Qed.

(** C2: for 1, 10 and 26 sectors and the factors 1, 2, 3 and 7 the
    analyzer returns the factor the map was generated with, or 1 when
    that factor is not below the sector count.  In general, for every
    sector count and every factor, it returns the factor reduced
    modulo the sector count (1 for a multiple of it), which is the
    smallest factor the generator turns into the same map: the
    analyzer inverts the generator on every map the generator
    produces. *)
Theorem interleave_round_trip (sector_count factor : nat) :
  In sector_count [1; 10; 26]%nat -> In factor [1; 2; 3; 7]%nat ->
  calculate_best_interleave (generate_interleaved_map sector_count factor 1)
    = Some (if (factor <? sector_count)%nat then factor else 1%nat) /\
  (forall n f : nat, (1 <= n)%nat ->
     exists k,
       calculate_best_interleave (generate_interleaved_map n f 1) = Some k /\
       k = (if (f mod n =? 0)%nat then 1%nat else (f mod n)%nat) /\
       generate_interleaved_map n k 1 = generate_interleaved_map n f 1 /\
       forall g, (1 <= g < k)%nat ->
         generate_interleaved_map n g 1 <> generate_interleaved_map n f 1).
Proof.
  intros Hsc Hf. split.
  - rewrite calculate_generate_any
      by (destruct Hsc as [<-|[<-|[<-|[]]]]; lia).
    destruct Hsc as [<-|[<-|[<-|[]]]]; destruct Hf as [<-|[<-|[<-|[<-|[]]]]]; reflexivity.
  - intros n f Hn. eexists. split; [by apply calculate_generate_any|]. split; [done|].
    pose proof (Nat.mod_upper_bound f n ltac:(lia)) as Hlt.
    assert (Hsame : generate_interleaved_map n
                      (if (f mod n =? 0)%nat then 1%nat else (f mod n)%nat) 1
                    = generate_interleaved_map n f 1).
    { rewrite (generate_mod n f).
      destruct (Nat.eqb_spec (f mod n) 0) as [->|Hne]; [|done].
      by rewrite (generate_sequential n 1), (generate_sequential n 0) by lia. }
    split; [done|]. intros g Hg Heq.
    destruct (Nat.eqb_spec (f mod n) 0) as [E|Hne]; [lia|].
    rewrite <- Hsame in Heq.
    pose proof (generate_second_id n g 1 ltac:(lia)) as H2.
    rewrite Heq in H2. revert H2. apply generate_second_id_unique; [lia|lia|lia|done].
Qed.

Lemma interleave_round_trip_witness :
  calculate_best_interleave (generate_interleaved_map 10 7 1)
    = Some (if (7 <? 10)%nat then 7%nat else 1%nat) /\
  (forall n f : nat, (1 <= n)%nat ->
     exists k,
       calculate_best_interleave (generate_interleaved_map n f 1) = Some k /\
       k = (if (f mod n =? 0)%nat then 1%nat else (f mod n)%nat) /\
       generate_interleaved_map n k 1 = generate_interleaved_map n f 1 /\
       forall g, (1 <= g < k)%nat ->
         generate_interleaved_map n g 1 <> generate_interleaved_map n f 1).
Proof.
  apply (interleave_round_trip 10 7).
  - simpl. right. left. reflexivity.
  - simpl. right. right. right. left. reflexivity.
Defined.

End Interleave.

(** ** Adding missing sectors in imdu *)

Section AddMissing.
Import libimd imdu.

Implicit Types (used : list bool) (t : ImdTrackInfo).

(** *** The table of used IDs *)

Lemma length_mark_used used (id : Z) : length (mark_used used id) = length used.
Proof. unfold mark_used. destruct (id <? 256); [apply length_insert|done]. Qed.

Lemma mark_used_lookup used (id c : Z) :
  0 <= id < 256 -> 0 <= c -> length used = 256%nat ->
  mark_used used id !! Z.to_nat c = Some true <->
  c = id \/ used !! Z.to_nat c = Some true.
Proof.
  intros Hid Hc Hlen. unfold mark_used.
  destruct (id <? 256) eqn:E; [|apply Z.ltb_ge in E; lia].
  destruct (decide (c = id)) as [->|Hne].
  - rewrite list_lookup_insert_eq by lia. tauto.
  - rewrite list_lookup_insert_ne by lia. split; [tauto|]. intros [?|?]; done.
Qed.

Lemma foldl_mark_used used (ids : list Z) :
  length used = 256%nat -> Forall (fun id => 0 <= id < 256) ids ->
  length (foldl mark_used used ids) = 256%nat /\
  forall c, 0 <= c ->
    foldl mark_used used ids !! Z.to_nat c = Some true <->
    used !! Z.to_nat c = Some true \/ c ∈ ids.
Proof.
  revert used. induction ids as [|id ids IH]; intros used Hlen Hids; cbn [foldl].
  - split; [done|]. intros c _. split; [tauto|]. intros [?|H]; [done|]. by apply elem_of_nil in H.
  - inversion_clear Hids as [|? ? Hid Hids'].
    destruct (IH (mark_used used id)) as [IHlen IHc];
      [by rewrite length_mark_used|done|].
    split; [done|]. intros c Hc.
    rewrite IHc, mark_used_lookup, elem_of_cons by done. tauto.
Qed.

(** Fewer than 256 sectors cannot use up all 256 IDs. *)
Lemma some_id_unused used (ids : list Z) :
  (forall c, 0 <= c < 256 -> used !! Z.to_nat c = Some true -> c ∈ ids) ->
  (length ids < 256)%nat ->
  ~ (forall c, 0 <= c < 256 -> used !! Z.to_nat c = Some true).
Proof.
  intros Hin Hlen Hall.
  assert (Hsub : seqZ 0 256 ⊆+ ids).
  { apply NoDup_submseteq; [apply NoDup_seqZ|].
    intros c Hc. apply elem_of_seqZ in Hc. apply Hin; [lia|]. apply Hall. lia. }
  apply submseteq_length in Hsub. rewrite length_seqZ in Hsub. lia.
Qed.

(** The search stops at the first unused ID at or after the candidate. *)
Lemma find_unused_stops (fuel : nat) used (cand : Z) :
  0 <= cand < 256 -> 256 - cand <= Z.of_nat fuel ->
  ~ (forall c, cand <= c < 256 -> used !! Z.to_nat c = Some true) ->
  exists c, find_unused fuel used cand = Some c /\ cand <= c < 256 /\
            used !! Z.to_nat c <> Some true /\
            forall c', cand <= c' < c -> used !! Z.to_nat c' = Some true.
Proof.
  revert cand. induction fuel as [|fuel IH]; intros cand Hc Hfuel Hfree; [lia|].
  cbn [find_unused].
  destruct (cand <? 256) eqn:Elt; [|apply Z.ltb_ge in Elt; lia]. cbn [andb].
  destruct (used !! Z.to_nat cand) as [[|]|] eqn:E; cbn [default].
  - assert (Hlast : cand < 255).
    { destruct (decide (cand = 255)) as [->|]; [|lia]. exfalso. apply Hfree.
      intros c ?. by replace c with 255 by lia. }
    rewrite Z.mod_small by lia.
    destruct (IH (cand + 1)) as (c & Hfind & Hrange & Hun & Hbelow); [lia|lia| |].
    + intros Hall. apply Hfree. intros c ?.
      destruct (decide (c = cand)) as [->|]; [done|]. apply Hall. lia.
    + exists c. repeat split; [done|lia|lia|done|].
      intros c' ?. destruct (decide (c' = cand)) as [->|]; [done|]. apply Hbelow. lia.
  - exists cand. repeat split; [lia|lia|congruence|]. intros c' ?. lia.
  - exists cand. repeat split; [lia|lia|congruence|]. intros c' ?. lia.
Qed.

(** *** The appending loop *)

Lemma filled_from_refl (lo : nat) (P : Z -> Prop) (arr : list Z) :
  filled_from lo lo P arr arr.
Proof. repeat split. intros i ?. lia. Qed.

Lemma filled_from_step (lo hi : nat) (P P' : Z -> Prop) (arr arr1 arr' : list Z) (x : Z) :
  length arr1 = length arr -> take lo arr1 = take lo arr ->
  arr1 !! lo = Some x -> P x -> (forall y, P' y -> P y) ->
  filled_from (S lo) hi P' arr1 arr' ->
  filled_from lo hi P arr arr'.
Proof.
  intros Hlen Htake Hx HP Himp (Hlen' & Htake' & Hfill).
  assert (Hlo : take lo arr' = take lo arr1).
  { apply (f_equal (take lo)) in Htake'.
    rewrite !take_take, Nat.min_l in Htake' by lia. done. }
  repeat split; [congruence|congruence|].
  intros i Hi. destruct (decide (i = lo)) as [->|Hne].
  - exists x. split; [|done].
    rewrite <- (lookup_take_lt arr' (S lo) lo), Htake', lookup_take_lt by lia. done.
  - destruct (Hfill i) as (y & ? & ?); [lia|]. exists y. split; [done|]. by apply Himp.
Qed.

Lemma take_S_insert (l : list Z) (i : nat) (x : Z) :
  (i < length l)%nat -> take (S i) (<[i := x]> l) = take i l ++ [x].
Proof.
  intros Hi. rewrite (take_S_r _ _ x) by (by apply list_lookup_insert_eq).
  by rewrite take_insert_ge.
Qed.

Lemma append_missing_spec (max_spt : Z) (n : nat) t used (cand idx : Z) :
  length (smap t) = Z.to_nat max_spt -> length (cmap t) = Z.to_nat max_spt ->
  length (hmap t) = Z.to_nat max_spt -> length (sflag t) = Z.to_nat max_spt ->
  0 <= idx <= max_spt -> idx + Z.of_nat n <= 255 ->
  length used = 256%nat -> 0 <= cand < 256 ->
  (forall c, 0 <= c < 256 ->
     used !! Z.to_nat c = Some true <-> c ∈ take (Z.to_nat idx) (smap t)) ->
  (forall c, 0 <= c < cand -> used !! Z.to_nat c = Some true) ->
  exists t' idx',
    append_missing max_spt n t used cand idx = Some (t', idx') /\
    idx <= idx' <= idx + Z.of_nat n /\ idx' <= max_spt /\
    same_geometry t t' /\ data t' = data t /\ data_size t' = data_size t /\
    (NoDup (take (Z.to_nat idx) (smap t)) -> NoDup (take (Z.to_nat idx') (smap t'))) /\
    filled_from (Z.to_nat idx) (Z.to_nat idx')
      (fun id => 0 <= id < 256 /\ id ∉ take (Z.to_nat idx) (smap t))
      (smap t) (smap t') /\
    filled_from (Z.to_nat idx) (Z.to_nat idx')
      (fun f => f = IMD_SDR_UNAVAILABLE) (sflag t) (sflag t') /\
    filled_from (Z.to_nat idx) (Z.to_nat idx')
      (fun x => Z.land (hflag t) IMD_HFLAG_CMAP_PRES <> 0 -> x = cyl t)
      (cmap t) (cmap t') /\
    filled_from (Z.to_nat idx) (Z.to_nat idx')
      (fun x => Z.land (hflag t) IMD_HFLAG_HMAP_PRES <> 0 -> x = head t)
      (hmap t) (hmap t').
Proof.
  revert t used cand idx.
  induction n as [|n IH];
    intros t used cand idx Ls Lc Lh Lf Hidx Hn Lu Hcand Hused Hbelow.
  { exists t, idx. cbn [append_missing].
    repeat split; try done; try lia; intros i ?; lia. }
  cbn [append_missing]. destruct (max_spt <=? idx) eqn:Emax.
  { exists t, idx. repeat split; try done; try lia; intros i ?; lia. }
  apply Z.leb_gt in Emax.
  assert (Hlen : (length (take (Z.to_nat idx) (smap t)) < 256)%nat).
  { rewrite length_take. lia. }
  destruct (find_unused_stops 257 used cand) as (c & Hfind & Hc & Hun & Hbelow');
    [done|lia| |].
  { intros Hall. apply (some_id_unused used _ (fun c Hc => proj1 (Hused c Hc)) Hlen).
    intros c ?. destruct (decide (c < cand)); [apply Hbelow|apply Hall]; lia. }
  rewrite Hfind. destruct (256 <=? c) eqn:Ec; [apply Z.leb_le in Ec; lia|].
  rewrite Z.mod_small by lia.
  assert (Hfresh : c ∉ take (Z.to_nat idx) (smap t)).
  { intros Hin. apply Hun. apply Hused; [lia|done]. }
  assert (Hi : (Z.to_nat idx < Z.to_nat max_spt)%nat) by lia.
  destruct (IH (set_added_sector t idx c) (mark_used used c) c (idx + 1))
    as (t' & idx' & Hrun & Hidx' & Hmax & Hgeo & Hdata & Hsize & Hnd & Fs & Ff & Fc & Fh).
  - cbn. by rewrite length_insert.
  - cbn. destruct (negb _); by rewrite ?length_insert.
  - cbn. destruct (negb _); by rewrite ?length_insert.
  - cbn. by rewrite length_insert.
  - lia.
  - lia.
  - by rewrite length_mark_used.
  - lia.
  - intros c' Hc'. cbn [smap set_added_sector].
    replace (Z.to_nat (idx + 1)) with (S (Z.to_nat idx)) by lia.
    rewrite take_S_insert, mark_used_lookup, elem_of_app, list_elem_of_singleton, Hused
      by (done || lia). tauto.
  - intros c' Hc'. apply mark_used_lookup; [lia|lia|done|]. right.
    destruct (decide (c' < cand)); [apply Hbelow|apply Hbelow']; lia.
  - replace (Z.to_nat (idx + 1)) with (S (Z.to_nat idx)) in * by lia.
    destruct Hgeo as (Gm & Gc & Gh & Gf & Gsc & Gs & Gl). cbn in Gm, Gc, Gh, Gf, Gsc, Gs, Gl.
    exists t', idx'. split; [done|]. split; [lia|]. split; [done|].
    split; [by repeat split|]. split; [done|]. split; [done|].
    cbn [smap cmap hmap sflag hflag cyl head set_added_sector] in Hnd, Fs, Ff, Fc, Fh.
    split.
    { intros Hnodup. apply Hnd.
      rewrite take_S_insert by lia. apply list.NoDup_app. split; [done|]. split.
      + intros x Hx Hx'. apply list_elem_of_singleton in Hx'. by subst.
      + apply NoDup_singleton. }
    split; [|split; [|split]].
    + eapply (filled_from_step _ _ _ _ _ _ _ c); [..|exact Fs].
      * apply length_insert.
      * by apply take_insert_ge.
      * apply list_lookup_insert_eq. lia.
      * split; [lia|done].
      * intros y [? Hy]. split; [done|]. intros Hin. apply Hy.
        rewrite take_S_insert by lia. apply elem_of_app. by left.
    + eapply (filled_from_step _ _ _ _ _ _ _ IMD_SDR_UNAVAILABLE); [..|exact Ff].
      * apply length_insert.
      * by apply take_insert_ge.
      * apply list_lookup_insert_eq. lia.
      * done.
      * done.
    + destruct (negb (Z.land (hflag t) IMD_HFLAG_CMAP_PRES =? 0)) eqn:E.
      * eapply (filled_from_step _ _ _ _ _ _ _ (cyl t)); [..|exact Fc];
          [apply length_insert|by apply take_insert_ge
          |apply list_lookup_insert_eq; lia|done|done].
      * apply negb_false_iff, Z.eqb_eq in E.
        destruct (lookup_lt_is_Some_2 (cmap t) (Z.to_nat idx)) as [x Hx]; [lia|].
        eapply (filled_from_step _ _ _ _ _ _ _ x); [..|exact Fc]; done.
    + destruct (negb (Z.land (hflag t) IMD_HFLAG_HMAP_PRES =? 0)) eqn:E.
      * eapply (filled_from_step _ _ _ _ _ _ _ (head t)); [..|exact Fh];
          [apply length_insert|by apply take_insert_ge
          |apply list_lookup_insert_eq; lia|done|done].
      * apply negb_false_iff, Z.eqb_eq in E.
        destruct (lookup_lt_is_Some_2 (hmap t) (Z.to_nat idx)) as [x Hx]; [lia|].
        eapply (filled_from_step _ _ _ _ _ _ _ x); [..|exact Fh]; done.
Qed.

(** *** The whole block *)

Lemma track_ok_inv (max_spt : Z) t :
  track_ok max_spt t = true ->
  length (smap t) = Z.to_nat max_spt /\ length (cmap t) = Z.to_nat max_spt /\
  length (hmap t) = Z.to_nat max_spt /\ length (sflag t) = Z.to_nat max_spt /\
  0 <= num_sectors t <= max_spt /\ num_sectors t <= 255 /\
  Forall (fun id => 0 <= id < 256) (smap t).
Proof.
  unfold track_ok. rewrite !andb_true_iff, !Nat.eqb_eq, !Z.leb_le.
  intros [[[[[[[? ?] ?] ?] ?] ?] ?] Hall].
  repeat split; try done.
  apply Forall_forall. intros x Hx.
  pose proof (proj1 (forallb_forall _ _) Hall x (proj1 (list_elem_of_In _ _) Hx)) as Hb.
  apply andb_true_iff in Hb as [?%Z.leb_le ?%Z.ltb_lt]. lia.
Qed.

Lemma same_geometry_refl t : same_geometry t t.
Proof. by repeat split. Qed.

Lemma add_missing_post_unchanged (max_spt target : Z) t t' :
  0 <= num_sectors t <= max_spt ->
  num_sectors t' = num_sectors t -> same_geometry t t' ->
  smap t' = smap t -> sflag t' = sflag t -> cmap t' = cmap t -> hmap t' = hmap t ->
  add_missing_post max_spt target t t'.
Proof.
  intros Hns Hn Hg Hs Hf Hc Hh. unfold add_missing_post. rewrite Hn, Hs, Hf, Hc, Hh.
  split; [lia|]. split; [lia|]. split; [done|]. split; [done|].
  repeat split; intros i ?; lia.
Qed.

(** The block terminates on every loaded track and establishes
    [add_missing_post]. *)
Lemma add_missing_sectors_spec (max_spt : Z) (opts : Options) (realloc_ok : bool) t :
  track_ok max_spt t = true ->
  exists t',
    add_missing_sectors max_spt opts realloc_ok t = Some t' /\
    add_missing_post max_spt (add_missing_sectors_target opts mod 256) t t'.
Proof.
  intros Hok.
  destruct (track_ok_inv _ _ Hok) as (Ls & Lc & Lh & Lf & Hns & Hbyte & Hids).
  unfold add_missing_sectors.
  set (target := add_missing_sectors_target opts mod 256).
  assert (Htarget : 0 <= target < 256) by (apply Z.mod_pos_bound; lia).
  assert (Hsame : forall t', num_sectors t' = num_sectors t -> same_geometry t t' ->
            smap t' = smap t -> sflag t' = sflag t -> cmap t' = cmap t ->
            hmap t' = hmap t ->
            exists t'', Some t' = Some t'' /\ add_missing_post max_spt target t t'').
  { intros t' ? ? ? ? ? ?. exists t'. split; [done|].
    by apply add_missing_post_unchanged. }
  destruct (add_missing_sectors_active opts && (0 <? sector_size t)
            && (num_sectors t <? target)) eqn:Eact;
    [|apply Hsame; done || apply same_geometry_refl].
  apply andb_true_iff in Eact as [_ Hlt%Z.ltb_lt].
  set (total := if max_spt <? target then max_spt mod 256 else target).
  assert (Htotal : 0 <= total <= max_spt /\ total <= target).
  { subst total. destruct (max_spt <? target) eqn:E.
    - apply Z.ltb_lt in E. rewrite Z.mod_small by lia. lia.
    - apply Z.ltb_ge in E. lia. }
  destruct (num_sectors t <? total) eqn:Etot; cbn [Z.ltb];
    [|apply Hsame; done || apply same_geometry_refl].
  apply Z.ltb_lt in Etot.
  rewrite (Z.mod_small (total - num_sectors t)) by lia.
  destruct (0 <? total - num_sectors t) eqn:Epos;
    [|apply Hsame; done || apply same_geometry_refl].
  set (grow := (data_size t <? total * sector_size t)
               || bool_decide (data t = None) && (0 <? total * sector_size t)).
  set (new_data := Some (resize (Z.to_nat (total * sector_size t)) (fill_of opts)
                                (default [] (data t)))).
  assert (Hstop : forall d size,
            exists t'', Some (set_data t d size) = Some t'' /\
                        add_missing_post max_spt target t t'').
  { intros d size. apply Hsame; done || apply same_geometry_refl. }
  assert (Hrun : forall d size,
            exists t'',
              match append_missing max_spt (Z.to_nat (total - num_sectors t))
                      (set_data t d size)
                      (foldl mark_used (replicate 256 false)
                             (take (Z.to_nat (num_sectors t)) (smap t)))
                      0 (num_sectors t) with
              | Some (t2, idx) => Some (set_num_sectors t2 idx)
              | None => None
              end = Some t'' /\
              add_missing_post max_spt target t t'').
  { intros d size.
    destruct (foldl_mark_used (replicate 256 false)
                (take (Z.to_nat (num_sectors t)) (smap t)))
      as [Lu Hmark]; [apply length_replicate|by apply Forall_take|].
    destruct (append_missing_spec max_spt (Z.to_nat (total - num_sectors t))
                (set_data t d size)
                (foldl mark_used (replicate 256 false)
                       (take (Z.to_nat (num_sectors t)) (smap t)))
                0 (num_sectors t))
      as (t2 & idx & Happ & Hidx & Hmax & Hgeo & _ & _ & Hnd & Fs & Ff & Fc & Fh);
      [done|done|done|done|lia|lia|done|lia| |intros c ?; lia|].
    - intros c Hc. rewrite Hmark by lia. split; [|by right].
      intros [Hrep|?]; [|done]. apply lookup_replicate in Hrep as [? _]. done.
    - rewrite Happ. exists (set_num_sectors t2 idx). split; [done|].
      unfold add_missing_post. cbn.
      split; [lia|]. split; [lia|]. split; [exact Hgeo|]. done. }
  destruct grow, realloc_ok; cbn [andb];
    rewrite ?Epos; cbn [andb];
    try (destruct (bool_decide _); by (apply Hrun || apply Hstop)).
Qed.

(** C9: on a loaded track with a duplicate-free sector map the
    [--add-missing] block terminates; the cells it appends hold
    sector IDs absent from the map read, the unavailable flag, and
    the track's cylinder and head where those maps are present; the
    cells read are untouched; the new sector count does not exceed
    [LIBIMD_MAX_SECTORS_PER_TRACK]; and the sector map is still
    duplicate-free. *)
Theorem add_missing_keeps_ids_unique
    (max_spt : Z) (opts : Options) (realloc_ok : bool) t :
  track_ok max_spt t = true ->
  NoDup (take (Z.to_nat (num_sectors t)) (smap t)) ->
  exists t',
    add_missing_sectors max_spt opts realloc_ok t = Some t' /\
    num_sectors t <= num_sectors t' <= max_spt /\
    num_sectors t' <= Z.max (num_sectors t) (add_missing_sectors_target opts mod 256) /\
    same_geometry t t' /\
    NoDup (take (Z.to_nat (num_sectors t')) (smap t')) /\
    filled_from (Z.to_nat (num_sectors t)) (Z.to_nat (num_sectors t'))
      (fun id => 0 <= id < 256 /\ id ∉ take (Z.to_nat (num_sectors t)) (smap t))
      (smap t) (smap t') /\
    filled_from (Z.to_nat (num_sectors t)) (Z.to_nat (num_sectors t'))
      (fun f => f = IMD_SDR_UNAVAILABLE) (sflag t) (sflag t') /\
    filled_from (Z.to_nat (num_sectors t)) (Z.to_nat (num_sectors t'))
      (fun x => Z.land (hflag t) IMD_HFLAG_CMAP_PRES <> 0 -> x = cyl t)
      (cmap t) (cmap t') /\
    filled_from (Z.to_nat (num_sectors t)) (Z.to_nat (num_sectors t'))
      (fun x => Z.land (hflag t) IMD_HFLAG_HMAP_PRES <> 0 -> x = head t)
      (hmap t) (hmap t').
Proof.
  intros Hok Hnodup.
  destruct (add_missing_sectors_spec max_spt opts realloc_ok t Hok)
    as (t' & Hrun & Hn & Hmax & Hgeo & Hnd & Fs & Ff & Fc & Fh).
  exists t'. repeat (split; [done|]). split; [by apply Hnd|].
  repeat (split; [done|]). done.
Qed.

Example add_missing_short_track :
  add_missing_sectors 8 (samples.add_missing_opts 6) true samples.short_track =
  Some {| mode := 3; cyl := 5; head := 1; hflag := 0x80; num_sectors := 6;
          sector_size_code := 0; sector_size := 2;
          smap := [1; 0; 3; 2; 4; 5; 0; 0]; cmap := [5; 5; 5; 5; 5; 5; 0; 0];
          hmap := [0; 0; 0; 0; 0; 0; 0; 0]; sflag := [1; 1; 1; 0; 0; 0; 0; 0];
          data := Some [1; 2; 3; 4; 5; 6; 0xE5; 0xE5; 0xE5; 0xE5; 0xE5; 0xE5];
          data_size := 12; loaded := true |}.
Proof. vm_compute. reflexivity. Qed.

Lemma add_missing_keeps_ids_unique_witness :
  exists t',
    add_missing_sectors 8 (samples.add_missing_opts 6) true samples.short_track = Some t' /\
    3 <= num_sectors t' <= 8 /\
    num_sectors t' <= Z.max 3 (6 mod 256) /\
    same_geometry samples.short_track t' /\
    NoDup (take (Z.to_nat (num_sectors t')) (smap t')) /\
    filled_from (Z.to_nat 3) (Z.to_nat (num_sectors t'))
      (fun id => 0 <= id < 256 /\ id ∉ take (Z.to_nat 3) [1; 0; 3; 0; 0; 0; 0; 0])
      [1; 0; 3; 0; 0; 0; 0; 0] (smap t') /\
    filled_from (Z.to_nat 3) (Z.to_nat (num_sectors t'))
      (fun f => f = IMD_SDR_UNAVAILABLE) [1; 1; 1; 0; 0; 0; 0; 0] (sflag t') /\
    filled_from (Z.to_nat 3) (Z.to_nat (num_sectors t'))
      (fun x => Z.land 0x80 IMD_HFLAG_CMAP_PRES <> 0 -> x = 5)
      [5; 5; 5; 0; 0; 0; 0; 0] (cmap t') /\
    filled_from (Z.to_nat 3) (Z.to_nat (num_sectors t'))
      (fun x => Z.land 0x80 IMD_HFLAG_HMAP_PRES <> 0 -> x = 1)
      [0; 0; 0; 0; 0; 0; 0; 0] (hmap t').
Proof.
  apply (add_missing_keeps_ids_unique 8 (samples.add_missing_opts 6) true
           samples.short_track).
  - reflexivity.
  - apply (bool_decide_unpack _). vm_compute. exact I.
Defined.

End AddMissing.

(** ** The track loop of imdcmp *)

Section CompareLoop.
Import libimd imdcmp.

Lemma structure_bit_is_hard (d : Z) :
  (Z.land (Z.lor d C_DIFF_FILE_STRUCT) C_MASK_HARD_DIFF =? 0) = false.
Proof.
  apply Z.eqb_neq. intros H.
  apply (f_equal (fun z => Z.testbit z 8)) in H.
  rewrite Z.land_spec, Z.lor_spec in H. cbn in H.
  rewrite orb_true_r in H. discriminate.
Qed.

Lemma structure_bit_set (d : Z) :
  Z.testbit (Z.lor d C_DIFF_FILE_STRUCT) 8 = true.
Proof. rewrite Z.lor_spec. cbn. apply orb_true_r. Qed.

(** C8: at a turn of the track loop where one stream is at its clean
    end while the other yields a track, the loop ends within that turn,
    the structure bit is recorded, the only report added is the
    structure-mismatch warning (no load error), and the exit code is
    "files differ" (1), not the file-error code (5). *)
Theorem stream_end_is_structure_mismatch
    (max_spt : Z) (opts : Options) (s : state) (t : ImdTrackInfo)
    (rest : track_stream) (fuel : nat) :
  eof1 s = false -> eof2 s = false -> final_return_code s = EXIT_MATCH ->
  (fimd1 s = [] /\ fimd2 s = LoadTrack t :: rest) \/
  (fimd1 s = LoadTrack t :: rest /\ fimd2 s = []) ->
  exists s' ended,
    track_loop (S fuel) max_spt opts s = Some s' /\
    diff_flags s' = Z.lor (diff_flags s) C_DIFF_FILE_STRUCT /\
    Z.testbit (diff_flags s') 8 = true /\
    reports s' = reports s ++ [WarningStructureMismatch ended] /\
    final_return_code s' = EXIT_MATCH /\
    exit_code opts s' = EXIT_DIFF /\
    exit_code opts s' <> EXIT_FILE_ERROR.
Proof.
  intros He1 He2 Hrc Hends.
  destruct s as [f1 f2 t1 t2 e1 e2 d rc n log]. cbn in He1, He2, Hrc. subst e1 e2 rc.
  destruct Hends as [[Hf1 Hf2]|[Hf1 Hf2]]; cbn in Hf1, Hf2; subst f1 f2.
  - eexists _, 1%nat. cbn. repeat split.
    + apply structure_bit_set.
    + unfold exit_code. cbn. by rewrite structure_bit_is_hard.
    + unfold exit_code. cbn. by rewrite structure_bit_is_hard.
  - eexists _, 2%nat. cbn. repeat split.
    + apply structure_bit_set.
    + unfold exit_code. cbn. by rewrite structure_bit_is_hard.
    + unfold exit_code. cbn. by rewrite structure_bit_is_hard.
Qed.

Lemma stream_end_is_structure_mismatch_witness :
  exists s' ended,
    track_loop 1 8 samples.compare_opts
      (initial_state 8 [] [] [] [LoadTrack samples.short_track]) = Some s' /\
    diff_flags s'
      = Z.lor (diff_flags (initial_state 8 [] [] [] [LoadTrack samples.short_track]))
              C_DIFF_FILE_STRUCT /\
    Z.testbit (diff_flags s') 8 = true /\
    reports s' = [] ++ [WarningStructureMismatch ended] /\
    final_return_code s' = EXIT_MATCH /\
    exit_code samples.compare_opts s' = EXIT_DIFF /\
    exit_code samples.compare_opts s' <> EXIT_FILE_ERROR.
Proof.
  apply (stream_end_is_structure_mismatch 8 samples.compare_opts
           (initial_state 8 [] [] [] [LoadTrack samples.short_track])
           samples.short_track [] 0).
  - reflexivity.
  - reflexivity.
  - reflexivity.
  - left. split; reflexivity.
Defined.

(** *** Whole runs *)

Lemma sector_size_of_code_nonneg (code : Z) : 0 <= sector_size_of_code code.
Proof.
  unfold sector_size_of_code. destruct (code <? 0); [done|].
  destruct (_ !! _) as [x|] eqn:E; cbn; [|lia].
  apply list_elem_of_lookup_2 in E.
  repeat (apply elem_of_cons in E as [->|E]; [lia|]). by apply elem_of_nil in E.
Qed.

Lemma holds_sectors_mark_loaded (t : ImdTrackInfo) :
  holds_sectors (mark_loaded t) <-> holds_sectors t.
Proof. reflexivity. Qed.

(** The windows of the sectors of a track that holds them. *)
Lemma sector_window_defined (t : ImdTrackInfo) (i : nat) (size : Z) :
  holds_sectors t -> size = sector_size t -> (i < Z.to_nat (num_sectors t))%nat ->
  exists w, sector_window t i (Z.to_nat size) = Some w.
Proof.
  intros [Hss [Hn|(d & Hd & Hlen)]] -> Hi; [lia|].
  pose proof (sector_size_of_code_nonneg (sector_size_code t)) as Hpos.
  rewrite <- Hss in Hpos.
  unfold sector_window. rewrite Hd.
  destruct (Nat.leb_spec (i * Z.to_nat (sector_size t) + Z.to_nat (sector_size t))
              (length d)) as [_|Hgt]; [by eexists|].
  exfalso.
  assert (Z.of_nat (i * Z.to_nat (sector_size t) + Z.to_nat (sector_size t))
          = (Z.of_nat i + 1) * sector_size t) as Heq.
  { rewrite Nat2Z.inj_add, Nat2Z.inj_mul, Z2Nat.id by done. lia. }
  assert ((Z.of_nat i + 1) * sector_size t <= num_sectors t * sector_size t)
    by (apply Z.mul_le_mono_nonneg_r; lia).
  lia.
Qed.

(** The sector loop of two tracks, under a property [Q] of the bits of
    each sector and a property [P] of the accumulated flags. *)
Lemma compare_sectors_fold (P Q : Z -> Prop) (opts : Options) (t1 t2 : ImdTrackInfo)
    (l : list nat) (d : Z) :
  (forall i, i ∈ l -> exists bits, compare_sector opts t1 t2 i = Some bits /\ Q bits) ->
  (forall d bits, P d -> Q bits -> P (Z.lor d bits)) -> P d ->
  exists d',
    foldl (fun d i =>
             match d, compare_sector opts t1 t2 i with
             | Some d, Some bits => Some (Z.lor d bits)
             | _, _ => None
             end) (Some d) l = Some d' /\ P d'.
Proof.
  intros Hl Hor. revert d. induction l as [|i l IH]; intros d Hd; cbn [foldl].
  { by exists d. }
  destruct (Hl i) as (bits & -> & Hbits); [left|].
  apply IH; [|by apply Hor]. intros j Hj. apply Hl. by right.
Qed.

Lemma compare_sector_same (opts : Options) (t : ImdTrackInfo) (i : nat) :
  holds_sectors t -> (i < Z.to_nat (num_sectors t))%nat ->
  compare_sector opts t t i = Some 0.
Proof.
  intros Ht Hi. unfold compare_sector.
  destruct (sector_window_defined t i (sector_size t) Ht eq_refl Hi) as [w ->].
  rewrite bool_decide_eq_true_2 by done. by rewrite Z.eqb_refl.
Qed.

Lemma compare_tracks_same (opts : Options) (t : ImdTrackInfo) :
  holds_sectors t -> compare_tracks opts t t = Some 0.
Proof.
  intros Ht. unfold compare_tracks, memcmp_differs. rewrite !Z.eqb_refl. cbn [negb orb].
  rewrite !bool_decide_eq_true_2 by done. cbn [negb]. rewrite !andb_false_r.
  destruct (compare_sectors_fold (fun d => d = 0) (fun b => b = 0) opts t t
              (seq 0 (Z.to_nat (num_sectors t))) C_DIFF_NONE) as (d' & -> & ->);
    try done.
  - intros i Hi. apply elem_of_seq in Hi. exists 0. split; [|done].
    apply compare_sector_same; [done|lia].
  - by intros d bits -> ->.
Qed.

Lemma agreeing_prefix_then_end (max_spt : Z) (opts : Options)
    (ts : list ImdTrackInfo) (t : ImdTrackInfo) (rest : track_stream)
    (fuel : nat) (n : Z) :
  Forall holds_sectors ts -> (length ts < fuel)%nat ->
  exit_code opts <$>
    track_loop fuel max_spt opts
      (mkState (LoadTrack <$> ts) ((LoadTrack <$> ts) ++ LoadTrack t :: rest)
               (zero_track max_spt) (zero_track max_spt) false false
               C_DIFF_NONE EXIT_MATCH n [])
  = Some EXIT_DIFF.
Proof.
  intros Hts. revert fuel n.
  induction Hts as [|t0 ts Ht0 Hts IH]; intros fuel n Hfuel;
    (destruct fuel as [|fuel]; [cbn in Hfuel; lia|]).
  - cbn. unfold exit_code. cbn. done.
  - cbn in Hfuel. cbn -[compare_tracks exit_code].
    rewrite compare_tracks_same by done. cbn -[exit_code]. apply IH. lia.
Qed.

(** Two files with the same comment whose tracks agree until the first
    one ends: the run ends with exit code 1. *)
Lemma shorter_file_exits_with_diff (max_spt : Z) (opts : Options) (comment : list Z)
    (ts : list ImdTrackInfo) (t : ImdTrackInfo) (rest : track_stream) (fuel : nat) :
  Forall holds_sectors ts -> (length ts < fuel)%nat ->
  main_from_tracks fuel max_spt opts comment comment
    (LoadTrack <$> ts) ((LoadTrack <$> ts) ++ LoadTrack t :: rest) = Some EXIT_DIFF.
Proof.
  intros Hts Hfuel. unfold main_from_tracks, initial_state.
  rewrite bool_decide_eq_true_2 by done. cbn [negb].
  by apply agreeing_prefix_then_end.
Qed.

End CompareLoop.


(** ** The two-stream merge of imdu *)

Section MergeLoop.
Import libimd imdu imdu_runs.

Variable max_spt : Z.
Variables IMD_SIDE_0_MASK IMD_SIDE_1_MASK : Z.
Variable realloc_ok : ImdTrackInfo -> bool.
Variable write_ok : ImdTrackInfo -> bool.
Variable opts : Options.

Implicit Types (s : state) (t p m : ImdTrackInfo) (ps ms : list ImdTrackInfo).

(** *** Loading *)

Lemma track_ok_mark_loaded t : track_ok max_spt (mark_loaded t) = track_ok max_spt t.
Proof. reflexivity. Qed.

(** Splitting conjunctions only, not records. *)
Local Ltac conj_split := repeat match goal with |- _ /\ _ => split end; try done.

Lemma load_primary_spec s :
  loop_inv max_spt opts s ->
  (exists s1,
     load_primary s = inl s1 /\ loop_inv max_spt opts s1 /\
     pending_primary s1 = pending_primary s /\
     (loaded (primary_track s1) = false ->
      pending_primary s1 = [] /\ clean (fimd s) = true) /\
     clean (fimd s1) = clean (fimd s) /\
     fmerge s1 = fmerge s /\ merge_track s1 = merge_track s /\
     trace s1 = trace s /\ track_count s1 = track_count s) \/
  (exists s1,
     load_primary s = inr s1 /\ trace s1 = trace s /\ track_count s1 = track_count s /\
     clean (fimd s) = false).
Proof.
  intros Hinv. pose proof Hinv as [Hf Hm Hp Hmt Hpe Hme Hnm Hn].
  unfold load_primary, pending_primary, pending.
  destruct (primary_eof s) eqn:Eeof; cbn [negb andb].
  { destruct (Hpe eq_refl) as [Hnil Hl]. left. exists s. rewrite Hl, Hnil.
    by conj_split. }
  destruct (loaded (primary_track s)) eqn:El; cbn [negb].
  { left. exists s. rewrite El. conj_split; congruence. }
  destruct (fimd s) as [|[t|] rest] eqn:Ef; cbn.
  - left. eexists. split; [done|]. cbn. split; [|by conj_split].
    constructor; cbn; try done.
  - left. apply Forall_cons in Hf as [Ht Hf]. eexists. split; [done|]. cbn.
    split; [|by conj_split]. constructor; cbn; try done.
  - right. eexists. by conj_split.
Qed.

Lemma load_merge_spec s :
  loop_inv max_spt opts s ->
  (exists s1,
     load_merge opts s = inl s1 /\ loop_inv max_spt opts s1 /\
     pending_merge opts s1 = pending_merge opts s /\
     (loaded (merge_track s1) = false ->
      pending_merge opts s1 = [] /\
      (fmerge_open opts = true -> clean (fmerge s) = true)) /\
     clean (fmerge s1) = clean (fmerge s) /\
     fimd s1 = fimd s /\ primary_track s1 = primary_track s /\
     trace s1 = trace s /\ track_count s1 = track_count s) \/
  (exists s1,
     load_merge opts s = inr s1 /\ trace s1 = trace s /\ track_count s1 = track_count s /\
     fmerge_open opts = true /\ clean (fmerge s) = false).
Proof.
  intros Hinv. pose proof Hinv as [Hf Hm Hp Hmt Hpe Hme Hnm Hn].
  unfold load_merge, pending_merge, pending.
  destruct (fmerge_open opts) eqn:Eopen; cbn [andb].
  2: { left. exists s. rewrite (Hnm eq_refl). by conj_split. }
  destruct (merge_eof s) eqn:Eeof; cbn [negb andb].
  { destruct (Hme eq_refl) as [Hnil Hl]. left. exists s. rewrite Hl, Hnil.
    by conj_split. }
  destruct (loaded (merge_track s)) eqn:El; cbn [negb].
  { left. exists s. rewrite El. conj_split; congruence. }
  destruct (fmerge s) as [|[t|] rest] eqn:Ef; cbn.
  - left. eexists. split; [done|]. cbn. split; [|by conj_split].
    constructor; cbn; try done; congruence.
  - left. apply Forall_cons in Hm as [Ht Hm]. eexists. split; [done|]. cbn.
    split; [|by conj_split]. constructor; cbn; try done; congruence.
  - right. eexists. by conj_split.
Qed.

(** *** The plan *)

Lemma merge_plan_nil_l ms : merge_plan [] ms = (fun m => (Merge, m)) <$> ms.
Proof. by destruct ms. Qed.

Lemma merge_plan_nil_r ps : merge_plan ps [] = (fun p => (Primary, p)) <$> ps.
Proof. by destruct ps. Qed.

Lemma merge_plan_cons p ps m ms :
  merge_plan (p :: ps) (m :: ms) =
  if track_before p m then (Primary, p) :: merge_plan ps (m :: ms)
  else if track_before m p then (Merge, m) :: merge_plan (p :: ps) ms
  else (Primary, p) :: merge_plan ps ms.
Proof. reflexivity. Qed.

(** *** Choosing the track to process *)

Local Ltac solve_inv := constructor; cbn; try done; intuition congruence.

Lemma consumed_app (tr1 tr2 : list event) :
  consumed (tr1 ++ tr2) = consumed tr1 ++ consumed tr2.
Proof. apply omap_app. Qed.

Lemma written_app (tr1 tr2 : list event) :
  written (tr1 ++ tr2) = written tr1 ++ written tr2.
Proof. apply omap_app. Qed.

Lemma processed_app (tr1 tr2 : list event) :
  processed (tr1 ++ tr2) = processed tr1 ++ processed tr2.
Proof. apply omap_app. Qed.

Lemma select_track_spec s :
  loop_inv max_spt opts s ->
  (loaded (primary_track s) = false -> pending_primary s = []) ->
  (loaded (merge_track s) = false -> pending_merge opts s = []) ->
  match select_track max_spt s with
  | None => pending_primary s = [] /\ pending_merge opts s = []
  | Some (src, s3) =>
      track_ok max_spt (track_of src s3) = true /\
      consumed (trace s3) = consumed (trace s) /\
      processed (trace s3) = processed (trace s) /\
      written (trace s3) = written (trace s) /\
      track_count s3 = track_count s /\
      forall n st tr,
        0 <= n < 2 ^ 32 ->
        loop_inv max_spt opts (release max_spt src s3 n st tr) /\
        trace (release max_spt src s3 n st tr) = tr /\
        track_count (release max_spt src s3 n st tr) = n /\
        fimd (release max_spt src s3 n st tr) = fimd s /\
        fmerge (release max_spt src s3 n st tr) = fmerge s /\
        merge_plan (pending_primary s) (pending_merge opts s) =
          (src, track_of src s3) ::
          merge_plan (pending_primary (release max_spt src s3 n st tr))
                     (pending_merge opts (release max_spt src s3 n st tr)) /\
        (length (pending_primary (release max_spt src s3 n st tr)) +
         length (pending_merge opts (release max_spt src s3 n st tr)) <
         length (pending_primary s) + length (pending_merge opts s))%nat
  end.
Proof.
  intros Hinv HP HM. pose proof Hinv as [Hf Hm Hp Hmt Hpe Hme Hnm Hn].
  unfold select_track.
  destruct (loaded (primary_track s)) eqn:Ep, (loaded (merge_track s)) eqn:Em;
    cbn [andb].
  - (* both loaded *)
    assert (Hopen : fmerge_open opts = true).
    { destruct (fmerge_open opts) eqn:E; [done|]. by specialize (Hnm eq_refl). }
    unfold pending_primary, pending_merge, pending in *. rewrite Hopen, Ep, Em.
    rewrite merge_plan_cons.
    destruct (track_before (primary_track s) (merge_track s)) eqn:Epm;
      [|destruct (track_before (merge_track s) (primary_track s)) eqn:Emp].
    + split; [by apply Hp|]. do 4 (split; [done|]). intros n st tr Hnn.
      split; [solve_inv|]. do 4 (split; [done|]). cbn. rewrite Em.
      split; [done|]. cbn. lia.
    + split; [by apply Hmt|]. do 4 (split; [done|]). intros n st tr Hnn.
      split; [solve_inv|]. do 4 (split; [done|]). cbn. rewrite Ep.
      split; [done|]. cbn. lia.
    + split; [by apply Hp|]. cbn [trace].
      rewrite consumed_app, written_app, processed_app. cbn. rewrite !app_nil_r.
      do 4 (split; [done|]). intros n st tr Hnn.
      split; [solve_inv|]. do 4 (split; [done|]). cbn. split; [done|]. lia.
  - (* only the primary track *)
    pose proof (HM eq_refl) as HMe.
    split; [by apply Hp|]. do 4 (split; [done|]). intros n st tr Hnn.
    split; [solve_inv|]. do 4 (split; [done|]).
    assert (HMe' : pending_merge opts (release max_spt Primary s n st tr) = []).
    { unfold pending_merge in *. by cbn. }
    rewrite HMe, HMe'. unfold pending_primary, pending. cbn. rewrite Ep.
    rewrite !merge_plan_nil_r. cbn. split; [done|]. lia.
  - (* only the merge track *)
    pose proof (HP eq_refl) as HPe.
    assert (Hopen : fmerge_open opts = true).
    { destruct (fmerge_open opts) eqn:E; [done|]. by specialize (Hnm eq_refl). }
    split; [by apply Hmt|]. do 4 (split; [done|]). intros n st tr Hnn.
    split; [solve_inv|]. do 4 (split; [done|]).
    assert (HPe' : pending_primary (release max_spt Merge s n st tr) = []).
    { unfold pending_primary in *. by cbn. }
    rewrite HPe, HPe'. unfold pending_merge, pending. cbn. rewrite Hopen, Em.
    rewrite !merge_plan_nil_l. cbn. split; [done|]. lia.
  - split; [by apply HP|by apply HM].
Qed.

(** *** Processing the chosen track *)

Lemma append_missing_cyl_head (n : nat) (t : ImdTrackInfo) (used : list bool)
    (cand idx : Z) (t' : ImdTrackInfo) (idx' : Z) :
  append_missing max_spt n t used cand idx = Some (t', idx') ->
  cyl t' = cyl t /\ head t' = head t.
Proof.
  revert t used cand idx. induction n as [|n IH]; intros t used cand idx;
    cbn [append_missing].
  { by intros [= <- <-]. }
  destruct (max_spt <=? idx); [by intros [= <- <-]|].
  destruct (find_unused 257 used cand) as [c|]; [|done].
  destruct (256 <=? c); [by intros [= <- <-]|].
  intros H. apply IH in H as [-> ->]. done.
Qed.

Lemma add_missing_cyl_head (ok : bool) (t t' : ImdTrackInfo) :
  add_missing_sectors max_spt opts ok t = Some t' ->
  cyl t' = cyl t /\ head t' = head t.
Proof.
  unfold add_missing_sectors. intros H.
  repeat case_match; simplify_eq; try done;
    match goal with
    | E : append_missing _ _ _ _ _ _ = Some _ |- _ =>
        apply append_missing_cyl_head in E as [E1 E2]; cbn in E1, E2 |- *; done
    end.
Qed.

Lemma excluded_cyl_head (t t' : ImdTrackInfo) :
  cyl t' = cyl t -> head t' = head t ->
  excluded IMD_SIDE_0_MASK IMD_SIDE_1_MASK opts t'
  = excluded IMD_SIDE_0_MASK IMD_SIDE_1_MASK opts t.
Proof. unfold excluded. by intros -> ->. Qed.

Lemma counted_track_key t t' :
  counted_track max_spt IMD_SIDE_0_MASK IMD_SIDE_1_MASK realloc_ok opts t = Some t' ->
  excluded IMD_SIDE_0_MASK IMD_SIDE_1_MASK opts t = false /\
  excluded IMD_SIDE_0_MASK IMD_SIDE_1_MASK opts t' = false /\
  track_key t' = track_key t.
Proof.
  unfold counted_track. destruct (excluded _ _ _ t) eqn:E; [done|]. intros H.
  apply add_missing_cyl_head in H as [Hc Hh]. split; [done|].
  split; [by rewrite (excluded_cyl_head t t')|]. unfold track_key. by rewrite Hc, Hh.
Qed.

Lemma written_track_counted t t' :
  written_track max_spt IMD_SIDE_0_MASK IMD_SIDE_1_MASK realloc_ok write_ok opts t = Some t' ->
  counted_track max_spt IMD_SIDE_0_MASK IMD_SIDE_1_MASK realloc_ok opts t = Some t' /\
  writing opts = true /\ write_ok t' = true.
Proof.
  unfold written_track. destruct (counted_track _ _ _ _ _ t) as [t1|]; [|done].
  destruct (writing opts), (write_ok t1) eqn:E; cbn; try done. by intros [= <-].
Qed.

Lemma mod_uint32_bounds (n : Z) : 0 <= n mod 2 ^ 32 < 2 ^ 32.
Proof. apply Z.mod_pos_bound. lia. Qed.

Lemma process_track_spec src s :
  track_ok max_spt (track_of src s) = true -> 0 <= track_count s < 2 ^ 32 ->
  exists fl n st tr,
    process_track max_spt IMD_SIDE_0_MASK IMD_SIDE_1_MASK realloc_ok write_ok opts src s
      = Some fl /\
    0 <= n < 2 ^ 32 /\
    n = (track_count s
         + Z.of_nat (length (omap (counted_track max_spt IMD_SIDE_0_MASK IMD_SIDE_1_MASK
                                     realloc_ok opts) [track_of src s]))) mod 2 ^ 32 /\
    consumed tr = consumed (trace s) ++ [key_of (src, track_of src s)] /\
    processed tr
    = processed (trace s)
      ++ omap (counted_track max_spt IMD_SIDE_0_MASK IMD_SIDE_1_MASK realloc_ok opts)
              [track_of src s] /\
    written tr
    = written (trace s)
      ++ omap (written_track max_spt IMD_SIDE_0_MASK IMD_SIDE_1_MASK realloc_ok write_ok
                 opts) [track_of src s] /\
    ((fl = Continue (release max_spt src s n st tr) /\
      write_fails max_spt IMD_SIDE_0_MASK IMD_SIDE_1_MASK realloc_ok write_ok opts
        (track_of src s) = false) \/
     (exists s', fl = Cleanup s' /\ trace s' = tr /\ track_count s' = n /\
        write_fails max_spt IMD_SIDE_0_MASK IMD_SIDE_1_MASK realloc_ok write_ok opts
          (track_of src s) = true)).
Proof.
  intros Hok Hn. unfold process_track, written_track, write_fails, counted_track.
  fold (excluded IMD_SIDE_0_MASK IMD_SIDE_1_MASK opts (track_of src s)).
  cbn [omap list_omap]. unfold key_of. cbn [fst snd].
  destruct (excluded IMD_SIDE_0_MASK IMD_SIDE_1_MASK opts (track_of src s)).
  { eexists _, (track_count s), _, (trace s ++ [Skipped src (track_of src s)]).
    split; [done|]. rewrite consumed_app, written_app, processed_app. cbn.
    rewrite !app_nil_r, Z.add_0_r, Z.mod_small by done.
    do 5 (split; [done|]). by left. }
  destruct (add_missing_sectors_spec max_spt opts (realloc_ok (track_of src s))
              (track_of src s) Hok) as (t' & Hadd & _).
  pose proof (add_missing_cyl_head _ _ _ Hadd) as [Hc Hh].
  rewrite Hadd. cbn [omap list_omap length].
  change (Z.of_nat 1) with 1.
  pose proof (mod_uint32_bounds (track_count s + 1)) as Hn'.
  fold (writing opts). destruct (writing opts) eqn:Ew; cbn [andb].
  - destruct (write_ok t') eqn:Eok; cbn [negb].
    + eexists _, _, _, ((trace s ++ [Processed src t']) ++ [Written t']).
      split; [done|].
      rewrite !consumed_app, !written_app, !processed_app. cbn.
      rewrite !app_nil_r, Hc, Hh. do 5 (split; [done|]). by left.
    + eexists _, _, (stats s), (trace s ++ [Processed src t']). split; [done|].
      rewrite !consumed_app, !written_app, !processed_app. cbn.
      rewrite !app_nil_r, Hc, Hh. do 5 (split; [done|]).
      right. eexists. by repeat split.
  - eexists _, _, _, (trace s ++ [Processed src t']). split; [done|].
    rewrite !consumed_app, !written_app, !processed_app. cbn.
    rewrite !app_nil_r, Hc, Hh. do 5 (split; [done|]). by left.
Qed.

(** *** The loop follows the plan *)

Lemma add_mod_uint32 (a b c : Z) :
  ((a + b) mod 2 ^ 32 + c) mod 2 ^ 32 = (a + (b + c)) mod 2 ^ 32.
Proof. rewrite Z.add_mod_idemp_l by lia. f_equal. lia. Qed.

Lemma track_loop_follows_plan (fuel : nat) s :
  loop_inv max_spt opts s ->
  (length (pending_primary s) + length (pending_merge opts s) < fuel)%nat ->
  exists s' ok taken,
    track_loop max_spt IMD_SIDE_0_MASK IMD_SIDE_1_MASK realloc_ok write_ok opts fuel s
      = Some (s', ok) /\
    taken `prefix_of` merge_plan (pending_primary s) (pending_merge opts s) /\
    consumed (trace s') = consumed (trace s) ++ (key_of <$> taken) /\
    processed (trace s')
    = processed (trace s)
      ++ omap (counted_track max_spt IMD_SIDE_0_MASK IMD_SIDE_1_MASK realloc_ok opts)
              (snd <$> taken) /\
    written (trace s')
    = written (trace s)
      ++ omap (written_track max_spt IMD_SIDE_0_MASK IMD_SIDE_1_MASK realloc_ok write_ok
                 opts) (snd <$> taken) /\
    track_count s'
    = (track_count s
       + Z.of_nat (length (omap (counted_track max_spt IMD_SIDE_0_MASK IMD_SIDE_1_MASK
                                   realloc_ok opts) (snd <$> taken)))) mod 2 ^ 32 /\
    (ok = true ->
     taken = merge_plan (pending_primary s) (pending_merge opts s) /\
     clean (fimd s) = true /\ (fmerge_open opts = true -> clean (fmerge s) = true) /\
     Forall (fun x => write_fails max_spt IMD_SIDE_0_MASK IMD_SIDE_1_MASK realloc_ok
                        write_ok opts x.2 = false) taken) /\
    (ok = false ->
     clean (fimd s) = false \/ (fmerge_open opts = true /\ clean (fmerge s) = false) \/
     exists x, x ∈ taken /\
       write_fails max_spt IMD_SIDE_0_MASK IMD_SIDE_1_MASK realloc_ok write_ok opts x.2
       = true).
Proof.
  revert s. induction fuel as [|fuel IH]; intros s Hinv Hfuel; [lia|].
  assert (Hstop : forall s0 : state,
            trace s0 = trace s -> track_count s0 = track_count s ->
            forall ok : bool,
            (ok = true ->
             [] = merge_plan (pending_primary s) (pending_merge opts s) /\
             clean (fimd s) = true /\ (fmerge_open opts = true -> clean (fmerge s) = true)) ->
            (ok = false ->
             clean (fimd s) = false \/ (fmerge_open opts = true /\ clean (fmerge s) = false)) ->
            exists s' ok' taken,
              Some (s0, ok) = Some (s', ok') /\
              taken `prefix_of` merge_plan (pending_primary s) (pending_merge opts s) /\
              consumed (trace s') = consumed (trace s) ++ (key_of <$> taken) /\
              processed (trace s')
              = processed (trace s)
                ++ omap (counted_track max_spt IMD_SIDE_0_MASK IMD_SIDE_1_MASK realloc_ok
                           opts) (snd <$> taken) /\
              written (trace s')
              = written (trace s)
                ++ omap (written_track max_spt IMD_SIDE_0_MASK IMD_SIDE_1_MASK realloc_ok
                           write_ok opts) (snd <$> taken) /\
              track_count s'
              = (track_count s
                 + Z.of_nat (length (omap (counted_track max_spt IMD_SIDE_0_MASK
                                             IMD_SIDE_1_MASK realloc_ok opts)
                                          (snd <$> taken)))) mod 2 ^ 32 /\
              (ok' = true ->
               taken = merge_plan (pending_primary s) (pending_merge opts s) /\
               clean (fimd s) = true /\
               (fmerge_open opts = true -> clean (fmerge s) = true) /\
               Forall (fun x => write_fails max_spt IMD_SIDE_0_MASK IMD_SIDE_1_MASK
                                  realloc_ok write_ok opts x.2 = false) taken) /\
              (ok' = false ->
               clean (fimd s) = false \/
               (fmerge_open opts = true /\ clean (fmerge s) = false) \/
               exists x, x ∈ taken /\
                 write_fails max_spt IMD_SIDE_0_MASK IMD_SIDE_1_MASK realloc_ok write_ok
                   opts x.2 = true)).
  { intros s0 Htr Hcount ok Htrue Hfalse. exists s0, ok, []. split; [done|].
    split; [apply prefix_nil|]. cbn. rewrite !app_nil_r, Z.add_0_r, Htr, Hcount.
    rewrite Z.mod_small by apply Hinv. do 4 (split; [done|]). split.
    - intros Hok. destruct (Htrue Hok) as (? & ? & ?). by repeat split.
    - intros Hok. destruct (Hfalse Hok) as [?|?]; auto. }
  cbn [track_loop].
  destruct (negb (primary_eof s) || negb (merge_eof s)) eqn:Ewhile.
  2: { apply orb_false_iff in Ewhile as [Hpe%negb_false_iff Hme%negb_false_iff].
       destruct (inv_primary_eof _ _ _ Hinv Hpe) as [Hnp Hlp].
       destruct (inv_merge_eof _ _ _ Hinv Hme) as [Hnm Hlm].
       apply Hstop; [done|done| |done]. intros _.
       unfold pending_primary, pending_merge, pending. rewrite Hnp, Hnm, Hlp, Hlm.
       split; [by destruct (fmerge_open opts)|]. done. }
  unfold loop_body.
  destruct (load_primary_spec s Hinv)
    as [(s1 & -> & Hinv1 & HP1 & HPe1 & Hcl1 & Hfm1 & Hmt1 & Htr1 & Hn1)
       |(s1 & -> & Htr1 & Hn1 & Hcl1)].
  2: { apply Hstop; [done|done|done|]. intros _. by left. }
  destruct (load_merge_spec s1 Hinv1)
    as [(s2 & -> & Hinv2 & HM2 & HMe2 & Hcl2 & Hfp2 & Hpt2 & Htr2 & Hn2)
       |(s2 & -> & Htr2 & Hn2 & Hopen2 & Hcl2)].
  2: { apply Hstop; [congruence|congruence|done|]. intros _. right.
       split; [done|]. by rewrite <- Hfm1. }
  assert (HP : pending_primary s2 = pending_primary s).
  { rewrite <- HP1. unfold pending_primary. by rewrite Hfp2, Hpt2. }
  assert (HM : pending_merge opts s2 = pending_merge opts s).
  { rewrite HM2. unfold pending_merge. by rewrite Hfm1, Hmt1. }
  assert (HPe : loaded (primary_track s2) = false ->
                pending_primary s2 = [] /\ clean (fimd s) = true).
  { rewrite Hpt2. intros Hl. destruct (HPe1 Hl) as [? ?]. split; [|done].
    rewrite HP, <- HP1. done. }
  assert (HMe : loaded (merge_track s2) = false ->
                pending_merge opts s2 = [] /\
                (fmerge_open opts = true -> clean (fmerge s) = true)).
  { intros Hl. destruct (HMe2 Hl) as [? Hc]. split; [done|]. by rewrite <- Hfm1. }
  assert (Hclp : clean (fimd s2) = clean (fimd s)) by (by rewrite Hfp2).
  assert (Hclm : clean (fmerge s2) = clean (fmerge s)) by (by rewrite Hcl2, Hfm1).
  assert (Htr : trace s2 = trace s) by congruence.
  assert (Hcount : track_count s2 = track_count s) by congruence.
  pose proof (select_track_spec s2 Hinv2 (fun H => proj1 (HPe H)) (fun H => proj1 (HMe H)))
    as Hsel.
  destruct (select_track max_spt s2) as [[src s3]|] eqn:Esel.
  2: { destruct Hsel as [HPn HMn]. apply Hstop; [done|done| |done]. intros _.
       rewrite <- HP, <- HM, HPn, HMn. split; [done|].
       unfold select_track in Esel.
       destruct (loaded (primary_track s2)) eqn:Elp, (loaded (merge_track s2)) eqn:Elm;
         cbn in Esel; try done; try (by repeat case_match).
       split; [by apply HPe|by apply HMe]. }
  destruct Hsel as (Hok & Hcons & Hproc & Hwr & Hn3 & Hrel).
  destruct (process_track_spec src s3 Hok)
    as (fl & n & st & tr & -> & Hnn & Hneq & Hc1 & Hp1 & Hw1 &
        [[-> Hnf]|(s' & -> & Htr' & Hn' & Hfail)]).
  { rewrite Hn3, Hcount. apply Hinv. }
  - destruct (Hrel n st tr Hnn) as (Hinv4 & Htr4 & Hn4 & Hf4 & Hm4 & Hplan & Hlen).
    destruct (IH _ Hinv4)
      as (s' & ok & taken & Hrun & Hpre & Hc & Hp & Hw & Hcnt & Htrue & Hfalse).
    { rewrite HP, HM in Hlen. lia. }
    exists s', ok, ((src, track_of src s3) :: taken). split; [done|].
    rewrite <- HP, <- HM, Hplan. rewrite Htr4 in Hc, Hp, Hw. rewrite Hn4 in Hcnt.
    cbn [fmap list_fmap snd].
    split; [by apply prefix_cons|].
    split; [by rewrite Hc, Hc1, Hcons, Htr, <- app_assoc|].
    split.
    { rewrite Hp, Hp1, Hproc, Htr, <- app_assoc. cbn [omap list_omap].
      by destruct (counted_track _ _ _ _ _ _). }
    split.
    { rewrite Hw, Hw1, Hwr, Htr, <- app_assoc. cbn [omap list_omap].
      by destruct (written_track _ _ _ _ _ _ _). }
    split.
    { rewrite Hcnt, Hneq, Hn3, Hcount. cbn [omap list_omap].
      destruct (counted_track _ _ _ _ _ _); cbn [length app];
        rewrite add_mod_uint32; f_equal; lia. }
    split.
    + intros Hok'. destruct (Htrue Hok') as (-> & Hc4 & Hm4' & Hall).
      split; [done|]. rewrite Hf4 in Hc4. rewrite Hm4 in Hm4'.
      rewrite <- Hclp, <- Hclm. split; [done|]. split; [done|].
      apply Forall_cons_2; [done|done].
    + intros Hok'. rewrite <- Hclp, <- Hclm.
      destruct (Hfalse Hok') as [H|[[? H]|(x & Hx & Hxf)]].
      * left. by rewrite <- Hf4.
      * right. left. split; [done|]. by rewrite <- Hm4.
      * right. right. exists x. split; [by right|done].
  - destruct (Hrel n st tr Hnn) as (_ & _ & _ & _ & _ & Hplan & _).
    exists s', false, [(src, track_of src s3)]. split; [done|].
    rewrite <- HP, <- HM, Hplan, Htr', Hn'. cbn [fmap list_fmap snd].
    split; [apply prefix_cons, prefix_nil|].
    split; [by rewrite Hc1, Hcons, Htr|].
    split; [by rewrite Hp1, Hproc, Htr|].
    split; [by rewrite Hw1, Hwr, Htr|].
    split; [by rewrite Hneq, Hn3, Hcount|].
    split; [done|]. intros _. right. right. eexists. split; [left|done].
Qed.

(** *** The plan is ascending when both inputs are *)

Lemma track_before_key_lt p m :
  track_before p m = true <-> key_lt (track_key p) (track_key m).
Proof.
  unfold track_before, key_lt, track_key. cbn.
  rewrite orb_true_iff, andb_true_iff, !Z.ltb_lt, Z.eqb_eq. done.
Qed.

Lemma track_before_tie p m :
  track_before p m = false -> track_before m p = false -> track_key p = track_key m.
Proof.
  unfold track_before, track_key.
  rewrite !orb_false_iff, !andb_false_iff, !Z.ltb_ge, !Z.eqb_neq.
  intros [? [?|?]] [? [?|?]]; f_equal; lia.
Qed.

Lemma key_lt_trans (a b c : Z * Z) : key_lt a b -> key_lt b c -> key_lt a c.
Proof. unfold key_lt. lia. Qed.

Lemma merge_plan_elem ps ms (x : source * ImdTrackInfo) :
  x ∈ merge_plan ps ms -> x.2 ∈ ps \/ x.2 ∈ ms.
Proof.
  revert ms. induction ps as [|p ps IHp]; intros ms.
  { rewrite merge_plan_nil_l. intros (m & -> & ?)%list_elem_of_fmap. by right. }
  induction ms as [|m ms IHm].
  { rewrite merge_plan_nil_r. intros (q & -> & ?)%list_elem_of_fmap. by left. }
  rewrite merge_plan_cons.
  destruct (track_before p m); [|destruct (track_before m p)];
    intros [->|Hin]%elem_of_cons; cbn.
  - left. left.
  - destruct (IHp _ Hin); [left; by right|by right].
  - right. left.
  - destruct (IHm Hin); [by left|right; by right].
  - left. left.
  - destruct (IHp _ Hin); [left; by right|right; by right].
Qed.

Lemma StronglySorted_sublist (l k : list (Z * Z)) :
  l `sublist_of` k -> StronglySorted key_lt k -> StronglySorted key_lt l.
Proof.
  induction 1 as [|x l k Hsub IH|x l k Hsub IH]; intros Hk.
  - constructor.
  - apply StronglySorted_cons in Hk as [Hall Hk]. apply StronglySorted_cons.
    split; [|by apply IH]. apply Forall_forall. intros y Hy.
    apply (proj1 (Forall_forall _ _) Hall). by eapply elem_of_sublist.
  - apply StronglySorted_cons in Hk as [_ Hk]. by apply IH.
Qed.

Lemma keys_of_tagged (src : source) (l : list ImdTrackInfo) :
  snd <$> (key_of <$> ((fun t => (src, t)) <$> l)) = track_key <$> l.
Proof. induction l as [|t l IH]; cbn; [done|]. by rewrite IH. Qed.

Lemma merge_plan_sorted ps ms :
  StronglySorted key_lt (track_key <$> ps) ->
  StronglySorted key_lt (track_key <$> ms) ->
  StronglySorted key_lt (snd <$> (key_of <$> merge_plan ps ms)).
Proof.
  assert (Hfront : forall p ps' ms' (l : list (source * ImdTrackInfo)),
            (forall x, x ∈ l -> x.2 ∈ ps' \/ x.2 ∈ ms') ->
            Forall (fun q => key_lt (track_key p) (track_key q)) ps' ->
            Forall (fun q => key_lt (track_key p) (track_key q)) ms' ->
            Forall (key_lt (track_key p)) (snd <$> (key_of <$> l))).
  { intros p ps' ms' l Hl Hps' Hms'. apply Forall_forall. intros k Hk.
    apply list_elem_of_fmap in Hk as (k' & -> & Hk).
    apply list_elem_of_fmap in Hk as (x & -> & Hx). cbn.
    destruct (Hl x Hx) as [Hin|Hin].
    - by apply (proj1 (Forall_forall _ _) Hps').
    - by apply (proj1 (Forall_forall _ _) Hms'). }
  assert (Hkeys : forall p l, Forall (key_lt (track_key p)) (track_key <$> l) ->
                              Forall (fun q => key_lt (track_key p) (track_key q)) l).
  { intros p l. by rewrite Forall_fmap. }
  revert ms. induction ps as [|p ps IHp]; intros ms Hps Hms.
  { by rewrite merge_plan_nil_l, keys_of_tagged. }
  induction ms as [|m ms IHm].
  { by rewrite merge_plan_nil_r, keys_of_tagged. }
  rewrite merge_plan_cons. cbn [fmap list_fmap] in Hps, Hms.
  apply StronglySorted_cons in Hps as [Hp Hps'].
  apply StronglySorted_cons in Hms as [Hm Hms'].
  apply Hkeys in Hp, Hm.
  destruct (track_before p m) eqn:Epm; [|destruct (track_before m p) eqn:Emp];
    cbn [fmap list_fmap key_of snd fst]; apply StronglySorted_cons.
  - apply track_before_key_lt in Epm. split.
    + apply (Hfront p ps (m :: ms)); [apply merge_plan_elem|done|].
      constructor; [done|]. eapply Forall_impl; [exact Hm|].
      intros q Hq. by eapply key_lt_trans.
    + apply IHp; [done|]. cbn [fmap list_fmap]. apply StronglySorted_cons.
      split; [by rewrite Forall_fmap|done].
  - apply track_before_key_lt in Emp. split.
    + apply (Hfront m (p :: ps) ms); [apply merge_plan_elem| |done].
      constructor; [done|]. eapply Forall_impl; [exact Hp|].
      intros q Hq. by eapply key_lt_trans.
    + apply IHm. done.
  - pose proof (track_before_tie p m Epm Emp) as Htie. split.
    + apply (Hfront p ps ms); [apply merge_plan_elem|done|].
      eapply Forall_impl; [exact Hm|]. intros q Hq. by rewrite Htie.
    + by apply IHp.
Qed.

Lemma track_key_mark_loaded (l : list ImdTrackInfo) :
  track_key <$> (mark_loaded <$> l) = track_key <$> l.
Proof. induction l as [|t l IH]; cbn; [done|]. by rewrite IH. Qed.

(** The tracks written have the cylinder and head of tracks taken, in
    the same order. *)
Lemma written_keys_sublist (l : list ImdTrackInfo) :
  (track_key <$> omap (written_track max_spt IMD_SIDE_0_MASK IMD_SIDE_1_MASK realloc_ok
                         write_ok opts) l)
  `sublist_of` (track_key <$> l).
Proof.
  induction l as [|t l IH]; cbn [omap list_omap fmap list_fmap]; [done|].
  destruct (written_track _ _ _ _ _ _ t) as [t'|] eqn:E.
  - apply written_track_counted in E as [E _]. apply counted_track_key in E as (_ & _ & E).
    cbn [fmap list_fmap]. rewrite E. by apply sublist_skip.
  - by apply sublist_cons.
Qed.

Lemma length_tracks_before_error (f : track_stream) :
  (length (tracks_before_error f) <= length f)%nat.
Proof. induction f as [|[t|] f IH]; cbn; lia. Qed.

(** *** The run from the start *)

Lemma initial_state_inv (primary merge : track_stream) :
  Forall (stream_ok max_spt) primary -> Forall (stream_ok max_spt) merge ->
  loop_inv max_spt opts (initial_state max_spt primary merge).
Proof. intros Hp Hm. constructor; cbn; try done; lia. Qed.

(** The run of the loop on two input streams: it ends; the tracks it
    takes up are those of the merge plan, in order, up to the first
    failure; each is counted unless [-X] excludes it, and written when
    it is counted, the loop is writing and the writer accepts it. *)
Lemma track_loop_run (primary merge : track_stream) :
  Forall (stream_ok max_spt) primary -> Forall (stream_ok max_spt) merge ->
  exists s' ok taken,
    track_loop max_spt IMD_SIDE_0_MASK IMD_SIDE_1_MASK realloc_ok write_ok opts
      (S (length primary + length merge)) (initial_state max_spt primary merge)
    = Some (s', ok) /\
    taken `prefix_of`
      merge_plan (mark_loaded <$> tracks_before_error primary)
                 (if fmerge_open opts then mark_loaded <$> tracks_before_error merge
                  else []) /\
    consumed (trace s') = key_of <$> taken /\
    processed (trace s')
    = omap (counted_track max_spt IMD_SIDE_0_MASK IMD_SIDE_1_MASK realloc_ok opts)
           (snd <$> taken) /\
    written (trace s')
    = omap (written_track max_spt IMD_SIDE_0_MASK IMD_SIDE_1_MASK realloc_ok write_ok opts)
           (snd <$> taken) /\
    track_count s'
    = Z.of_nat (length (omap (counted_track max_spt IMD_SIDE_0_MASK IMD_SIDE_1_MASK
                                realloc_ok opts) (snd <$> taken))) mod 2 ^ 32 /\
    (ok = true ->
     taken = merge_plan (mark_loaded <$> tracks_before_error primary)
               (if fmerge_open opts then mark_loaded <$> tracks_before_error merge
                else []) /\
     clean primary = true /\ (fmerge_open opts = true -> clean merge = true) /\
     Forall (fun x => write_fails max_spt IMD_SIDE_0_MASK IMD_SIDE_1_MASK realloc_ok
                        write_ok opts x.2 = false) taken) /\
    (ok = false ->
     clean primary = false \/ (fmerge_open opts = true /\ clean merge = false) \/
     exists x, x ∈ taken /\
       write_fails max_spt IMD_SIDE_0_MASK IMD_SIDE_1_MASK realloc_ok write_ok opts x.2
       = true).
Proof.
  intros Hp Hm.
  destruct (track_loop_follows_plan (S (length primary + length merge))
              (initial_state max_spt primary merge) (initial_state_inv _ _ Hp Hm))
    as (s' & ok & taken & Hrun & Hpre & Hc & Hpr & Hw & Hn & Htrue & Hfalse).
  { unfold pending_primary, pending_merge, pending. cbn.
    pose proof (length_tracks_before_error primary).
    pose proof (length_tracks_before_error merge).
    destruct (fmerge_open opts); rewrite ?length_fmap; cbn; lia. }
  exists s', ok, taken.
  exact (conj Hrun (conj Hpre (conj Hc (conj Hpr (conj Hw (conj Hn (conj Htrue Hfalse))))))).
Qed.

(** C10: on two inputs whose tracks are well formed, the run of the
    merge ends.  The tracks it takes up are those of the two-way merge
    of the inputs, in order: all of them when the run succeeds, and it
    fails only on a read failure or a track the writer refuses.  Every
    track taken up and not excluded by [-X] is handed to the writer
    (after the [--add-missing] block) when an output file is written,
    and the output is exactly these tracks, in order.  When each input
    is in strictly ascending (cylinder, head) order, so are the tracks
    taken up and the tracks written.  At a turn where both inputs hold
    a track with the same cylinder and head, the merge track is
    dropped unprocessed and the primary track is processed and
    written. *)
Theorem merge_takes_lower_track_first (primary merge : track_stream) :
  fmerge_open opts = true ->
  Forall (stream_ok max_spt) primary -> Forall (stream_ok max_spt) merge ->
  exists s' ok taken,
    track_loop max_spt IMD_SIDE_0_MASK IMD_SIDE_1_MASK realloc_ok write_ok opts
      (S (length primary + length merge)) (initial_state max_spt primary merge)
    = Some (s', ok) /\
    taken `prefix_of`
      merge_plan (mark_loaded <$> tracks_before_error primary)
                 (mark_loaded <$> tracks_before_error merge) /\
    (ok = true ->
     taken = merge_plan (mark_loaded <$> tracks_before_error primary)
                        (mark_loaded <$> tracks_before_error merge)) /\
    (ok = false ->
     clean primary = false \/ clean merge = false \/
     exists x, x ∈ taken /\
       write_fails max_spt IMD_SIDE_0_MASK IMD_SIDE_1_MASK realloc_ok write_ok opts x.2
       = true) /\
    consumed (trace s') = key_of <$> taken /\
    written (trace s')
    = omap (written_track max_spt IMD_SIDE_0_MASK IMD_SIDE_1_MASK realloc_ok write_ok opts)
           (snd <$> taken) /\
    (forall x, x ∈ taken -> writing opts = true ->
       excluded IMD_SIDE_0_MASK IMD_SIDE_1_MASK opts x.2 = false ->
       write_fails max_spt IMD_SIDE_0_MASK IMD_SIDE_1_MASK realloc_ok write_ok opts x.2
       = false ->
       exists t', add_missing_sectors max_spt opts (realloc_ok x.2) x.2 = Some t' /\
                  track_key t' = track_key x.2 /\ t' ∈ written (trace s')) /\
    (StronglySorted key_lt (track_key <$> tracks_before_error primary) ->
     StronglySorted key_lt (track_key <$> tracks_before_error merge) ->
     StronglySorted key_lt (snd <$> consumed (trace s')) /\
     StronglySorted key_lt (track_key <$> written (trace s'))) /\
    (forall s t',
       loaded (primary_track s) = true -> loaded (merge_track s) = true ->
       track_key (primary_track s) = track_key (merge_track s) ->
       excluded IMD_SIDE_0_MASK IMD_SIDE_1_MASK opts (primary_track s) = false ->
       add_missing_sectors max_spt opts (realloc_ok (primary_track s)) (primary_track s)
       = Some t' ->
       writing opts = true -> write_ok t' = true ->
       exists s1,
         loop_body max_spt IMD_SIDE_0_MASK IMD_SIDE_1_MASK realloc_ok write_ok opts s
         = Some (Continue s1) /\
         trace s1 = trace s ++ [Discarded (merge_track s); Processed Primary t'; Written t'] /\
         loaded (primary_track s1) = false /\ loaded (merge_track s1) = false /\
         fimd s1 = fimd s /\ fmerge s1 = fmerge s).
Proof.
  intros Hopen Hp Hm.
  destruct (track_loop_run primary merge Hp Hm)
    as (s' & ok & taken & Hrun & Hpre & Hc & _ & Hw & _ & Htrue & Hfalse).
  rewrite Hopen in Hpre, Htrue.
  exists s', ok, taken. split; [done|]. split; [done|].
  split; [intros Hok; by destruct (Htrue Hok)|].
  split.
  { intros Hok. destruct (Hfalse Hok) as [?|[[_ ?]|?]]; auto. }
  split; [done|]. split; [done|]. split; [|split].
  - intros x Hx Hwr Hex Hnf. unfold write_fails, counted_track in Hnf. rewrite Hex in Hnf.
    assert (Hin : x.2 ∈ mark_loaded <$> tracks_before_error primary \/
                  x.2 ∈ mark_loaded <$> tracks_before_error merge).
    { apply merge_plan_elem. destruct Hpre as [k ->]. apply elem_of_app. by left. }
    destruct (add_missing_sectors max_spt opts (realloc_ok x.2) x.2) as [t'|] eqn:Eadd.
    + exists t'. split; [done|]. pose proof (add_missing_cyl_head _ _ _ Eadd) as [Hcy Hh].
      split; [unfold track_key; by rewrite Hcy, Hh|].
      rewrite Hw. apply list_elem_of_omap. exists x.2.
      split; [apply list_elem_of_fmap; by exists x|].
      unfold written_track, counted_track. rewrite Hex, Eadd, Hwr.
      rewrite Hwr in Hnf. cbn in Hnf. apply negb_false_iff in Hnf. by rewrite Hnf.
    + exfalso.
      assert (Hok : track_ok max_spt x.2 = true).
      { assert (Hall : forall f, Forall (stream_ok max_spt) f ->
                  Forall (fun t => track_ok max_spt t = true)
                         (mark_loaded <$> tracks_before_error f)).
        { intros f Hf. induction Hf as [|[t|] f Ht Hf IH]; cbn; [done| |done].
          by apply Forall_cons_2. }
        destruct Hin as [Hin|Hin];
          [apply (proj1 (Forall_forall _ _) (Hall primary Hp)) in Hin
          |apply (proj1 (Forall_forall _ _) (Hall merge Hm)) in Hin]; done. }
      destruct (add_missing_sectors_spec max_spt opts (realloc_ok x.2) x.2 Hok)
        as (t' & Hadd & _). congruence.
  - intros Sp Sm.
    assert (Hsorted : StronglySorted key_lt (snd <$> consumed (trace s'))).
    { destruct Hpre as [k Hk].
      pose proof (merge_plan_sorted (mark_loaded <$> tracks_before_error primary)
                    (mark_loaded <$> tracks_before_error merge)) as Hplan.
      rewrite !track_key_mark_loaded, Hk, !fmap_app in Hplan. rewrite Hc.
      by apply StronglySorted_app_1_l in Hplan. }
    split; [done|]. rewrite Hw. eapply StronglySorted_sublist; [|exact Hsorted].
    rewrite Hc.
    assert (Hkeys : snd <$> (key_of <$> taken) = track_key <$> (snd <$> taken)).
    { clear. induction taken as [|[src t] l IH]; cbn; [done|]. by rewrite IH. }
    rewrite Hkeys. apply written_keys_sublist.
  - intros s t' Hlp Hlm Hkey Hex Hadd Hwr Hwok.
    assert (Htie : track_before (primary_track s) (merge_track s) = false /\
                   track_before (merge_track s) (primary_track s) = false).
    { unfold track_key, track_before in *. injection Hkey as -> ->.
      by rewrite !Z.ltb_irrefl, !andb_false_r. }
    destruct Htie as [H1 H2].
    unfold loop_body, load_primary. rewrite Hlp. cbn [negb]. rewrite andb_false_r.
    cbv beta iota. unfold load_merge. rewrite Hlm. cbn [negb]. rewrite andb_false_r.
    cbv beta iota. unfold select_track. rewrite Hlp, Hlm, H1, H2. cbn [andb].
    unfold process_track. cbn [track_of primary_track].
    fold (excluded IMD_SIDE_0_MASK IMD_SIDE_1_MASK opts (primary_track s)).
    rewrite Hex, Hadd. fold (writing opts). rewrite Hwr, Hwok. cbn [andb negb].
    eexists. split; [done|]. cbn. rewrite <- !app_assoc. by repeat split.
Qed.

End MergeLoop.

Section MergeExample.
Import libimd imdu imdu_runs samples.

Example merge_run :
  (fun r => (consumed (trace r.1), smap <$> written (trace r.1), r.2)) <$>
    track_loop 2 1 2 always always merge_opts 7
      (initial_state 2 (LoadTrack <$> primary_tracks) (LoadTrack <$> merge_tracks))
  = Some ([(Primary, (0, 0)); (Primary, (0, 1)); (Merge, (1, 0));
           (Primary, (2, 0)); (Merge, (3, 0))],
          [[1; 0]; [1; 0]; [9; 0]; [1; 0]; [9; 0]], true).
Proof. vm_compute. reflexivity. Qed.

(** C10 (as stated, refuted): with a primary file holding cylinder 1
    then cylinder 0 and a merge file holding cylinder 2, the tracks are
    taken and written in the order (1,0), (0,0), (2,0), which is not
    ascending. *)
Lemma merge_order_follows_input_order :
  exists s',
    track_loop 2 1 2 always always merge_opts 4
      (initial_state 2 (LoadTrack <$> unordered_primary) (LoadTrack <$> single_merge))
      = Some (s', true) /\
    snd <$> consumed (trace s') = [(1, 0); (0, 0); (2, 0)] /\
    track_key <$> written (trace s') = [(1, 0); (0, 0); (2, 0)] /\
    ~ StronglySorted key_lt (track_key <$> written (trace s')).
Proof.
  eexists. split; [vm_compute; reflexivity|]. split; [reflexivity|].
  split; [reflexivity|]. cbn. intros H.
  apply StronglySorted_cons in H as [H _].
  apply Forall_cons in H as [[H|[H _]] _]; cbn in H; lia.
Qed.

Lemma merge_takes_lower_track_first_witness :
  exists s' ok taken,
    track_loop 2 1 2 always always merge_opts
      (S (length (LoadTrack <$> primary_tracks) + length (LoadTrack <$> merge_tracks)))
      (initial_state 2 (LoadTrack <$> primary_tracks) (LoadTrack <$> merge_tracks))
    = Some (s', ok) /\
    taken `prefix_of`
      merge_plan (mark_loaded <$> tracks_before_error (LoadTrack <$> primary_tracks))
                 (mark_loaded <$> tracks_before_error (LoadTrack <$> merge_tracks)) /\
    (ok = true ->
     taken = merge_plan (mark_loaded <$> tracks_before_error (LoadTrack <$> primary_tracks))
                        (mark_loaded <$> tracks_before_error (LoadTrack <$> merge_tracks))) /\
    (ok = false ->
     clean (LoadTrack <$> primary_tracks) = false \/
     clean (LoadTrack <$> merge_tracks) = false \/
     exists x, x ∈ taken /\ write_fails 2 1 2 always always merge_opts x.2 = true) /\
    consumed (trace s') = key_of <$> taken /\
    written (trace s') = omap (written_track 2 1 2 always always merge_opts) (snd <$> taken) /\
    (forall x, x ∈ taken -> writing merge_opts = true ->
       excluded 1 2 merge_opts x.2 = false ->
       write_fails 2 1 2 always always merge_opts x.2 = false ->
       exists t', add_missing_sectors 2 merge_opts (always x.2) x.2 = Some t' /\
                  track_key t' = track_key x.2 /\ t' ∈ written (trace s')) /\
    (StronglySorted key_lt (track_key <$> tracks_before_error (LoadTrack <$> primary_tracks)) ->
     StronglySorted key_lt (track_key <$> tracks_before_error (LoadTrack <$> merge_tracks)) ->
     StronglySorted key_lt (snd <$> consumed (trace s')) /\
     StronglySorted key_lt (track_key <$> written (trace s'))) /\
    (forall s t',
       loaded (primary_track s) = true -> loaded (merge_track s) = true ->
       track_key (primary_track s) = track_key (merge_track s) ->
       excluded 1 2 merge_opts (primary_track s) = false ->
       add_missing_sectors 2 merge_opts (always (primary_track s)) (primary_track s)
       = Some t' ->
       writing merge_opts = true -> always t' = true ->
       exists s1,
         loop_body 2 1 2 always always merge_opts s = Some (Continue s1) /\
         trace s1 = trace s ++ [Discarded (merge_track s); Processed Primary t'; Written t'] /\
         loaded (primary_track s1) = false /\ loaded (merge_track s1) = false /\
         fimd s1 = fimd s /\ fmerge s1 = fmerge s).
Proof.
  apply (merge_takes_lower_track_first 2 1 2 always always merge_opts
           (LoadTrack <$> primary_tracks) (LoadTrack <$> merge_tracks)).
  - reflexivity.
  - repeat constructor.
  - repeat constructor.
Defined.

End MergeExample.

(* ================================================================== *)
(** * Further properties                                               *)
(* ================================================================== *)

(** ** Further properties of the final sector flags of imdu *)

Section FinalFlagsMore.
Import libimd imdu imdu_runs.

(** Case analysis on the four predicates of the flag read. *)
Local Ltac flag_split orig :=
  unfold final_flag, target_base_type;
  generalize (IMD_SDR_HAS_DATA orig) (IMD_SDR_IS_COMPRESSED orig)
             (IMD_SDR_HAS_DAM orig) (IMD_SDR_HAS_ERR orig);
  intros [] [] [] [].

Lemma final_flag_has_data (wo : ImdWriteOpts) (orig : Z) (u : bool) :
  IMD_SDR_HAS_DATA (final_flag wo orig u) = IMD_SDR_HAS_DATA orig.
Proof.
  destruct wo as [cm nb nd tm il].
  flag_split orig; destruct cm, nb, nd, u; reflexivity.
Qed.

Lemma final_flag_legal (wo : ImdWriteOpts) (orig : Z) (u : bool) :
  0 <= final_flag wo orig u <= 8.
Proof.
  destruct wo as [cm nb nd tm il].
  flag_split orig; destruct cm, nb, nd, u; vm_compute; split; discriminate.
Qed.

Lemma final_flag_expand (nb nd : bool) (tm : list Z) (il orig : Z) (u : bool) :
  IMD_SDR_IS_COMPRESSED
    (final_flag (mkWriteOpts IMD_COMPRESSION_FORCE_DECOMPRESS nb nd tm il) orig u) = false.
Proof. flag_split orig; destruct nb, nd; reflexivity. Qed.

Lemma length_final_sflag (t : ImdTrackInfo) (wo : ImdWriteOpts) :
  length (final_sflag t wo) = length (take (Z.to_nat (num_sectors t)) (sflag t)).
Proof. unfold final_sflag. apply length_imap. Qed.

(** The flags computed for a track, as a map over the flags read. *)
Lemma final_sflag_fmap {A} (g : Z -> A) (h : Z -> A) (t : ImdTrackInfo) (wo : ImdWriteOpts) :
  (forall orig u, g (final_flag wo orig u) = h orig) ->
  g <$> final_sflag t wo = h <$> take (Z.to_nat (num_sectors t)) (sflag t).
Proof.
  intros Hgh. apply list_eq. intros i. unfold final_sflag.
  rewrite !list_lookup_fmap, list_lookup_imap.
  destruct (take _ _ !! i) as [orig|]; [|done]. cbn. by rewrite Hgh.
Qed.

(** Whatever the write options, the flag computed for a sector is one
    of the nine status codes, and it is the unavailable code exactly
    for the sectors read as unavailable. *)
Theorem final_flags_keep_availability (t : ImdTrackInfo) (wo : ImdWriteOpts) :
  length (final_sflag t wo) = length (take (Z.to_nat (num_sectors t)) (sflag t)) /\
  Forall (fun f => 0 <= f <= 8) (final_sflag t wo) /\
  IMD_SDR_HAS_DATA <$> final_sflag t wo
    = IMD_SDR_HAS_DATA <$> take (Z.to_nat (num_sectors t)) (sflag t).
Proof.
  split; [apply length_final_sflag|]. split.
  - apply Forall_lookup. intros i f Hf.
    apply final_sflag_lookup in Hf as (orig & _ & _ & ->). apply final_flag_legal.
  - apply final_sflag_fmap. intros orig u. apply final_flag_has_data.
Qed.

(** Computing the flags a second time, from the flags already computed
    with the same options and the same data, changes nothing. *)
Theorem final_flag_idempotent (wo : ImdWriteOpts) (orig : Z) (u : bool) :
  final_flag wo (final_flag wo orig u) u = final_flag wo orig u.
Proof.
  destruct wo as [cm nb nd tm il].
  flag_split orig; destruct cm, nb, nd, u; reflexivity.
Qed.

Lemma count_sector_total (st : Stats) (f : Z) :
  st_total (count_sector st f) = st_total st + 1.
Proof. unfold count_sector. by destruct (IMD_SDR_HAS_DATA f). Qed.

Lemma count_sector_unavail (st : Stats) (f : Z) :
  st_unavail (count_sector st f)
  = st_unavail st + (if IMD_SDR_HAS_DATA f then 0 else 1).
Proof. unfold count_sector. destruct (IMD_SDR_HAS_DATA f); cbn; lia. Qed.

Lemma count_sector_comp (st : Stats) (f : Z) :
  st_comp (count_sector st f)
  = st_comp st + (if IMD_SDR_HAS_DATA f && IMD_SDR_IS_COMPRESSED f then 1 else 0).
Proof.
  unfold count_sector.
  destruct (IMD_SDR_HAS_DATA f), (IMD_SDR_IS_COMPRESSED f); cbn; lia.
Qed.

Lemma count_sector_dam (st : Stats) (f : Z) :
  st_dam (count_sector st f)
  = st_dam st + (if IMD_SDR_HAS_DATA f && IMD_SDR_HAS_DAM f then 1 else 0).
Proof.
  unfold count_sector.
  destruct (IMD_SDR_HAS_DATA f), (IMD_SDR_HAS_DAM f); cbn; lia.
Qed.

Lemma count_sector_bad (st : Stats) (f : Z) :
  st_bad (count_sector st f)
  = st_bad st + (if IMD_SDR_HAS_DATA f && IMD_SDR_HAS_ERR f then 1 else 0).
Proof.
  unfold count_sector.
  destruct (IMD_SDR_HAS_DATA f), (IMD_SDR_HAS_ERR f); cbn; lia.
Qed.

Lemma foldl_count_sector (flags : list Z) (st : Stats) :
  let st' := foldl count_sector st flags in
  st_total st' = st_total st + Z.of_nat (length flags) /\
  st_unavail st' = st_unavail st + unavailable_count flags /\
  st_comp st <= st_comp st' /\ st_dam st <= st_dam st' /\ st_bad st <= st_bad st' /\
  st_comp st' - st_comp st <= Z.of_nat (length flags) - unavailable_count flags /\
  st_dam st' - st_dam st <= Z.of_nat (length flags) - unavailable_count flags /\
  st_bad st' - st_bad st <= Z.of_nat (length flags) - unavailable_count flags /\
  (Forall (fun f => IMD_SDR_IS_COMPRESSED f = false) flags -> st_comp st' = st_comp st).
Proof.
  revert st. induction flags as [|f flags IH]; intros st; cbn [foldl].
  { unfold unavailable_count. cbn. repeat split; lia. }
  specialize (IH (count_sector st f)). cbn zeta in IH.
  destruct IH as (Ht & Hu & Hc & Hd & Hb & Hc' & Hd' & Hb' & Hnc).
  assert (Hcount : unavailable_count (f :: flags)
                   = (if IMD_SDR_HAS_DATA f then 0 else 1) + unavailable_count flags).
  { unfold unavailable_count. rewrite filter_cons.
    destruct (IMD_SDR_HAS_DATA f) eqn:E.
    - rewrite decide_False by congruence. lia.
    - rewrite decide_True by done. cbn [length]. lia. }
  assert (Hlen : 0 <= Z.of_nat (length flags) - unavailable_count flags).
  { unfold unavailable_count.
    pose proof (length_filter (fun f => IMD_SDR_HAS_DATA f = false) flags). lia. }
  cbn zeta. rewrite Hcount. cbn [length].
  rewrite count_sector_total in Ht. rewrite count_sector_unavail in Hu.
  rewrite count_sector_comp in Hc, Hc', Hnc.
  rewrite count_sector_dam in Hd, Hd'. rewrite count_sector_bad in Hb, Hb'.
  set (st' := foldl count_sector (count_sector st f) flags) in *.
  assert (Hlast : Forall (fun f => IMD_SDR_IS_COMPRESSED f = false) (f :: flags) ->
                  st_comp st' = st_comp st).
  { intros Hall. inversion_clear Hall as [|? ? Hf Hrest].
    rewrite Hnc, Hf, andb_false_r by done. lia. }
  destruct (IMD_SDR_HAS_DATA f), (IMD_SDR_IS_COMPRESSED f), (IMD_SDR_HAS_DAM f),
    (IMD_SDR_HAS_ERR f); cbn [andb] in *; repeat split; try lia; done.
Qed.

(** The statistics block counts every sector of the track once; the
    number it adds to "Unavailable" is the number of sectors read as
    unavailable, whatever the write options; and "Compressed",
    "Deleted" and "Bad" grow by no more than the number of sectors that
    have data.  (The 64-bit counters are taken not to overflow.) *)
Theorem update_stats_counts_each_sector_once
    (st : Stats) (t : ImdTrackInfo) (wo : ImdWriteOpts) :
  let read := take (Z.to_nat (num_sectors t)) (sflag t) in
  let st' := update_stats st t wo in
  st_total st' = st_total st + Z.of_nat (length read) /\
  st_unavail st' = st_unavail st + unavailable_count read /\
  0 <= st_comp st' - st_comp st <= Z.of_nat (length read) - unavailable_count read /\
  0 <= st_dam st' - st_dam st <= Z.of_nat (length read) - unavailable_count read /\
  0 <= st_bad st' - st_bad st <= Z.of_nat (length read) - unavailable_count read.
Proof.
  cbn zeta. unfold update_stats.
  destruct (foldl_count_sector (final_sflag t wo) st)
    as (Ht & Hu & Hc & Hd & Hb & Hc' & Hd' & Hb' & _).
  assert (Hsame : unavailable_count (final_sflag t wo)
                  = unavailable_count (take (Z.to_nat (num_sectors t)) (sflag t))).
  { unfold unavailable_count. f_equal.
    pose proof (final_sflag_fmap IMD_SDR_HAS_DATA IMD_SDR_HAS_DATA t wo
                  (final_flag_has_data wo)) as Hmap.
    revert Hmap. generalize (final_sflag t wo) (take (Z.to_nat (num_sectors t)) (sflag t)).
    intros l. induction l as [|x l IH]; intros [|y k] Hmap; try done.
    cbn in Hmap. injection Hmap as Hxy Hmap. rewrite !filter_cons, Hxy.
    destruct (decide (IMD_SDR_HAS_DATA y = false)); cbn [length]; by rewrite (IH k). }
  rewrite length_final_sflag, Hsame in *. repeat split; lia.
Qed.

(** With [-E] (expand) no computed flag is a compressed one and the
    "Compressed" counter stays where it was. *)
Theorem expand_leaves_no_compressed_sector
    (st : Stats) (t : ImdTrackInfo) (nb nd : bool) (tm : list Z) (il : Z) :
  Forall (fun f => IMD_SDR_IS_COMPRESSED f = false)
         (final_sflag t (mkWriteOpts IMD_COMPRESSION_FORCE_DECOMPRESS nb nd tm il)) /\
  st_comp (update_stats st t (mkWriteOpts IMD_COMPRESSION_FORCE_DECOMPRESS nb nd tm il))
  = st_comp st.
Proof.
  assert (Hall : Forall (fun f => IMD_SDR_IS_COMPRESSED f = false)
            (final_sflag t (mkWriteOpts IMD_COMPRESSION_FORCE_DECOMPRESS nb nd tm il))).
  { apply Forall_lookup. intros i f Hf.
    apply final_sflag_lookup in Hf as (orig & _ & _ & ->). apply final_flag_expand. }
  split; [done|]. unfold update_stats.
  by apply (foldl_count_sector _ st).
Qed.

End FinalFlagsMore.

(** ** The rate translation never reaches the MFM modes *)

Section RateTranslationMore.
Import libimd imdu.

(** The loop over the source modes stops at the first mode of the
    requested rate, and each rate has its FM mode first in
    [MODE_TO_RATE_CODE]: whatever the request, the entries of the MFM
    modes 3, 4 and 5 are left as they were, and the entry written, if
    any, is the one of an FM mode. *)
Theorem rate_translation_leaves_mfm_entries (tmode : list Z) (rate_from rate_to : Z) :
  let r := parse_rate_translation tmode rate_from rate_to in
  drop 3 (tr_tmode r) = drop 3 tmode /\ mode_from r < 3 /\ mode_to r < 3.
Proof.
  cbn zeta. unfold parse_rate_translation.
  cbn [seq LIBIMD_NUM_MODES translate_from nth MODE_TO_RATE_CODE].
  destruct (rate_code_is 5 rate_from) eqn:E5;
    [|destruct (rate_code_is 3 rate_from) eqn:E3;
      [|destruct (rate_code_is 2 rate_from) eqn:E2]].
  4: { cbn. repeat split; lia. }
  all: match goal with
       | |- context [find_mode_to ?i ?rt ?js] =>
           destruct (find_mode_to i rt js) as [j|] eqn:Ej
       end;
       cbn [tr_tmode mode_from mode_to]; [|repeat split; lia].
  all: apply find_mode_to_same_encoding in Ej as (_ & Hs & _);
       apply same_encoding_sides in Hs as [[_ Hj]|[Hi _]]; [|lia];
       split; [by rewrite drop_insert_lt by lia|lia].
Qed.

End RateTranslationMore.

(** ** Whole runs of the track loop of imdu *)

Section TrackLoopRuns.
Import libimd imdu imdu_runs.

Variable max_spt : Z.
Variables IMD_SIDE_0_MASK IMD_SIDE_1_MASK : Z.
Variable realloc_ok : ImdTrackInfo -> bool.
Variable write_ok : ImdTrackInfo -> bool.
Variable opts : Options.

Lemma stream_tracks_ok (f : track_stream) :
  Forall (stream_ok max_spt) f ->
  Forall (fun t => track_ok max_spt t = true) (mark_loaded <$> tracks_before_error f).
Proof.
  intros Hf. induction Hf as [|[t|] f Ht Hf IH]; cbn; [done| |done].
  by apply Forall_cons_2.
Qed.

Lemma snd_tagged (src : source) (l : list ImdTrackInfo) :
  snd <$> ((fun t => (src, t)) <$> l) = l.
Proof. induction l as [|t l IH]; cbn; [done|]. by rewrite IH. Qed.

Lemma counted_tracks_length (l : list ImdTrackInfo) :
  Forall (fun t => track_ok max_spt t = true) l ->
  length (omap (counted_track max_spt IMD_SIDE_0_MASK IMD_SIDE_1_MASK realloc_ok opts) l)
  = length (filter (fun t => excluded IMD_SIDE_0_MASK IMD_SIDE_1_MASK opts t = false) l).
Proof.
  induction 1 as [|t l Ht Hl IH]; [done|].
  cbn [omap list_omap]. rewrite filter_cons. unfold counted_track at 1.
  destruct (excluded IMD_SIDE_0_MASK IMD_SIDE_1_MASK opts t) eqn:E.
  - by rewrite decide_False by done.
  - rewrite decide_True by done.
    destruct (add_missing_sectors_spec max_spt opts (realloc_ok t) t Ht) as (t' & -> & _).
    cbn [length]. by rewrite IH.
Qed.

(** On inputs whose tracks are well formed, with or without a merge
    file, the loop ends within one turn per stream entry plus one.
    The tracks it takes up are those of the merge plan, in order (the
    tracks of the primary file, in file order, when there is no merge
    file): every one of them when the run succeeds.  A track that [-X]
    excludes is taken up but neither counted nor written; every other
    track taken up is counted, after the [--add-missing] block, so
    that [track_count] ends as the number of tracks taken up and not
    excluded, modulo 2^32. *)
Theorem excluded_tracks_are_skipped (primary merge : track_stream) :
  Forall (stream_ok max_spt) primary -> Forall (stream_ok max_spt) merge ->
  exists s' ok taken,
    track_loop max_spt IMD_SIDE_0_MASK IMD_SIDE_1_MASK realloc_ok write_ok opts
      (S (length primary + length merge)) (initial_state max_spt primary merge)
    = Some (s', ok) /\
    taken `prefix_of`
      merge_plan (mark_loaded <$> tracks_before_error primary)
                 (if fmerge_open opts then mark_loaded <$> tracks_before_error merge
                  else []) /\
    (ok = true ->
     taken = merge_plan (mark_loaded <$> tracks_before_error primary)
               (if fmerge_open opts then mark_loaded <$> tracks_before_error merge
                else [])) /\
    (fmerge_open opts = false ->
     (snd <$> taken) `prefix_of` (mark_loaded <$> tracks_before_error primary)) /\
    consumed (trace s') = key_of <$> taken /\
    processed (trace s')
    = omap (counted_track max_spt IMD_SIDE_0_MASK IMD_SIDE_1_MASK realloc_ok opts)
           (snd <$> taken) /\
    Forall (fun t => excluded IMD_SIDE_0_MASK IMD_SIDE_1_MASK opts t = false)
           (processed (trace s')) /\
    Forall (fun t => excluded IMD_SIDE_0_MASK IMD_SIDE_1_MASK opts t = false)
           (written (trace s')) /\
    track_count s'
    = Z.of_nat (length (filter (fun t => excluded IMD_SIDE_0_MASK IMD_SIDE_1_MASK opts t
                                         = false) (snd <$> taken))) mod 2 ^ 32.
Proof.
  intros Hp Hm.
  destruct (track_loop_run max_spt IMD_SIDE_0_MASK IMD_SIDE_1_MASK realloc_ok write_ok opts
              primary merge Hp Hm)
    as (s' & ok & taken & Hrun & Hpre & Hc & Hpr & Hw & Hn & Htrue & _).
  exists s', ok, taken. split; [done|]. split; [done|].
  split; [intros Hok; by destruct (Htrue Hok)|].
  split.
  { intros Hopen. rewrite Hopen, merge_plan_nil_r in Hpre. destruct Hpre as [k Hk].
    apply (f_equal (fmap snd)) in Hk. rewrite fmap_app, snd_tagged in Hk.
    rewrite Hk. by apply prefix_app_r. }
  split; [done|]. split; [done|].
  assert (Hoks : Forall (fun t => track_ok max_spt t = true) (snd <$> taken)).
  { apply Forall_forall. intros t Ht. apply list_elem_of_fmap in Ht as (x & -> & Hx).
    assert (Hin : x ∈ merge_plan (mark_loaded <$> tracks_before_error primary)
                    (if fmerge_open opts then mark_loaded <$> tracks_before_error merge
                     else [])).
    { destruct Hpre as [k ->]. apply elem_of_app. by left. }
    apply merge_plan_elem in Hin as [Hin|Hin].
    - by apply (proj1 (Forall_forall _ _) (stream_tracks_ok primary Hp)).
    - destruct (fmerge_open opts); [|by apply elem_of_nil in Hin].
      by apply (proj1 (Forall_forall _ _) (stream_tracks_ok merge Hm)). }
  split; [|split].
  - rewrite Hpr. apply Forall_forall. intros t' Ht'.
    apply list_elem_of_omap in Ht' as (t & _ & Ht).
    by apply counted_track_key in Ht as (_ & ? & _).
  - rewrite Hw. apply Forall_forall. intros t' Ht'.
    apply list_elem_of_omap in Ht' as (t & _ & Ht).
    apply written_track_counted in Ht as [Ht _].
    by apply counted_track_key in Ht as (_ & ? & _).
  - by rewrite Hn, counted_tracks_length.
Qed.

End TrackLoopRuns.

Section TrackLoopRunsExample.
Import libimd imdu imdu_runs samples samples_more.

(** [-X0=0] on a file with the tracks (0,0), (0,1) and (2,0): all
    three are taken up, the first is neither counted nor written. *)
Example exclude_side_0_of_cylinder_0 :
  exists s,
    track_loop 2 1 2 always always exclude_opts 4
      (initial_state 2 (LoadTrack <$> primary_tracks) []) = Some (s, true) /\
    consumed (trace s) = [(Primary, (0, 0)); (Primary, (0, 1)); (Primary, (2, 0))] /\
    track_key <$> written (trace s) = [(0, 1); (2, 0)] /\
    track_count s = 2.
Proof. eexists. vm_compute. repeat split. Qed.

Lemma excluded_tracks_are_skipped_witness :
  exists s' ok taken,
    track_loop 2 1 2 always always exclude_opts
      (S (length (LoadTrack <$> primary_tracks) + length (@nil load_result)))
      (initial_state 2 (LoadTrack <$> primary_tracks) [])
    = Some (s', ok) /\
    taken `prefix_of`
      merge_plan (mark_loaded <$> tracks_before_error (LoadTrack <$> primary_tracks))
                 (if fmerge_open exclude_opts
                  then mark_loaded <$> tracks_before_error (@nil load_result) else []) /\
    (ok = true ->
     taken = merge_plan (mark_loaded <$> tracks_before_error (LoadTrack <$> primary_tracks))
               (if fmerge_open exclude_opts
                then mark_loaded <$> tracks_before_error (@nil load_result) else [])) /\
    (fmerge_open exclude_opts = false ->
     (snd <$> taken)
     `prefix_of` (mark_loaded <$> tracks_before_error (LoadTrack <$> primary_tracks))) /\
    consumed (trace s') = key_of <$> taken /\
    processed (trace s') = omap (counted_track 2 1 2 always exclude_opts) (snd <$> taken) /\
    Forall (fun t => excluded 1 2 exclude_opts t = false) (processed (trace s')) /\
    Forall (fun t => excluded 1 2 exclude_opts t = false) (written (trace s')) /\
    track_count s'
    = Z.of_nat (length (filter (fun t => excluded 1 2 exclude_opts t = false)
                          (snd <$> taken))) mod 2 ^ 32.
Proof.
  apply (excluded_tracks_are_skipped 2 1 2 always always exclude_opts
           (LoadTrack <$> primary_tracks) []).
  - repeat constructor.
  - constructor.
Defined.

End TrackLoopRunsExample.

(** ** The exclusion lists of imdu *)

Section ExclusionLists.
Import libc libimd imdu imdu_runs imdu_args.

Lemma mark_tracks_keeps (n : nat) (t side_mask : Z) (skip : list Z) :
  (0 < length skip)%nat -> t + Z.of_nat n <= Z.of_nat (length skip) ->
  exists skip',
    mark_tracks n t side_mask skip = Some skip' /\
    length skip' = length skip /\
    forall i old, skip !! i = Some old ->
      skip' !! i = Some old \/ skip' !! i = Some (Z.lor old side_mask).
Proof.
  revert t skip. induction n as [|n IH]; intros t skip Hpos Hn; cbn [mark_tracks].
  { exists skip. split; [done|]. split; [done|]. by left. }
  destruct (lookup_lt_is_Some_2 skip (Z.to_nat t)) as [old Hold]; [lia|].
  rewrite Hold.
  destruct (IH (t + 1) (<[Z.to_nat t := Z.lor old side_mask]> skip)) as (skip' & -> & Hl & Hk).
  { rewrite length_insert. lia. }
  { rewrite length_insert. lia. }
  exists skip'. split; [done|]. rewrite length_insert in Hl. split; [done|].
  intros i x Hx. destruct (decide (i = Z.to_nat t)) as [->|Hne].
  - assert (x = old) as -> by congruence.
    destruct (Hk (Z.to_nat t) (Z.lor old side_mask)) as [H|H].
    + apply list_lookup_insert_eq. by eapply lookup_lt_Some.
    + by right.
    + right. rewrite H. f_equal. rewrite <- Z.lor_assoc. by rewrite Z.lor_diag.
  - apply Hk. by rewrite list_lookup_insert_ne.
Qed.

Lemma parse_num_shorter (strtoul : list Z -> Z * nat) (ptr ptr' : list Z) (val : Z) :
  parse_num strtoul ptr = Some (val, ptr') -> (length ptr' < length ptr)%nat.
Proof.
  unfold parse_num, char_at. destruct ptr as [|c ptr]; [done|].
  destruct (_ =? 0); [done|]. destruct (strtoul (c :: ptr)) as [v n].
  destruct (Nat.eqb_spec n 0); [done|]. intros [= _ <-].
  rewrite length_drop. cbn [length]. lia.
Qed.

Lemma set_skip_track_same (opts : Options) :
  set_skip_track opts (skip_track opts) = opts.
Proof. by destruct opts. Qed.

Lemma set_skip_track_twice (opts : Options) (skip1 skip2 : list Z) :
  set_skip_track (set_skip_track opts skip1) skip2 = set_skip_track opts skip2.
Proof. reflexivity. Qed.

Lemma parse_exclusion_keeps (strtoul : list Z -> Z * nat) (side_mask : Z) (fuel : nat)
    (ptr : list Z) (opts : Options) :
  (length ptr < fuel)%nat -> length (skip_track opts) = 256%nat ->
  exists skip' w,
    parse_exclusion strtoul fuel ptr side_mask opts = Some (set_skip_track opts skip', w) /\
    length skip' = 256%nat /\
    forall i old, skip_track opts !! i = Some old ->
      skip' !! i = Some old \/ skip' !! i = Some (Z.lor old side_mask).
Proof.
  revert ptr opts. induction fuel as [|fuel IH]; intros ptr opts Hfuel Hlen; [lia|].
  assert (Hsame : forall w : option exclusion_warning, exists skip' w',
            Some (opts, w) = Some (set_skip_track opts skip', w') /\
            length skip' = 256%nat /\
            forall i old, skip_track opts !! i = Some old ->
              skip' !! i = Some old \/ skip' !! i = Some (Z.lor old side_mask)).
  { intros w. exists (skip_track opts), w. rewrite set_skip_track_same.
    split; [done|]. split; [done|]. by left. }
  cbn [parse_exclusion]. destruct (char_at ptr 0 =? 0); [apply Hsame|].
  destruct (parse_num strtoul ptr) as [[start_track ptr1]|] eqn:E1; [|apply Hsame].
  apply parse_num_shorter in E1.
  assert (Hrange : exists range : exclusion_warning + Z * list Z,
            (if char_at ptr1 0 =? chr "-" then
               match parse_num strtoul (drop 1 ptr1) with
               | None => inl InvalidEnd
               | Some (end_track, ptr) =>
                   if end_track <? start_track then inl EndBeforeStart
                   else inr (end_track, ptr)
               end
             else inr (start_track, ptr1)) = range /\
            match range with
            | inl _ => True
            | inr (end_track, ptr2) =>
                start_track <= end_track /\ (length ptr2 <= length ptr1)%nat
            end).
  { eexists. split; [done|]. destruct (_ =? chr "-"); [|cbn; lia].
    destruct (parse_num strtoul (drop 1 ptr1)) as [[end_track ptr2]|] eqn:E2; [|done].
    apply parse_num_shorter in E2. rewrite length_drop in E2.
    destruct (Z.ltb_spec end_track start_track); [done|]. split; lia. }
  destruct Hrange as (range & -> & Hrange).
  destruct range as [w|[end_track ptr2]]; [apply Hsame|]. destruct Hrange as [Hle Hl2].
  unfold MAX_TRACKS.
  destruct (Z.leb_spec 256 start_track); [apply Hsame|].
  destruct (Z.leb_spec 256 end_track); [apply Hsame|]. cbn [orb].
  destruct (mark_tracks_keeps (Z.to_nat (end_track - start_track + 1)) start_track
              side_mask (skip_track opts)) as (skip1 & -> & Hl1 & Hk1); [lia|lia|].
  rewrite Hlen in Hl1.
  assert (Hnext : forall ptr3, (length ptr3 <= length ptr2)%nat ->
            exists skip' w,
              parse_exclusion strtoul fuel ptr3 side_mask (set_skip_track opts skip1)
              = Some (set_skip_track opts skip', w) /\
              length skip' = 256%nat /\
              forall i old, skip_track opts !! i = Some old ->
                skip' !! i = Some old \/ skip' !! i = Some (Z.lor old side_mask)).
  { intros ptr3 Hl3.
    destruct (IH ptr3 (set_skip_track opts skip1)) as (skip' & w & -> & Hl' & Hk');
      [lia|done|].
    exists skip', w. split; [done|]. split; [done|].
    intros i old Hold. cbn [skip_track set_skip_track] in Hk'.
    destruct (Hk1 i old Hold) as [H1|H1]; destruct (Hk' i _ H1) as [H2|H2]; auto.
    right. rewrite H2. f_equal. rewrite <- Z.lor_assoc. by rewrite Z.lor_diag. }
  destruct (char_at ptr2 0 =? chr ",").
  { apply Hnext. rewrite length_drop. lia. }
  destruct (char_at ptr2 0 =? 0); cbn [negb]; [by apply Hnext|].
  exists skip1, (Some UnexpectedCharacter). done.
Qed.

(** [parse_exclusion] returns on every string, whatever [strtoul]
    reads from it.  It changes nothing but the exclusion map, leaves
    each entry of the map as it was or with the side mask added, and so
    never lifts an exclusion made before. *)
Theorem parse_exclusion_only_adds (strtoul : list Z -> Z * nat) (value : list Z)
    (side_mask : Z) (opts : Options) :
  length (skip_track opts) = Z.to_nat MAX_TRACKS ->
  exists skip' w,
    parse_exclusion strtoul (S (length value)) value side_mask opts
    = Some (set_skip_track opts skip', w) /\
    length skip' = Z.to_nat MAX_TRACKS /\
    (forall i old, skip_track opts !! i = Some old ->
       skip' !! i = Some old \/ skip' !! i = Some (Z.lor old side_mask)) /\
    forall IMD_SIDE_0_MASK IMD_SIDE_1_MASK t,
      excluded IMD_SIDE_0_MASK IMD_SIDE_1_MASK opts t = true ->
      excluded IMD_SIDE_0_MASK IMD_SIDE_1_MASK (set_skip_track opts skip') t = true.
Proof.
  change (Z.to_nat MAX_TRACKS) with 256%nat. intros Hlen.
  destruct (parse_exclusion_keeps strtoul side_mask (S (length value)) value opts)
    as (skip' & w & Hrun & Hl & Hk); [lia|done|].
  exists skip', w. split; [done|]. split; [done|]. split; [done|].
  intros m0 m1 t. unfold excluded. cbn [skip_track set_skip_track].
  destruct (skip_track opts !! Z.to_nat (cyl t)) as [old|] eqn:E; [|by cbn].
  destruct (Hk _ _ E) as [-> | ->]; [done|]. cbn [default].
  set (bit := if head t =? 0 then m0 else m1).
  rewrite !negb_true_iff, !Z.eqb_neq. intros Hold Hnew. unfold id in *. apply Hold.
  rewrite Z.land_lor_distr_l in Hnew. by apply Z.lor_eq_0_iff in Hnew as [? _].
Qed.

Lemma parse_exclusion_only_adds_witness :
  exists skip' w,
    parse_exclusion (strtoul (2 ^ 64 - 1)) (S (length (cstr "1-3,x"))) (cstr "1-3,x") 1
      samples.merge_opts
    = Some (set_skip_track samples.merge_opts skip', w) /\
    length skip' = Z.to_nat MAX_TRACKS /\
    (forall i old, skip_track samples.merge_opts !! i = Some old ->
       skip' !! i = Some old \/ skip' !! i = Some (Z.lor old 1)) /\
    forall IMD_SIDE_0_MASK IMD_SIDE_1_MASK t,
      excluded IMD_SIDE_0_MASK IMD_SIDE_1_MASK samples.merge_opts t = true ->
      excluded IMD_SIDE_0_MASK IMD_SIDE_1_MASK (set_skip_track samples.merge_opts skip') t
      = true.
Proof.
  apply (parse_exclusion_only_adds (strtoul (2 ^ 64 - 1)) (cstr "1-3,x") 1
           samples.merge_opts).
  reflexivity.
Defined.

(** The ranges before a malformed item stay applied: [1-3,x] excludes
    the tracks 1 to 3 and warns about the start of the second item. *)
Example parse_exclusion_stops_at_bad_item :
  parse_exclusion (strtoul (2 ^ 64 - 1)) 6 (cstr "1-3,x") 1 samples.merge_opts
  = Some (set_skip_track samples.merge_opts ([0; 1; 1; 1] ++ replicate 252 0),
          Some InvalidStart).
Proof. vm_compute. reflexivity. Qed.

(** A number with a minus sign wraps around to a huge track number,
    which the bounds test refuses. *)
Example parse_exclusion_negative_number :
  parse_exclusion (strtoul (2 ^ 64 - 1)) 4 (cstr " -7") 1 samples.merge_opts
  = Some (samples.merge_opts, Some ExceedsMaximum).
Proof. vm_compute. reflexivity. Qed.

Lemma mark_tracks_marked (n : nat) (lo hi side_mask : Z) (skip : list Z) :
  0 <= lo -> Z.of_nat n = hi - lo + 1 -> hi < Z.of_nat (length skip) ->
  mark_tracks n lo side_mask skip = Some (marked lo hi side_mask skip).
Proof.
  revert lo skip. induction n as [|n IH]; intros lo skip Hlo Hn Hhi; cbn [mark_tracks].
  { f_equal. unfold marked. apply list_eq. intros i. rewrite list_lookup_imap.
    destruct (skip !! i); [|done]. cbn.
    destruct (Z.leb_spec lo (Z.of_nat i)), (Z.leb_spec (Z.of_nat i) hi); try done; lia. }
  destruct (lookup_lt_is_Some_2 skip (Z.to_nat lo)) as [old Hold]; [lia|].
  rewrite Hold, (IH (lo + 1)); [|lia|lia|rewrite length_insert; lia].
  f_equal. unfold marked. apply list_eq. intros i. rewrite !list_lookup_imap.
  destruct (decide (i = Z.to_nat lo)) as [->|Hne].
  - rewrite list_lookup_insert_eq by (by eapply lookup_lt_Some). rewrite Hold. cbn.
    destruct (Z.leb_spec (lo + 1) (Z.of_nat (Z.to_nat lo))); [lia|].
    destruct (Z.leb_spec lo (Z.of_nat (Z.to_nat lo))); [|lia].
    destruct (Z.leb_spec (Z.of_nat (Z.to_nat lo)) hi); [done|lia].
  - rewrite list_lookup_insert_ne by done. destruct (skip !! i); [|done]. cbn.
    destruct (Z.leb_spec (lo + 1) (Z.of_nat i)), (Z.leb_spec lo (Z.of_nat i));
      try done; lia.
Qed.

Lemma digit_bounds (c : Z) : isdigit c = true -> 48 <= c <= 57.
Proof. unfold isdigit. lia. Qed.

Lemma digits_app (ds rest : list Z) (acc : Z) :
  Forall (fun c => isdigit c = true) ds -> isdigit (char_at rest 0) = false ->
  digits acc (ds ++ rest) = (foldl (fun acc c => acc * 10 + (c - 48)) acc ds, length ds).
Proof.
  intros Hds Hrest. revert acc. induction Hds as [|c ds Hc _ IH]; intros acc.
  - cbn [app foldl length]. destruct rest as [|c rest]; [done|].
    unfold char_at in Hrest. cbn in Hrest. cbn [digits]. by rewrite Hrest.
  - cbn [app digits foldl length]. by rewrite Hc, IH.
Qed.

Lemma foldl_decimal_nonneg (ds : list Z) (acc : Z) :
  Forall (fun c => isdigit c = true) ds -> 0 <= acc ->
  0 <= foldl (fun acc c => acc * 10 + (c - 48)) acc ds.
Proof.
  intros Hds. revert acc. induction Hds as [|c ds Hc _ IH]; intros acc Hacc; [done|].
  cbn [foldl]. apply IH. apply digit_bounds in Hc. lia.
Qed.

Lemma parse_num_number (ULONG_MAX : Z) (ds rest : list Z) :
  number_text ds -> isdigit (char_at rest 0) = false -> decimal ds <= ULONG_MAX ->
  parse_num (strtoul ULONG_MAX) (ds ++ rest) = Some (decimal ds, rest).
Proof.
  intros [Hne Hds] Hrest Hmax. destruct ds as [|c ds]; [done|].
  pose proof (digit_bounds c (Forall_inv Hds)) as Hc.
  unfold parse_num, strtoul.
  change (char_at ((c :: ds) ++ rest) 0) with c.
  destruct (Z.eqb_spec c 0); [lia|].
  assert (Hsp : leading_spaces ((c :: ds) ++ rest) = 0%nat).
  { cbn [app leading_spaces]. unfold isspace.
    destruct (Z.eqb_spec c 32); [lia|]. destruct (Z.leb_spec 9 c), (Z.leb_spec c 13);
      try done; lia. }
  rewrite Hsp, drop_0. change (char_at ((c :: ds) ++ rest) 0) with c.
  change (chr "-") with 45. change (chr "+") with 43.
  destruct (Z.eqb_spec c 45); [lia|]. destruct (Z.eqb_spec c 43); [lia|]. rewrite drop_0.
  rewrite digits_app by done. fold (decimal (c :: ds)). cbn [length Nat.eqb].
  destruct (Z.ltb_spec ULONG_MAX (decimal (c :: ds))); [lia|].
  change (0 + 0 + S (length ds))%nat with (length (c :: ds)).
  by rewrite drop_app_length.
Qed.

Lemma parse_exclusion_item (ULONG_MAX : Z) (fuel : nat) (it : item) (rest : list Z)
    (side_mask : Z) (opts : Options) :
  MAX_TRACKS - 1 <= ULONG_MAX -> valid_item it ->
  length (skip_track opts) = 256%nat ->
  rest = [] \/ (exists rest', rest = chr "," :: rest') ->
  parse_exclusion (strtoul ULONG_MAX) (S fuel) (item_text it ++ rest) side_mask opts
  = parse_exclusion (strtoul ULONG_MAX) fuel (drop 1 rest) side_mask
      (set_skip_track opts (marked (item_lo it) (item_hi it) side_mask (skip_track opts))).
Proof.
  intros Hmax (Ha & Hb & Hlo) Hlen Hrest. unfold MAX_TRACKS in *.
  assert (Hnd : isdigit (char_at rest 0) = false).
  { destruct Hrest as [->|[rest' ->]]; reflexivity. }
  assert (Hnz : (char_at (item_text it ++ rest) 0 =? 0) = false).
  { destruct it as [a b]. destruct Ha as [Hne Hds]. cbn [fst] in *.
    destruct a as [|c a]; [done|]. apply Forall_inv, digit_bounds in Hds.
    unfold item_text. cbn [fst snd].
    destruct b; change (char_at _ 0) with c; lia. }
  assert (Hnn : 0 <= item_lo it).
  { apply foldl_decimal_nonneg; [apply Ha|done]. }
  cbn [parse_exclusion]. rewrite Hnz. unfold MAX_TRACKS.
  assert (Htail : forall skip,
            (if char_at rest 0 =? chr "," then
               parse_exclusion (strtoul ULONG_MAX) fuel (drop 1 rest) side_mask
                 (set_skip_track opts skip)
             else if negb (char_at rest 0 =? 0) then
               Some (set_skip_track opts skip, Some UnexpectedCharacter)
             else parse_exclusion (strtoul ULONG_MAX) fuel rest side_mask
                    (set_skip_track opts skip))
            = parse_exclusion (strtoul ULONG_MAX) fuel (drop 1 rest) side_mask
                (set_skip_track opts skip)).
  { intros skip. destruct Hrest as [->|[rest' ->]]; reflexivity. }
  destruct it as [a [b|]]; unfold item_lo, item_hi, item_text in *;
    cbn [fst snd default] in *; unfold id in *.
  - rewrite <- app_assoc. cbn [app].
    rewrite parse_num_number; [|done|reflexivity|lia].
    change (char_at (chr "-" :: b ++ rest) 0 =? chr "-") with true. cbv iota.
    change (drop 1 (chr "-" :: b ++ rest)) with (b ++ rest). rewrite parse_num_number; [|done|done|lia].
    destruct (Z.ltb_spec (decimal b) (decimal a)); [lia|].
    destruct (Z.leb_spec 256 (decimal a)); [lia|].
    destruct (Z.leb_spec 256 (decimal b)); [lia|]. cbn [orb].
    rewrite (mark_tracks_marked _ (decimal a) (decimal b)); [|lia|lia|lia].
    apply Htail.
  - rewrite parse_num_number; [|done|done|lia].
    assert (Hdash : (char_at rest 0 =? chr "-") = false).
    { destruct Hrest as [->|[rest' ->]]; reflexivity. }
    rewrite Hdash.
    destruct (Z.leb_spec 256 (decimal a)); [lia|]. cbn [orb].
    rewrite (mark_tracks_marked _ (decimal a) (decimal a)); [|lia|lia|lia].
    apply Htail.
Qed.

Lemma parse_exclusion_items (ULONG_MAX : Z) (side_mask : Z) (its : list item)
    (fuel : nat) (opts : Options) :
  MAX_TRACKS - 1 <= ULONG_MAX -> Forall valid_item its ->
  length (skip_track opts) = 256%nat -> (length its < fuel)%nat ->
  parse_exclusion (strtoul ULONG_MAX) fuel (list_text its) side_mask opts
  = Some (set_skip_track opts
            (imap (fun i old => if listed its i then Z.lor old side_mask else old)
               (skip_track opts)),
          None).
Proof.
  intros Hmax Hits. revert fuel opts.
  induction Hits as [|it its Hit Hits IH]; intros fuel opts Hlen Hfuel;
    (destruct fuel as [|fuel]; [cbn in Hfuel; lia|]).
  { cbn. do 2 f_equal. rewrite <- (set_skip_track_same opts) at 1. f_equal.
    apply list_eq. intros i. rewrite list_lookup_imap. by destruct (_ !! i). }
  cbn [length] in Hfuel.
  assert (Htext : exists rest,
            list_text (it :: its) = item_text it ++ rest /\
            (rest = [] \/ (exists rest', rest = chr "," :: rest')) /\
            drop 1 rest = list_text its).
  { destruct its as [|it' its'].
    - exists []. cbn [list_text]. rewrite app_nil_r. split; [done|]. split; [by left|done].
    - exists (chr "," :: list_text (it' :: its')). split; [done|].
      split; [right; by eexists|done]. }
  destruct Htext as (rest & -> & Hrest & Hdrop).
  rewrite parse_exclusion_item by done. rewrite Hdrop, IH; cbn [skip_track set_skip_track].
  - rewrite set_skip_track_twice.
    apply (f_equal (fun l => Some (set_skip_track opts l, None))).
    unfold marked. apply list_eq. intros i.
    rewrite !list_lookup_imap. destruct (skip_track opts !! i) as [old|]; [|done].
    cbn. f_equal. unfold listed. cbn [existsb].
    destruct (_ && _), (existsb _ its); cbn [orb]; try done.
    rewrite <- Z.lor_assoc. by rewrite Z.lor_diag.
  - unfold marked. by rewrite length_imap.
  - lia.
Qed.

Lemma length_list_text (its : list item) :
  Forall valid_item its -> (length its <= length (list_text its))%nat.
Proof.
  induction 1 as [|it its Hit Hits IH]; [done|].
  assert (1 <= length (item_text it))%nat.
  { destruct Hit as ([Hne _] & _). destruct it as [[|c a] b]; [done|].
    unfold item_text. cbn [fst snd]. destruct b; cbn [length app]; lia. }
  destruct its as [|it' its']; cbn [list_text length] in *; [lia|].
  rewrite length_app. cbn [length]. lia.
Qed.

(** A list of track numbers and ranges within the map, in decimal and
    separated by commas, is taken without warning: the side mask is
    added to the tracks the list names, and to no other. *)
Theorem parse_exclusion_marks_listed_tracks (ULONG_MAX : Z) (its : list item)
    (side_mask : Z) (opts : Options) :
  MAX_TRACKS - 1 <= ULONG_MAX -> Forall valid_item its ->
  length (skip_track opts) = Z.to_nat MAX_TRACKS ->
  parse_exclusion (strtoul ULONG_MAX) (S (length (list_text its))) (list_text its)
    side_mask opts
  = Some (set_skip_track opts
            (imap (fun i old => if listed its i then Z.lor old side_mask else old)
               (skip_track opts)),
          None).
Proof.
  intros Hmax Hits Hlen. apply parse_exclusion_items; try done.
  apply length_list_text in Hits. lia.
Qed.

Lemma parse_exclusion_marks_listed_tracks_witness :
  parse_exclusion (strtoul (2 ^ 64 - 1))
    (S (length (list_text [(cstr "0", None); (cstr "2", Some (cstr "3"))])))
    (list_text [(cstr "0", None); (cstr "2", Some (cstr "3"))]) 1 samples.merge_opts
  = Some (set_skip_track samples.merge_opts
            (imap (fun i old =>
                     if listed [(cstr "0", None); (cstr "2", Some (cstr "3"))] i
                     then Z.lor old 1 else old)
               (skip_track samples.merge_opts)),
          None).
Proof.
  apply (parse_exclusion_marks_listed_tracks (2 ^ 64 - 1)
           [(cstr "0", None); (cstr "2", Some (cstr "3"))] 1 samples.merge_opts).
  - unfold MAX_TRACKS. lia.
  - repeat apply Forall_cons_2; try apply Forall_nil_2;
      (split; [|split]);
      [split; [discriminate|by repeat constructor]
      |split; [discriminate|by repeat constructor]
      |vm_compute; split; [discriminate|reflexivity]
      |split; [discriminate|by repeat constructor]
      |split; [discriminate|by repeat constructor]
      |vm_compute; split; [discriminate|reflexivity]].
  - reflexivity.
Defined.

(** [-X0=0,2-3] on an empty map excludes side 0 of the tracks 0, 2
    and 3. *)
Example parse_exclusion_of_a_list :
  list_text [(cstr "0", None); (cstr "2", Some (cstr "3"))] = cstr "0,2-3" /\
  parse_exclusion (strtoul (2 ^ 64 - 1)) 6 (cstr "0,2-3") 1 samples.merge_opts
  = Some (set_skip_track samples.merge_opts ([1; 0; 1; 1] ++ replicate 252 0), None).
Proof. split; vm_compute; reflexivity. Qed.

End ExclusionLists.

(** ** Adding missing sectors: the target is reached *)

Section AddMissingTarget.
Import libimd imdu.

Implicit Types (used : list bool) (t : ImdTrackInfo).

(** With at most [idx] IDs in use and room for [n] more below 256, the
    appending loop never runs out of IDs: it stops after [n] sectors or
    at the end of the arrays, whichever comes first, and leaves the
    data buffer alone. *)
Lemma append_missing_count (max_spt : Z) (n : nat) t used (cand idx : Z) (ids : list Z) :
  0 <= idx <= max_spt -> idx + Z.of_nat n <= 255 ->
  length used = 256%nat -> 0 <= cand < 256 ->
  (forall c, 0 <= c < 256 -> used !! Z.to_nat c = Some true -> c ∈ ids) ->
  Z.of_nat (length ids) <= idx ->
  (forall c, 0 <= c < cand -> used !! Z.to_nat c = Some true) ->
  exists t',
    append_missing max_spt n t used cand idx = Some (t', Z.min (idx + Z.of_nat n) max_spt) /\
    data t' = data t /\ data_size t' = data_size t /\ sector_size t' = sector_size t.
Proof.
  revert t used cand idx ids.
  induction n as [|n IH]; intros t used cand idx ids Hidx Hn Lu Hcand Hused Hlen Hbelow.
  { exists t. cbn [append_missing]. rewrite Z.min_l by lia. by rewrite Z.add_0_r. }
  cbn [append_missing]. destruct (max_spt <=? idx) eqn:Emax.
  { apply Z.leb_le in Emax. exists t. rewrite Z.min_r by lia.
    by replace idx with max_spt by lia. }
  apply Z.leb_gt in Emax.
  destruct (find_unused_stops 257 used cand) as (c & Hfind & Hc & Hun & Hbelow');
    [done|lia| |].
  { intros Hall. apply (some_id_unused used ids Hused); [lia|].
    intros c ?. destruct (decide (c < cand)); [apply Hbelow|apply Hall]; lia. }
  rewrite Hfind. destruct (256 <=? c) eqn:Ec; [apply Z.leb_le in Ec; lia|].
  rewrite Z.mod_small by lia.
  destruct (IH (set_added_sector t idx c) (mark_used used c) c (idx + 1) (c :: ids))
    as (t' & Hrun & Hd & Hs & Hss).
  - lia.
  - lia.
  - by rewrite length_mark_used.
  - lia.
  - intros c' Hc' Hm. apply mark_used_lookup in Hm as [->|Hm]; [left|right; auto|lia|lia|done].
  - cbn [length]. lia.
  - intros c' Hc'. apply mark_used_lookup; [lia|lia|done|]. right.
    destruct (decide (c' < cand)); [apply Hbelow|apply Hbelow']; lia.
  - exists t'. split; [|done].
    rewrite Hrun. do 2 f_equal. lia.
Qed.

(** When [--add-missing] applies to a track ([sector_size > 0], fewer
    sectors than the target), the buffer holds the sectors read and
    [realloc] succeeds, the block ends with exactly
    [min(target, LIBIMD_MAX_SECTORS_PER_TRACK)] sectors; the buffer is
    the one read followed by fill bytes for the added sectors, and
    [data_size] matches the new sector count. *)
Theorem add_missing_reaches_target (max_spt : Z) (opts : Options) t (d : list Z) :
  track_ok max_spt t = true ->
  add_missing_sectors_active opts = true ->
  0 < sector_size t ->
  num_sectors t < add_missing_sectors_target opts mod 256 ->
  data t = Some d ->
  Z.of_nat (length d) = data_size t ->
  data_size t = num_sectors t * sector_size t ->
  exists t',
    add_missing_sectors max_spt opts true t = Some t' /\
    num_sectors t' = Z.min (add_missing_sectors_target opts mod 256) max_spt /\
    sector_size t' = sector_size t /\
    data_size t' = num_sectors t' * sector_size t' /\
    data t' = Some (d ++ replicate (Z.to_nat ((num_sectors t' - num_sectors t) * sector_size t))
                                   (fill_of opts)).
Proof.
  intros Hok Hact Hss Hlt Hd Hlen Hsize.
  destruct (track_ok_inv _ _ Hok) as (Ls & Lc & Lh & Lf & Hns & Hbyte & Hids).
  unfold add_missing_sectors.
  set (target := add_missing_sectors_target opts mod 256) in *.
  assert (Htarget : 0 <= target < 256) by (apply Z.mod_pos_bound; lia).
  rewrite Hact. replace (0 <? sector_size t) with true by (symmetry; apply Z.ltb_lt; lia).
  replace (num_sectors t <? target) with true by (symmetry; apply Z.ltb_lt; lia).
  cbn [andb].
  set (total := if max_spt <? target then max_spt mod 256 else target).
  assert (Htotal : total = Z.min target max_spt).
  { subst total. destruct (max_spt <? target) eqn:E.
    - apply Z.ltb_lt in E. rewrite Z.mod_small by lia. lia.
    - apply Z.ltb_ge in E. lia. }
  destruct (num_sectors t <? total) eqn:Etot.
  2: { apply Z.ltb_ge in Etot. cbn [Z.ltb]. exists t.
       assert (num_sectors t = total) by lia.
       split; [done|]. split; [lia|]. split; [done|]. split; [done|].
       replace (num_sectors t - num_sectors t) with 0 by lia. cbn.
       by rewrite Hd, app_nil_r. }
  apply Z.ltb_lt in Etot.
  rewrite (Z.mod_small (total - num_sectors t)) by lia.
  assert (Epos : (0 <? total - num_sectors t) = true) by (apply Z.ltb_lt; lia).
  assert (Egrow : (data_size t <? total * sector_size t) = true) by (apply Z.ltb_lt; nia).
  rewrite Epos, Egrow. cbn [orb andb]. rewrite Epos. cbn [andb].
  rewrite bool_decide_eq_true_2 by done.
  destruct (foldl_mark_used (replicate 256 false)
              (take (Z.to_nat (num_sectors t)) (smap t)))
    as [Lu Hmark]; [apply length_replicate|by apply Forall_take|].
  destruct (append_missing_count max_spt (Z.to_nat (total - num_sectors t))
              (set_data t (Some (resize (Z.to_nat (total * sector_size t)) (fill_of opts)
                                        (default [] (data t))))
                        (total * sector_size t))
              (foldl mark_used (replicate 256 false)
                     (take (Z.to_nat (num_sectors t)) (smap t)))
              0 (num_sectors t) (take (Z.to_nat (num_sectors t)) (smap t)))
    as (t2 & Happ & Hd2 & Hs2 & Hss2); [lia|lia|done|lia| | |intros c ?; lia|].
  - intros c Hc Hm. apply Hmark in Hm as [Hrep|?]; [|done|lia].
    apply lookup_replicate in Hrep as [? _]. done.
  - rewrite length_take. lia.
  - rewrite Happ. eexists. split; [done|]. cbn in Hd2, Hs2, Hss2 |- *.
    replace (Z.min (num_sectors t + Z.of_nat (Z.to_nat (total - num_sectors t))) max_spt)
      with total by lia.
    split; [lia|]. split; [done|]. split; [by rewrite Hs2, Hss2|].
    rewrite Hd2, Hd. cbn. f_equal.
    assert (Hmono : num_sectors t * sector_size t <= total * sector_size t) by nia.
    rewrite resize_ge by lia. do 2 f_equal.
    rewrite Z.mul_sub_distr_r. lia.
Qed.

Lemma add_missing_reaches_target_witness :
  exists t',
    add_missing_sectors 8 (samples.add_missing_opts 6) true samples.short_track = Some t' /\
    num_sectors t' = Z.min (6 mod 256) 8 /\
    sector_size t' = 2 /\
    data_size t' = num_sectors t' * sector_size t' /\
    data t' = Some ([1; 2; 3; 4; 5; 6] ++
                    replicate (Z.to_nat ((num_sectors t' - 3) * 2)) 0xE5).
Proof.
  apply (add_missing_reaches_target 8 (samples.add_missing_opts 6) samples.short_track
           [1; 2; 3; 4; 5; 6]); try reflexivity; cbn; lia.
Defined.

End AddMissingTarget.

(** ** The command line of imdcmp *)

Section ImdcmpArgs.
Import libc imdcmp imdcmp_args.

Lemma is_flag_long (c a x y : Z) (rest : list Z) :
  is_flag c (a :: x :: y :: rest) = false.
Proof. unfold is_flag. by rewrite !bool_decide_eq_false_2 by discriminate. Qed.

Lemma is_flag_two (c x : Z) :
  is_flag c [chr "-"; x] = (x =? c) || (x =? c + 32).
Proof.
  unfold is_flag.
  destruct (Z.eqb_spec x c) as [->|Hc].
  { by rewrite bool_decide_eq_true_2. }
  rewrite (bool_decide_eq_false_2 (_ = [_; c])) by congruence. cbn [orb].
  destruct (Z.eqb_spec x (c + 32)) as [->|Hc'].
  - by rewrite bool_decide_eq_true_2.
  - by rewrite bool_decide_eq_false_2 by congruence.
Qed.

(** An argument that starts with a dash is either an accepted option,
    with the effect [option_effect], or ends the parse. *)
Lemma parse_arg_option (st : parse_state) (arg : list Z) :
  starts_with_dash arg = true ->
  ignore_compression (ps_opts st) && strict_compression (ps_opts st) = false ->
  (accepted_option arg = true /\
   parse_arg st arg = Next (with_opts st (option_effect (ps_opts st) arg))) \/
  (accepted_option arg = false /\ forall st', parse_arg st arg <> Next st').
Proof.
  intros Hdash Hinv. unfold parse_arg. unfold starts_with_dash in Hdash. rewrite Hdash.
  destruct st as [[ig sc q w d] f1 f2 fc]. cbn in Hinv.
  cbn [ps_opts ignore_compression strict_compression quiet warn_error detail].
  destruct arg as [|a [|x [|y rest]]]; [done|..];
    (apply Z.eqb_eq in Hdash; change (a = chr "-") in Hdash; subst a).
  - (* the dash alone *)
    right. split; [reflexivity|]. intros st'. cbn. done.
  - (* two characters *)
    unfold accepted_option, option_effect, is_werror.
    cbn [ignore_compression strict_compression quiet warn_error detail].
    rewrite !is_flag_two.
    rewrite (bool_decide_eq_false_2 (_ = cstr "-Werror")) by discriminate.
    rewrite (bool_decide_eq_false_2 (_ = cstr "--help")) by discriminate.
    cbn [length Nat.eqb char_at lookup list_lookup default from_option id orb].
    change (default 0 ([chr "-"; x] !! 1%nat)) with x.
    assert (Hw : bool_decide ([chr "-"; x] = cstr "-W") = (x =? 87)).
    { destruct (Z.eqb_spec x 87) as [->|Hne].
      - by rewrite bool_decide_eq_true_2.
      - rewrite bool_decide_eq_false_2; [done|]. intros [= ?]. done. }
    rewrite Hw. unfold toupper, islower. change (chr "C") with 67.
    change (chr "S") with 83. change (chr "Q") with 81. change (chr "D") with 68.
    change (chr "W") with 87. change (chr "H") with 72.
    destruct (decide (x = 67)) as [->|?]; [left; destruct ig, sc, q, w, d; cbn in Hinv; try discriminate; vm_compute; done|].
    destruct (decide (x = 99)) as [->|?]; [left; destruct ig, sc, q, w, d; cbn in Hinv; try discriminate; vm_compute; done|].
    destruct (decide (x = 83)) as [->|?]; [left; destruct ig, sc, q, w, d; cbn in Hinv; try discriminate; vm_compute; done|].
    destruct (decide (x = 115)) as [->|?]; [left; destruct ig, sc, q, w, d; cbn in Hinv; try discriminate; vm_compute; done|].
    destruct (decide (x = 81)) as [->|?]; [left; destruct ig, sc, q, w, d; cbn in Hinv; try discriminate; vm_compute; done|].
    destruct (decide (x = 113)) as [->|?]; [left; destruct ig, sc, q, w, d; cbn in Hinv; try discriminate; vm_compute; done|].
    destruct (decide (x = 68)) as [->|?]; [left; destruct ig, sc, q, w, d; cbn in Hinv; try discriminate; vm_compute; done|].
    destruct (decide (x = 100)) as [->|?]; [left; destruct ig, sc, q, w, d; cbn in Hinv; try discriminate; vm_compute; done|].
    destruct (decide (x = 87)) as [->|?]; [left; destruct ig, sc, q, w, d; cbn in Hinv; try discriminate; vm_compute; done|].
    destruct (decide (x = 119)) as [->|?]; [right; split; [vm_compute; done|]; intros st'; vm_compute; done|].
    destruct (decide (x = 72)) as [->|?]; [right; split; [vm_compute; done|]; intros st'; vm_compute; done|].
    destruct (decide (x = 104)) as [->|?]; [right; split; [vm_compute; done|]; intros st'; vm_compute; done|].
    right.
    repeat match goal with
           | |- context [?a =? ?b] =>
               lazymatch b with
               | context [x] => fail
               | _ => rewrite (proj2 (Z.eqb_neq a b)) by lia
               end
           end.
    cbn [orb]. split; [done|]. intros st'.
    destruct ((97 <=? x) && (x <=? 122)) eqn:El.
    + apply andb_true_iff in El as [?%Z.leb_le ?%Z.leb_le].
      rewrite !(proj2 (Z.eqb_neq (x - 32) _)) by lia. done.
    + rewrite !(proj2 (Z.eqb_neq x _)) by lia. done.
  - (* three characters or more *)
    unfold accepted_option, option_effect, is_werror. rewrite !is_flag_long.
    rewrite (bool_decide_eq_false_2 (_ = cstr "-W")) by discriminate.
    cbn [orb andb negb]. rewrite !orb_false_r.
    destruct (bool_decide (_ = cstr "-Werror")) eqn:Ew.
    + left. split; [done|].
      destruct ig, sc, q, w, d; cbn in Hinv; try discriminate; reflexivity.
    + right. split; [done|]. intros st'.
      destruct (bool_decide (_ = cstr "--help")); [done|].
      cbn [length Nat.eqb]. done.
Qed.

Lemma option_effect_invariant (o : Options) (arg : list Z) :
  ignore_compression (option_effect o arg) && strict_compression (option_effect o arg)
  = false.
Proof.
  cbn. destruct (ignore_compression o || _), (strict_compression o || _); done.
Qed.

Lemma parse_loop_snoc (args : list (list Z)) (arg : list Z) (st : parse_state) :
  parse_loop st (args ++ [arg])
  = match parse_loop st args with
    | Next st' => parse_arg st' arg
    | r => r
    end.
Proof.
  revert st. induction args as [|a args IH]; intros st; cbn [parse_loop app].
  - by destruct (parse_arg st arg).
  - destruct (parse_arg st a); [apply IH|done|done].
Qed.

Lemma is_flag_dash (c : Z) (arg : list Z) :
  starts_with_dash arg = false -> is_flag c arg = false.
Proof.
  intros Hd. unfold is_flag.
  rewrite !bool_decide_eq_false_2; [done|intros ->; done|intros ->; done].
Qed.

Lemma is_werror_dash (arg : list Z) :
  starts_with_dash arg = false -> is_werror arg = false.
Proof.
  intros Hd. unfold is_werror.
  rewrite !bool_decide_eq_false_2; [done|intros ->; done|intros ->; done].
Qed.

Lemma options_of_flags_snoc (args : list (list Z)) (arg : list Z) :
  options_of_flags (args ++ [arg]) = option_effect (options_of_flags args) arg.
Proof.
  unfold options_of_flags, option_effect. rewrite !existsb_app. cbn [existsb].
  cbn [ignore_compression strict_compression quiet warn_error detail].
  rewrite !orb_false_r.
  destruct (existsb (is_flag (chr "C")) args), (existsb (is_flag (chr "S")) args),
    (is_flag (chr "C") arg), (is_flag (chr "S") arg); reflexivity.
Qed.

Lemma options_of_flags_file (args : list (list Z)) (arg : list Z) :
  starts_with_dash arg = false ->
  options_of_flags (args ++ [arg]) = options_of_flags args.
Proof.
  intros Hd. unfold options_of_flags. rewrite !existsb_app. cbn [existsb].
  rewrite !is_flag_dash, is_werror_dash by done. by rewrite !orb_false_r.
Qed.

Lemma options_of_flags_invariant (args : list (list Z)) :
  ignore_compression (options_of_flags args) && strict_compression (options_of_flags args)
  = false.
Proof. cbn. by destruct (existsb _ args), (existsb _ args). Qed.

(** The loop over the arguments, from the state [parse_args] starts
    in. *)
Lemma parse_prefix_spec (args : list (list Z)) :
  let files := filter (fun arg => starts_with_dash arg = false) args in
  let known :=
    forallb (fun arg => negb (starts_with_dash arg) || accepted_option arg) args in
  match parse_loop (mkParseState (mkOptions false false false false false) None None 0)
                   args with
  | Next st =>
      known = true /\ (length files <= 2)%nat /\
      ps_opts st = options_of_flags args /\
      file_count st = Z.of_nat (length files) /\
      filename1 st = files !! 0%nat /\ filename2 st = files !! 1%nat
  | _ => known = false \/ (2 < length files)%nat
  end.
Proof.
  induction args as [|arg args IH] using rev_ind; cbn zeta.
  { cbn. repeat split; lia. }
  cbn zeta in IH.
  rewrite parse_loop_snoc, forallb_app, filter_app, length_app.
  cbn [forallb]. rewrite andb_true_r, filter_cons, filter_nil.
  destruct (parse_loop _ args) as [st| |].
  2, 3: destruct IH as [->|?]; [by left|right; lia].
  destruct IH as (Hk & Hl & Ho & Hc & H1 & H2). rewrite Hk. cbn [andb].
  destruct (starts_with_dash arg) eqn:Ed.
  - rewrite decide_False by done. cbn [negb orb length]. rewrite app_nil_r, Nat.add_0_r.
    destruct (parse_arg_option st arg Ed) as [[Ha Hp]|[Ha Hp]].
    { rewrite Ho. apply options_of_flags_invariant. }
    + rewrite Hp, Ha. cbn. rewrite Ho, options_of_flags_snoc. done.
    + rewrite Ha. destruct (parse_arg st arg) as [st'| |]; [by destruct (Hp st')|by left..].
  - rewrite decide_True by done. cbn [negb orb length].
    unfold parse_arg. pose proof Ed as Ed'. unfold starts_with_dash in Ed'. rewrite Ed'.
    set (files := filter (fun a => starts_with_dash a = false) args) in *.
    rewrite options_of_flags_file by done.
    destruct files as [|f1 [|f2 [|f3 files]]]; cbn [length] in Hl, Hc |- *;
      cbn in H1, H2; try lia.
    + replace (file_count st) with 0 by lia. cbn. repeat split; try done; lia.
    + replace (file_count st) with 1 by lia. cbn. repeat split; try done; lia.
    + replace (file_count st) with 2 by lia. cbn. right. lia.
Qed.

(** [parse_args] returns 0 exactly on the command lines made of
    accepted options and two other arguments.  The options it leaves
    are those the flags ask for, [-S] cancelling [-C] whatever their
    order, so that the two are never both set; the file names are the
    two other arguments, in order.  On every other command line it
    returns -1 or leaves the program through the usage text. *)
Theorem parse_args_accepts (args : list (list Z)) :
  let files := filter (fun arg => starts_with_dash arg = false) args in
  match parse_args args with
  | Next st =>
      accepted_command_line args = true /\
      ps_opts st = options_of_flags args /\
      ignore_compression (ps_opts st) && strict_compression (ps_opts st) = false /\
      Some <$> files = [filename1 st; filename2 st]
  | _ => accepted_command_line args = false
  end.
Proof.
  cbn zeta. unfold parse_args, accepted_command_line.
  pose proof (parse_prefix_spec args) as H. cbn zeta in H.
  destruct (parse_loop _ args) as [st| |].
  2, 3: destruct H as [->|H]; [done|];
        apply andb_false_iff; right; apply Nat.eqb_neq; lia.
  destruct H as (Hk & Hl & Ho & Hc & H1 & H2). rewrite Hk, Hc. cbn [andb].
  set (files := filter (fun a => starts_with_dash a = false) args) in *.
  destruct files as [|f1 [|f2 [|f3 files]]]; cbn in Hl, H1, H2 |- *; try lia; try done.
  change (Z.of_nat 2) with 2. cbn [Z.eqb Pos.eqb negb].
  rewrite Ho, H1, H2. split; [done|]. split; [done|].
  split; [apply options_of_flags_invariant|done].
Qed.

(** [imdcmp -c a.imd -S b.imd]: strict mode, [-C] dropped. *)
Example parse_args_strict_wins :
  parse_args [cstr "-c"; cstr "a.imd"; cstr "-S"; cstr "b.imd"]
  = Next (mkParseState (mkOptions false true false false false)
                       (Some (cstr "a.imd")) (Some (cstr "b.imd")) 2).
Proof. vm_compute. reflexivity. Qed.

(** [-w] is refused although [-W] is accepted. *)
Example parse_args_lower_case_w :
  parse_args [cstr "-w"; cstr "a.imd"; cstr "b.imd"] = ReturnError /\
  exists st, parse_args [cstr "-W"; cstr "a.imd"; cstr "b.imd"] = Next st /\
             warn_error (ps_opts st) = true.
Proof. split; [vm_compute; reflexivity|]. eexists. vm_compute. done. Qed.

End ImdcmpArgs.

(** ** Whole runs of the track loop of imdcmp *)

Section CompareRuns.
Import libc libimd imdcmp imdcmp_args.

(** On two files whose tracks hold their sectors, the loop ends
    within one turn per track of the first file plus one, and keeps
    every property of [diff_flags] that the two ways of adding bits
    keep. *)
Lemma track_loop_ends (P : Z -> Prop) (max_spt : Z) (opts : Options) :
  (forall d, P d -> P (Z.lor d C_DIFF_FILE_STRUCT)) ->
  (forall d t1 t2, holds_sectors t1 -> holds_sectors t2 -> P d ->
     exists bits, compare_tracks opts t1 t2 = Some bits /\ P (Z.lor d bits)) ->
  forall (fuel : nat) (s : state),
    Forall stream_holds_sectors (fimd1 s) -> Forall stream_holds_sectors (fimd2 s) ->
    (length (fimd1 s) < fuel)%nat -> P (diff_flags s) ->
    exists s', track_loop fuel max_spt opts s = Some s' /\ P (diff_flags s').
Proof.
  intros Hstruct Htracks fuel. induction fuel as [|fuel IH]; intros s H1 H2 Hfuel HP; [lia|].
  cbn [track_loop].
  destruct (negb (eof1 s) || negb (eof2 s)); [|by exists s].
  destruct s as [f1 f2 t1 t2 e1 e2 d rc n log]. cbn in H1, H2, Hfuel, HP.
  unfold loop_body, load1, load2. cbn -[compare_tracks].
  destruct e1; cbn -[compare_tracks].
  - (* the first file has ended *)
    destruct e2; cbn -[compare_tracks]; [by eexists|].
    destruct f2 as [|[t|] f2']; cbn -[compare_tracks]; try (by eexists).
    eexists. split; [done|]. cbn. by apply Hstruct.
  - destruct f1 as [|[t|] f1']; cbn -[compare_tracks]; try (by eexists).
    + destruct e2; cbn -[compare_tracks]; [by eexists|].
      destruct f2 as [|[t|] f2']; cbn -[compare_tracks]; try (by eexists).
      eexists. split; [done|]. cbn. by apply Hstruct.
    + destruct e2; cbn -[compare_tracks].
      { eexists. split; [done|]. cbn. by apply Hstruct. }
      destruct f2 as [|[t'|] f2']; cbn -[compare_tracks]; try (by eexists).
      { eexists. split; [done|]. cbn. by apply Hstruct. }
      apply Forall_cons in H1 as [Ht H1]. apply Forall_cons in H2 as [Ht' H2].
      destruct (Htracks d (mark_loaded t) (mark_loaded t')) as (bits & -> & Hbits);
        [done..|].
      destruct (negb (Z.land _ C_MASK_HARD_DIFF =? 0)).
      { eexists. split; [done|]. done. }
      cbn [length] in Hfuel. apply IH; cbn; [done|done|lia|done].
Qed.

(** *** When compression is ignored the compression bit is never raised *)

Lemma compare_sector_ignores_compression (opts : Options) (t1 t2 : ImdTrackInfo)
    (i : nat) (bits : Z) :
  ignore_compression opts = true -> compare_sector opts t1 t2 i = Some bits ->
  Z.testbit bits 6 = false.
Proof.
  unfold compare_sector. cbv zeta. intros ->. cbn [negb].
  destruct (sector_window t1 i _); [|done]. destruct (sector_window t2 i _); [|done].
  intros [= <-]. rewrite andb_false_r, Z.lor_spec.
  repeat match goal with
         | |- context [if ?b then _ else _] => destruct b
         end; reflexivity.
Qed.

Lemma compare_tracks_ignores_compression (opts : Options) (t1 t2 : ImdTrackInfo) :
  ignore_compression opts = true -> holds_sectors t1 -> holds_sectors t2 ->
  exists bits, compare_tracks opts t1 t2 = Some bits /\ Z.testbit bits 6 = false.
Proof.
  intros Hopt Ht1 Ht2. unfold compare_tracks.
  match goal with
  | |- context [if ?c then Some C_DIFF_TRACK_HDR else _] => destruct c eqn:Ehdr
  end; [by eexists|].
  repeat (apply orb_false_iff in Ehdr as [Ehdr ?]).
  assert (Hn : num_sectors t1 = num_sectors t2) by (apply Z.eqb_eq; by apply negb_false_iff).
  assert (Hc : sector_size_code t1 = sector_size_code t2)
    by (apply Z.eqb_eq; by apply negb_false_iff).
  assert (Hs : sector_size t1 = sector_size t2).
  { destruct Ht1 as [-> _], Ht2 as [-> _]. by rewrite Hc. }
  apply (compare_sectors_fold (fun d => Z.testbit d 6 = false)
                              (fun b => Z.testbit b 6 = false)).
  - intros i Hi. apply elem_of_seq in Hi.
    destruct (sector_window_defined t1 i (sector_size t1) Ht1 eq_refl) as [w1 E1]; [lia|].
    destruct (sector_window_defined t2 i (sector_size t1) Ht2 Hs) as [w2 E2]; [lia|].
    destruct (compare_sector opts t1 t2 i) as [bits|] eqn:E.
    + exists bits. split; [done|]. by eapply compare_sector_ignores_compression.
    + exfalso. unfold compare_sector in E. rewrite E1, E2 in E. done.
  - intros d bits Hd Hb. by rewrite Z.lor_spec, Hd, Hb.
  - repeat match goal with
           | |- context [if ?b then _ else _] => destruct b
           end; reflexivity.
Qed.

Lemma compress_bit_clear (d : Z) :
  Z.testbit d 6 = false -> Z.land d C_DIFF_COMPRESS = 0.
Proof.
  intros Hd. apply Z.bits_inj'. intros k Hk.
  rewrite Z.land_spec, Z.bits_0. change C_DIFF_COMPRESS with (2 ^ 6).
  rewrite Z.pow2_bits_eqb by lia.
  destruct (Z.eqb_spec 6 k) as [<-|?]; [by rewrite Hd|apply andb_false_r].
Qed.

(** With [ignore_compression] set, the run ends and its exit code is
    not the "compression differs" code 2. *)
Lemma ignore_compression_exit_code
    (max_spt : Z) (opts : Options) (comment1 comment2 : list Z) (f1 f2 : track_stream) :
  ignore_compression opts = true ->
  Forall stream_holds_sectors f1 -> Forall stream_holds_sectors f2 ->
  exists code,
    main_from_tracks (S (length f1)) max_spt opts comment1 comment2 f1 f2 = Some code /\
    code <> EXIT_DIFF_COMPRESS.
Proof.
  intros Hopt H1 H2. unfold main_from_tracks.
  destruct (track_loop_ends (fun d => Z.testbit d 6 = false) max_spt opts) with
    (fuel := S (length f1)) (s := initial_state max_spt comment1 comment2 f1 f2)
    as (s' & Hrun & Hbit).
  - intros d Hd. by rewrite Z.lor_spec, Hd.
  - intros d t1 t2 Ht1 Ht2 Hd.
    destruct (compare_tracks_ignores_compression opts t1 t2 Hopt Ht1 Ht2)
      as (bits & -> & Hb).
    exists bits. split; [done|]. by rewrite Z.lor_spec, Hd, Hb.
  - done.
  - done.
  - cbn. lia.
  - cbn. by destruct (negb _).
  - rewrite Hrun. eexists. split; [done|].
    unfold exit_code. rewrite (compress_bit_clear _ Hbit). cbn [Z.eqb negb andb orb].
    repeat match goal with
           | |- context [if ?b then _ else _] => destruct b eqn:?
           end; try done.
    apply Z.eqb_eq in Heqb. rewrite Heqb. done.
Qed.

(** The options [parse_args] returns are those the flags ask for. *)
Lemma parse_args_options (args : list (list Z)) (st : parse_state) :
  parse_args args = Next st -> ps_opts st = options_of_flags args.
Proof.
  unfold parse_args. pose proof (parse_prefix_spec args) as H. cbn zeta in H.
  destruct (parse_loop _ args) as [st'| |]; [|done..].
  destruct (negb _); [done|]. intros [= <-]. by destruct H as (_ & _ & ? & _).
Qed.

(** On a command line with [-C] and without [-S] that [parse_args]
    accepts, and two files whose tracks hold their sectors, the
    comparison ends and its exit code is not 2 ("differ only in
    compression"), whatever the other options and the contents of the
    files. *)
Theorem ignore_compression_never_exits_with_2
    (args : list (list Z)) (st : parse_state) (max_spt : Z)
    (comment1 comment2 : list Z) (f1 f2 : track_stream) :
  parse_args args = Next st ->
  existsb (is_flag (chr "C")) args = true ->
  existsb (is_flag (chr "S")) args = false ->
  Forall stream_holds_sectors f1 -> Forall stream_holds_sectors f2 ->
  exists code,
    main_from_tracks (S (length f1)) max_spt (ps_opts st) comment1 comment2 f1 f2
    = Some code /\
    code <> EXIT_DIFF_COMPRESS.
Proof.
  intros Hparse HC HS H1 H2. apply ignore_compression_exit_code; [|done..].
  rewrite (parse_args_options _ _ Hparse). cbn [ignore_compression options_of_flags].
  by rewrite HC, HS.
Qed.

Lemma ignore_compression_never_exits_with_2_witness :
  exists code,
    main_from_tracks (S (length [LoadTrack (samples.uniform_track 1)])) 1
      (ps_opts (mkParseState (mkOptions true false false false false)
                  (Some (cstr "a.imd")) (Some (cstr "b.imd")) 2))
      [] []
      [LoadTrack (samples.uniform_track 1)] [LoadTrack (samples.uniform_track 2)]
    = Some code /\
    code <> EXIT_DIFF_COMPRESS.
Proof.
  apply (ignore_compression_never_exits_with_2
           [cstr "-C"; cstr "a.imd"; cstr "b.imd"]
           (mkParseState (mkOptions true false false false false)
              (Some (cstr "a.imd")) (Some (cstr "b.imd")) 2)).
  - vm_compute. reflexivity.
  - vm_compute. reflexivity.
  - vm_compute. reflexivity.
  - apply Forall_cons_2; [|apply Forall_nil_2].
    split; [reflexivity|]. right. eexists. split; [reflexivity|]. cbn. lia.
  - apply Forall_cons_2; [|apply Forall_nil_2].
    split; [reflexivity|]. right. eexists. split; [reflexivity|]. cbn. lia.
Defined.

(** Two files that differ in the compression of one sector only:
    exit code 0 with [-C], and 2 once [-S] is given as well, which
    cancels [-C]. *)
Example compression_only_difference :
  (exists st, parse_args [cstr "-C"; cstr "a.imd"; cstr "b.imd"] = Next st /\
     main_from_tracks 2 1 (ps_opts st) [] []
       [LoadTrack (samples.uniform_track 1)] [LoadTrack (samples.uniform_track 2)]
     = Some EXIT_MATCH) /\
  (exists st, parse_args [cstr "-C"; cstr "-S"; cstr "a.imd"; cstr "b.imd"] = Next st /\
     main_from_tracks 2 1 (ps_opts st) [] []
       [LoadTrack (samples.uniform_track 1)] [LoadTrack (samples.uniform_track 2)]
     = Some EXIT_DIFF_COMPRESS).
Proof. split; eexists; (split; [vm_compute; reflexivity|]); vm_compute; reflexivity. Qed.

(** *** A file compared with itself *)

Lemma same_tracks_match (max_spt : Z) (opts : Options) (ts : list ImdTrackInfo)
    (fuel : nat) (n : Z) :
  Forall holds_sectors ts -> (length ts < fuel)%nat ->
  exit_code opts <$>
    track_loop fuel max_spt opts
      (mkState (LoadTrack <$> ts) (LoadTrack <$> ts)
               (zero_track max_spt) (zero_track max_spt) false false
               C_DIFF_NONE EXIT_MATCH n [])
  = Some EXIT_MATCH.
Proof.
  intros Hts. revert fuel n.
  induction Hts as [|t0 ts Ht0 Hts IH]; intros fuel n Hfuel;
    (destruct fuel as [|fuel]; [cbn in Hfuel; lia|]).
  - cbn. unfold exit_code. cbn. by destruct (strict_compression opts), (warn_error opts).
  - cbn in Hfuel. cbn -[compare_tracks exit_code].
    rewrite compare_tracks_same by done. cbn -[exit_code]. apply IH. lia.
Qed.

(** Two files with the same comment and the same tracks, each track
    holding its sectors, compare as matching, with exit code 0, under
    every combination of options. *)
Theorem identical_files_match (max_spt : Z) (opts : Options) (comment : list Z)
    (ts : list ImdTrackInfo) :
  Forall holds_sectors ts ->
  main_from_tracks (S (length ts)) max_spt opts comment comment
    (LoadTrack <$> ts) (LoadTrack <$> ts) = Some EXIT_MATCH.
Proof.
  intros Hts. unfold main_from_tracks, initial_state.
  rewrite bool_decide_eq_true_2 by done. cbn [negb].
  apply same_tracks_match; [done|lia].
Qed.

Lemma identical_files_match_witness :
  main_from_tracks (S (length [samples.uniform_track 1; samples.uniform_track 2])) 1
    samples.compare_opts (cstr "a disk") (cstr "a disk")
    (LoadTrack <$> [samples.uniform_track 1; samples.uniform_track 2])
    (LoadTrack <$> [samples.uniform_track 1; samples.uniform_track 2])
  = Some EXIT_MATCH.
Proof.
  apply (identical_files_match 1 samples.compare_opts (cstr "a disk")
           [samples.uniform_track 1; samples.uniform_track 2]).
  repeat (apply Forall_cons_2; [|try apply Forall_nil_2]);
    (split; [reflexivity|]; right; eexists; split; [reflexivity|]; cbn; lia).
Defined.

(** A track whose buffer does not hold its sector has no defined
    comparison: the model gives no exit code for it. *)
Example missing_buffer_has_no_result :
  main_from_tracks 2 1 samples.compare_opts [] []
    [LoadTrack samples_more.no_buffer_track]
    [LoadTrack samples_more.no_buffer_track] = None.
Proof. reflexivity. Qed.

End CompareRuns.

(** ** The summary of imdchk *)

Section ImdchkReport.
Import imdchk_report.

Lemma land_pow2_eqb (a k : Z) :
  0 <= k -> (Z.land a (2 ^ k) =? 0) = negb (Z.testbit a k).
Proof.
  intros Hk. destruct (Z.testbit a k) eqn:E; cbn [negb].
  - apply Z.eqb_neq. intros H0.
    apply (f_equal (fun z => Z.testbit z k)) in H0.
    rewrite Z.land_spec, E, Z.pow2_bits_true, Z.bits_0 in H0 by lia. done.
  - apply Z.eqb_eq. apply Z.bits_inj'. intros j Hj.
    rewrite Z.land_spec, Z.bits_0, Z.pow2_bits_eqb by lia.
    destruct (Z.eqb_spec k j) as [<-|?]; [by rewrite E|apply andb_false_r].
Qed.

(** The loop from bit [2^(32-m)] on lists the [m] bits that are left. *)
Lemma list_checks_from (error_mask : Z) (m : nat) :
  (m <= 32)%nat ->
  forall (fuel : nat) (acc : summary),
    (m < fuel)%nat ->
    exists s,
      list_checks fuel error_mask (2 ^ (32 - Z.of_nat m) mod 2 ^ 32) acc = Some s /\
      lines s = lines acc ++
                ((fun k => (Z.testbit error_mask k, 2 ^ k))
                   <$> seqZ (32 - Z.of_nat m) (Z.of_nat m)) /\
      error_count s = error_count acc +
                      Z.of_nat (length (filter (fun k => Z.testbit error_mask k = true)
                                               (seqZ (32 - Z.of_nat m) (Z.of_nat m)))) /\
      error_count s + warning_count s = error_count acc + warning_count acc + Z.of_nat m.
Proof.
  induction m as [|m IH]; intros Hm fuel acc Hfuel;
    (destruct fuel as [|fuel]; [lia|]); cbn [list_checks].
  { change (2 ^ (32 - Z.of_nat 0) mod 2 ^ 32) with 0. cbn.
    exists acc. rewrite app_nil_r.
    change (seqZ (32 - Z.of_nat 0) (Z.of_nat 0)) with (@nil Z).
    rewrite filter_nil. cbn [length]. repeat split; lia. }
  set (k := 32 - Z.of_nat (S m)).
  assert (Hk : 0 <= k < 32) by lia.
  assert (Hpow : 0 < 2 ^ k < 2 ^ 32).
  { split; [apply Z.pow_pos_nonneg; lia|apply Z.pow_lt_mono_r; lia]. }
  rewrite (Z.mod_small (2 ^ k)) by lia.
  rewrite (proj2 (Z.eqb_neq (2 ^ k) 0)) by lia.
  rewrite land_pow2_eqb, negb_involutive by lia.
  rewrite Z.shiftl_mul_pow2 by lia.
  replace (2 ^ k * 2 ^ 1) with (2 ^ (32 - Z.of_nat m))
    by (rewrite <- Z.pow_add_r by lia; f_equal; lia).
  destruct (IH ltac:(lia) fuel
              {| lines := lines acc ++ [(Z.testbit error_mask k, 2 ^ k)];
                 error_count := if Z.testbit error_mask k then error_count acc + 1
                                else error_count acc;
                 warning_count := if Z.testbit error_mask k then warning_count acc
                                  else warning_count acc + 1 |})
    as (s & Hrun & Hl & He & Hsum); [lia|].
  exists s. split; [done|]. cbn [lines error_count warning_count] in Hl, He, Hsum.
  replace (Z.of_nat (S m)) with (Z.succ (Z.of_nat m)) by lia.
  rewrite seqZ_cons by lia. replace (Z.pred (Z.succ (Z.of_nat m))) with (Z.of_nat m) by lia.
  replace (Z.succ k) with (32 - Z.of_nat m) by lia.
  split; [by rewrite Hl, <- app_assoc|].
  rewrite filter_cons.
  destruct (Z.testbit error_mask k) eqn:E.
  - rewrite decide_True by done. cbn [length]. split; lia.
  - rewrite decide_False by done. split; lia.
Qed.

(** In quiet mode [report_results] prints nothing.  Otherwise, as soon
    as one check failed, whichever it is, the summary lists all 32
    bits, each tagged by the error mask alone: "Errors Reported" is the
    number of bits set in the error mask and "Warnings Reported" the
    number of bits clear in it. *)
Theorem report_lists_every_bit (error_mask check_failures_mask : Z) :
  check_failures_mask <> 0 ->
  report_results true 33 error_mask check_failures_mask = Some None /\
  exists s,
    report_results false 33 error_mask check_failures_mask = Some (Some s) /\
    lines s = (fun k => (Z.testbit error_mask k, 2 ^ k)) <$> seqZ 0 32 /\
    error_count s = bits_set error_mask /\
    warning_count s = 32 - bits_set error_mask.
Proof.
  intros Hne. split; [done|]. unfold report_results, check_results.
  rewrite (proj2 (Z.eqb_neq _ _)) by done. cbn [negb].
  destruct (list_checks_from error_mask 32 ltac:(lia) 33 (mkSummary [] 0 0))
    as (s & Hrun & Hl & He & Hsum); [lia|].
  change (32 - Z.of_nat 32) with 0 in *. change (Z.of_nat 32) with 32 in *.
  cbn [lines error_count warning_count app] in Hl, He, Hsum.
  replace (list_checks 33 error_mask 1 (mkSummary [] 0 0)) with (Some s)
    by (symmetry; exact Hrun).
  exists s. split; [done|].
  split; [exact Hl|]. unfold bits_set. split; lia.
Qed.

Lemma report_lists_every_bit_witness :
  report_results true 33 imdchk.usage_default_error_mask imdchk.CHECK_BIT_SEQ_CYL_DEC
  = Some None /\
  exists s,
    report_results false 33 imdchk.usage_default_error_mask imdchk.CHECK_BIT_SEQ_CYL_DEC
    = Some (Some s) /\
    lines s = (fun k => (Z.testbit imdchk.usage_default_error_mask k, 2 ^ k)) <$> seqZ 0 32 /\
    error_count s = bits_set imdchk.usage_default_error_mask /\
    warning_count s = 32 - bits_set imdchk.usage_default_error_mask.
Proof.
  apply (report_lists_every_bit imdchk.usage_default_error_mask imdchk.CHECK_BIT_SEQ_CYL_DEC).
  discriminate.
Defined.

(** With the default error mask and the cylinder-sequence warning as
    the only failure: nine errors and 23 warnings are reported. *)
Example report_counts_default_mask :
  exists s,
    report_results false 33 imdchk.usage_default_error_mask imdchk.CHECK_BIT_SEQ_CYL_DEC
    = Some (Some s) /\
    error_count s = 9 /\ warning_count s = 23.
Proof. eexists. vm_compute. done. Qed.

End ImdchkReport.

(** ** The analysis and the recommendations of imda *)

Section ImdaMain.
Import libimd imda imda_main.

Lemma rate_class_cases (t : ImdTrackInfo) :
  rate_class t = 0 \/ rate_class t = 1 \/ rate_class t = 2.
Proof. unfold rate_class. pose proof (Z.mod_pos_bound (mode t) 3). lia. Qed.

Lemma track_modes_of_classes (c0 c1 c2 : bool) (t : ImdTrackInfo) :
  track_modes_used (modes_of_classes c0 c1 c2) (mode t)
  = modes_of_classes (c0 || (rate_class t =? 0)) (c1 || (rate_class t =? 1))
                     (c2 || (rate_class t =? 2)).
Proof.
  unfold track_modes_used, mode_class_bit. fold (rate_class t).
  destruct (rate_class_cases t) as [->|[->| ->]]; destruct c0, c1, c2; reflexivity.
Qed.

Lemma track_loop_all (ts : list ImdTrackInfo) (track_info : ImdTrackInfo) (a : analysis)
    (fuel : nat) :
  (length ts < fuel)%nat ->
  track_loop fuel (LoadTrack <$> ts) track_info a = Some (foldl analyze_track a ts, true).
Proof.
  revert track_info a fuel.
  induction ts as [|t ts IH]; intros track_info a fuel Hfuel;
    (destruct fuel as [|fuel]; [cbn in Hfuel; lia|]); [done|].
  cbn in Hfuel. cbn [fmap list_fmap track_loop imd_read_track_header foldl].
  cbn [Z.eqb Z.ltb Z.compare]. apply IH. lia.
Qed.

Lemma foldl_analyze (ts : list ImdTrackInfo) (a : analysis) (c0 c1 c2 : bool) :
  modes_used a = modes_of_classes c0 c1 c2 ->
  0 <= track_count a -> track_count a + Z.of_nat (length ts) < 2 ^ 32 ->
  modes_used (foldl analyze_track a ts)
  = modes_of_classes (c0 || has_class 0 ts) (c1 || has_class 1 ts) (c2 || has_class 2 ts) /\
  track_count (foldl analyze_track a ts) = track_count a + Z.of_nat (length ts).
Proof.
  revert a c0 c1 c2. induction ts as [|t ts IH]; intros a c0 c1 c2 Hm Hn Hlen.
  { cbn. rewrite !orb_false_r. split; [done|lia]. }
  cbn [foldl length] in *.
  destruct (IH (analyze_track a t) (c0 || (rate_class t =? 0)) (c1 || (rate_class t =? 1))
              (c2 || (rate_class t =? 2))) as [IHm IHn].
  - cbn. rewrite Hm. apply track_modes_of_classes.
  - cbn. apply Z.mod_pos_bound. lia.
  - cbn. rewrite Z.mod_small by lia. lia.
  - rewrite IHm, IHn. cbn [track_count analyze_track]. rewrite Z.mod_small by lia.
    unfold has_class. cbn [existsb]. rewrite !orb_assoc. split; [done|lia].
Qed.

Lemma has_class_true (k : Z) (ts : list ImdTrackInfo) :
  has_class k ts = true -> exists t, t ∈ ts /\ rate_class t = k.
Proof.
  unfold has_class. intros H. apply existsb_exists in H as (t & Hin & Ht).
  exists t. split; [by apply list_elem_of_In|by apply Z.eqb_eq].
Qed.

Lemma has_class_false (k : Z) (ts : list ImdTrackInfo) (t : ImdTrackInfo) :
  has_class k ts = false -> t ∈ ts -> rate_class t <> k.
Proof.
  unfold has_class. intros H Hin Hk.
  assert (existsb (fun t => rate_class t =? k) ts = true); [|congruence].
  apply existsb_exists. exists t. split; [by apply list_elem_of_In|by apply Z.eqb_eq].
Qed.

Lemma length_print_all (flags : list Z) (st : notes) :
  length (print_all flags st).1 = length flags.
Proof.
  revert st. induction flags as [|f flags IH]; intros st; cbn [print_all]; [done|].
  destruct (print_drive_recommendation f st) as [r st1].
  specialize (IH st1). destruct (print_all flags st1) as [rs st2]. cbn in *. lia.
Qed.

Lemma conclude_classes (a : analysis) (c0 c1 c2 : bool) :
  modes_used a = modes_of_classes c0 c1 c2 ->
  conclude a
  = if (c0 && c1) || (c0 && c2) || (c1 && c2) then ErrorExit MixedRates
    else if negb (c0 || c1 || c2) && (0 <? track_count a) then ErrorExit NoRate
    else if track_count a =? 0 then NoTracks
    else
      let '(recs, st) := print_all (recommended_flags a) (mkNotes [0; 0; 0] 0) in
      Recommended recs st.
Proof. intros Hm. unfold conclude. rewrite Hm. destruct c0, c1, c2; reflexivity. Qed.

Lemma two_recommendations (a : analysis) (c0 c1 c2 : bool) :
  modes_used a = modes_of_classes c0 c1 c2 ->
  (c0 && c1) || (c0 && c2) || (c1 && c2) = false -> c0 || c1 || c2 = true ->
  (2 <= length (recommended_flags a))%nat.
Proof.
  intros Hm Hmixed Hsome. unfold recommended_flags. rewrite Hm.
  destruct c0, c1, c2; try discriminate;
    [change (modes_of_classes true false false) with 1
    |change (modes_of_classes false true false) with 2
    |change (modes_of_classes false false true) with 4];
    cbv iota; rewrite ?length_app; cbn [length]; lia.
Qed.

(** On a file that is read to its end, the run ends; the "no tracks"
    message is for the empty file only, the "mixed data rates" exit is
    taken exactly when two tracks have different rate classes, drive
    types are recommended (at least two) exactly when the file has
    tracks and all are of one class, and the "no identifiable data
    rate" exit is never taken. *)
Theorem imda_recommends_for_one_rate_only (ts : list ImdTrackInfo)
    (track_info : ImdTrackInfo) :
  Z.of_nat (length ts) < 2 ^ 32 ->
  exists o,
    main_from_tracks (S (length ts)) (LoadTrack <$> ts) track_info = Some o /\
    match o with
    | NoTracks => ts = []
    | ErrorExit MixedRates =>
        exists t1 t2, t1 ∈ ts /\ t2 ∈ ts /\ rate_class t1 <> rate_class t2
    | Recommended recs st =>
        ts <> [] /\ (2 <= length recs)%nat /\
        forall t1 t2, t1 ∈ ts -> t2 ∈ ts -> rate_class t1 = rate_class t2
    | ErrorExit NoRate | ReadFailure => False
    end.
Proof.
  intros Hlen. unfold main_from_tracks. rewrite track_loop_all by lia.
  eexists. split; [done|].
  destruct (foldl_analyze ts (mkAnalysis 0 0 0 0 0) false false false)
    as [Hm Hn]; [done|cbn; lia|cbn; lia|].
  cbn [orb track_count] in Hm, Hn. rewrite Z.add_0_l in Hn.
  rewrite (conclude_classes _ _ _ _ Hm), Hn.
  pose proof (two_recommendations _ _ _ _ Hm) as Htwo.
  pose proof (length_print_all
                (recommended_flags (foldl analyze_track (mkAnalysis 0 0 0 0 0) ts))
                (mkNotes [0; 0; 0] 0)) as Hl.
  destruct (print_all _ _) as [recs st]. cbn [fst] in Hl. rewrite <- Hl in Htwo.
  assert (Hsame : forall k, (forall t, t ∈ ts -> rate_class t = k) ->
            forall t1 t2, t1 ∈ ts -> t2 ∈ ts -> rate_class t1 = rate_class t2).
  { intros k Hk t1 t2 H1 H2. by rewrite (Hk t1), (Hk t2). }
  assert (Hposs : forall t, t ∈ ts -> 0 < Z.of_nat (length ts) /\ ts <> []).
  { intros t Hin. destruct ts; [by apply elem_of_nil in Hin|]. split; [cbn; lia|done]. }
  destruct (has_class 0 ts) eqn:E0, (has_class 1 ts) eqn:E1, (has_class 2 ts) eqn:E2;
    cbn [andb orb negb];
    try apply has_class_true in E0 as (x0 & Hx0 & Hc0);
    try apply has_class_true in E1 as (x1 & Hx1 & Hc1);
    try apply has_class_true in E2 as (x2 & Hx2 & Hc2);
    try (first [exists x0, x1; repeat split; try done; lia
               |exists x0, x2; repeat split; try done; lia
               |exists x1, x2; repeat split; try done; lia]).
  - (* class 0 only *)
    destruct (Hposs x0 Hx0) as [Hpos Hne].
    rewrite (proj2 (Z.eqb_neq (Z.of_nat (length ts)) 0)) by lia.
    split; [done|]. split; [by apply Htwo|]. apply (Hsame 0). intros t Ht.
    pose proof (has_class_false 1 ts t E1 Ht). pose proof (has_class_false 2 ts t E2 Ht).
    destruct (rate_class_cases t) as [?|[?|?]]; lia.
  - (* class 1 only *)
    destruct (Hposs x1 Hx1) as [Hpos Hne].
    rewrite (proj2 (Z.eqb_neq (Z.of_nat (length ts)) 0)) by lia.
    split; [done|]. split; [by apply Htwo|]. apply (Hsame 1). intros t Ht.
    pose proof (has_class_false 0 ts t E0 Ht). pose proof (has_class_false 2 ts t E2 Ht).
    destruct (rate_class_cases t) as [?|[?|?]]; lia.
  - (* class 2 only *)
    destruct (Hposs x2 Hx2) as [Hpos Hne].
    rewrite (proj2 (Z.eqb_neq (Z.of_nat (length ts)) 0)) by lia.
    split; [done|]. split; [by apply Htwo|]. apply (Hsame 2). intros t Ht.
    pose proof (has_class_false 0 ts t E0 Ht). pose proof (has_class_false 1 ts t E1 Ht).
    destruct (rate_class_cases t) as [?|[?|?]]; lia.
  - (* no class at all: no track *)
    destruct ts as [|t ts']; [done|]. exfalso.
    assert (Ht : t ∈ t :: ts') by left.
    pose proof (has_class_false 0 _ t E0 Ht). pose proof (has_class_false 1 _ t E1 Ht).
    pose proof (has_class_false 2 _ t E2 Ht).
    destruct (rate_class_cases t) as [?|[?|?]]; lia.
Qed.

Lemma imda_recommends_for_one_rate_only_witness :
  exists o,
    main_from_tracks 3 (LoadTrack <$> [samples.track_at 0 0 1; samples.track_at 1 0 1])
      (samples.track_at 0 0 1) = Some o /\
    match o with
    | NoTracks => [samples.track_at 0 0 1; samples.track_at 1 0 1] = []
    | ErrorExit MixedRates =>
        exists t1 t2, t1 ∈ [samples.track_at 0 0 1; samples.track_at 1 0 1] /\
                      t2 ∈ [samples.track_at 0 0 1; samples.track_at 1 0 1] /\
                      rate_class t1 <> rate_class t2
    | Recommended recs st =>
        [samples.track_at 0 0 1; samples.track_at 1 0 1] <> [] /\ (2 <= length recs)%nat /\
        forall t1 t2, t1 ∈ [samples.track_at 0 0 1; samples.track_at 1 0 1] ->
                      t2 ∈ [samples.track_at 0 0 1; samples.track_at 1 0 1] ->
                      rate_class t1 = rate_class t2
    | ErrorExit NoRate | ReadFailure => False
    end.
Proof.
  apply (imda_recommends_for_one_rate_only
           [samples.track_at 0 0 1; samples.track_at 1 0 1] (samples.track_at 0 0 1)).
  cbn. lia.
Defined.

(** A file of two 500 kbps tracks up to cylinder 1: three drive types,
    each with double stepping and the 360 RPM note. *)
Example imda_two_track_file :
  main_from_tracks 3 (LoadTrack <$> [samples.track_at 0 0 1; samples.track_at 1 0 1])
    (samples.track_at 0 0 1)
  = Some (Recommended
            [mkRecommendation DRIVE_TYPE_D35_HD [1] [DS_1];
             mkRecommendation DRIVE_TYPE_D525_HD [1] [DS_1];
             mkRecommendation DRIVE_TYPE_D8 [1] [DS_1]]
            (mkNotes [0; 0; 1] 1)).
Proof. reflexivity. Qed.

Lemma foldl_max_cyl (ts : list ImdTrackInfo) (a : analysis) :
  max_cyl (foldl analyze_track a ts) < 40
  <-> max_cyl a < 40 /\ Forall (fun t => cyl t < 40) ts.
Proof.
  revert a. induction ts as [|t ts IH]; intros a; cbn [foldl].
  { split; [intros H; split; [done|constructor]|by intros [H _]]. }
  rewrite IH, Forall_cons. cbn [max_cyl analyze_track].
  destruct (Z.ltb_spec (max_cyl a) (cyl t)); split; intros (? & ?); repeat split;
    try tauto; lia.
Qed.

Lemma recommended_flags_cases (a : analysis) :
  recommended_flags a = [] \/ modes_used a = 1 \/ modes_used a = 2 \/ modes_used a = 4.
Proof.
  unfold recommended_flags. destruct (modes_used a) as [|p|p]; try (by left).
  do 3 (try destruct p as [p|p|]); try (by left); auto.
Qed.

Lemma conclude_no_40_track_drive (a : analysis) (recs : list recommendation) (st : notes) :
  conclude a = Recommended recs st ->
  Forall (fun r => rec_drive r <> DRIVE_TYPE_D525_DD_40 /\
                   (DS_1 ∈ rec_options r <-> max_cyl a < 40)) recs /\
  notes_printed st !! 0%nat = Some 0.
Proof.
  unfold conclude. cbv zeta.
  destruct (1 <? _); [discriminate|]. destruct (_ && _); [discriminate|].
  destruct (track_count a =? 0); [discriminate|].
  destruct (print_all _ _) as [recs' st'] eqn:E. intros H. injection H as <- <-.
  destruct (recommended_flags_cases a) as [Hn|[Hm|[Hm|Hm]]];
    [rewrite Hn in E; cbn in E; injection E as <- <-; by split|..];
    revert E; unfold recommended_flags, base_drive_flags; cbv zeta.
  - rewrite Hm. cbv iota.
    destruct (Z.ltb_spec (max_cyl a) 40), (Z.eqb_spec (max_cyl a) 39), (Z.eqb_spec (max_cyl a) 76),
      (max_track_bytes_estimate a <? _), (max_cyl a <=? 76);
      try (exfalso; lia);
      vm_compute print_all; intros [= <- <-]; (split; [|reflexivity]);
      repeat apply Forall_cons_2; try apply Forall_nil_2;
      (split; [vm_compute; discriminate|]); cbn [rec_options];
      (split; [intros Hin; repeat (apply elem_of_cons in Hin as [Hin|Hin]; try discriminate);
                 try (by apply elem_of_nil in Hin); lia
              |intros; try lia; repeat constructor]).
  - rewrite Hm. cbv iota.
    destruct (Z.ltb_spec (max_cyl a) 40), (Z.eqb_spec (max_cyl a) 39), (Z.eqb_spec (max_cyl a) 76);
      try (exfalso; lia);
      vm_compute print_all; intros [= <- <-]; (split; [|reflexivity]);
      repeat apply Forall_cons_2; try apply Forall_nil_2;
      (split; [vm_compute; discriminate|]); cbn [rec_options];
      (split; [intros Hin; repeat (apply elem_of_cons in Hin as [Hin|Hin]; try discriminate);
                 try (by apply elem_of_nil in Hin); lia
              |intros; try lia; repeat constructor]).
  - rewrite Hm. cbv iota.
    destruct (Z.ltb_spec (max_cyl a) 40), (Z.eqb_spec (max_cyl a) 39), (Z.eqb_spec (max_cyl a) 76);
      try (exfalso; lia);
      vm_compute print_all; intros [= <- <-]; (split; [|reflexivity]);
      repeat apply Forall_cons_2; try apply Forall_nil_2;
      (split; [vm_compute; discriminate|]); cbn [rec_options];
      (split; [intros Hin; repeat (apply elem_of_cons in Hin as [Hin|Hin]; try discriminate);
                 try (by apply elem_of_nil in Hin); lia
              |intros; try lia; repeat constructor]).
Qed.

(** Whenever drive types are recommended, the 5.25 inch 40-track drive
    is not among them and the 40-track note is not given: the test for
    cylinder 39 is reached only when the highest cylinder is 40 or
    more.  Each recommendation carries the double-step option exactly
    when every track of the file is below cylinder 40. *)
Theorem imda_never_recommends_40_track_drive (ts : list ImdTrackInfo)
    (track_info : ImdTrackInfo) (recs : list recommendation) (st : notes) :
  main_from_tracks (S (length ts)) (LoadTrack <$> ts) track_info
  = Some (Recommended recs st) ->
  Forall (fun r => rec_drive r <> DRIVE_TYPE_D525_DD_40 /\
                   (DS_1 ∈ rec_options r <-> Forall (fun t => cyl t < 40) ts)) recs /\
  notes_printed st !! 0%nat = Some 0.
Proof.
  unfold main_from_tracks. rewrite track_loop_all by lia. intros [= H].
  apply conclude_no_40_track_drive in H as [Hall Hnote]. split; [|done].
  eapply Forall_impl; [exact Hall|]. intros r [Hd Hds]. split; [done|].
  rewrite Hds, foldl_max_cyl. cbn [max_cyl]. split; [by intros [_ ?]|by split].
Qed.

Lemma imda_never_recommends_40_track_drive_witness :
  exists recs st,
    main_from_tracks 3 (LoadTrack <$> [samples.track_at 0 0 1; samples.track_at 39 0 1])
      (samples.track_at 0 0 1) = Some (Recommended recs st) /\
    Forall (fun r => rec_drive r <> DRIVE_TYPE_D525_DD_40 /\
                     (DS_1 ∈ rec_options r
                      <-> Forall (fun t => cyl t < 40)
                            [samples.track_at 0 0 1; samples.track_at 39 0 1])) recs /\
    notes_printed st !! 0%nat = Some 0.
Proof.
  eexists _, _. split; [reflexivity|].
  apply (imda_never_recommends_40_track_drive
           [samples.track_at 0 0 1; samples.track_at 39 0 1] (samples.track_at 0 0 1)).
  reflexivity.
Defined.

End ImdaMain.
